(** * DESC: derivative engine and objective composer, formalised

    A shallow embedding of
      - [desc/derivatives.py]            (module [Derivatives]),
      - [desc/objectives/objective_funs.py]   (module [ObjectiveFuns]),
      - [desc/objectives/linear_objectives.py] (module [LinearObjectives]),
    over a small functional model of the numpy arrays they manipulate
    (module [Np]).

    Conventions.
      - A float is an exact real number ([R]); rounding is not modelled, so a
        statement of equality within a tolerance is proved as an exact equality.
        [inf] and [nan] are not real numbers: where [BroydenJacobian.compute]
        divides by a float that is zero, the outcome is marked [NonFinite].
      - An array has rank 0, 1 or 2 ([Np.ndarray]); numpy's broadcasting,
        [dot], [squeeze] and shape errors are written out for these ranks.
      - A Python exception is a value [Raise e] of the [result] type.
      - An object with attributes is a record; a method that mutates [self]
        returns the new record. *)

From Stdlib Require Import String.
From Stdlib Require Import ZArith Reals Lra Lia List Bool Arith PeanoNat.
From Stdlib Require Import FunctionalExtensionality.
Import ListNotations.
Local Open Scope R_scope.

(** ** Exceptions *)

(** [NonFinite] is not a Python exception: [Raise NonFinite] says that the
    code goes on with an array holding [inf] or [nan]. *)
Inductive exn : Type :=
| ValueError
| IndexError
| ZeroDivisionError
| RuntimeError
| NotImplementedError
| AttributeError
| TypeError
| KeyError
| NameError
| NonFinite.

Inductive result (A : Type) : Type :=
| Ok (a : A)
| Raise (e : exn).
Arguments Ok {A} a.
Arguments Raise {A} e.

Definition bind {A B : Type} (r : result A) (k : A -> result B) : result B :=
  match r with
  | Ok a => k a
  | Raise e => Raise e
  end.

Notation "x <- e ;; k" := (bind e (fun x => k))
  (at level 61, e at next level, right associativity).

Fixpoint mapM {A B : Type} (f : A -> result B) (l : list A) : result (list B) :=
  match l with
  | [] => Ok []
  | a :: l' => b <- f a ;; bs <- mapM f l' ;; Ok (b :: bs)
  end.

(** ** A fragment of numpy *)

Module Np.

(** Arrays of rank 0 (shape [()]), 1 (shape [(len v,)]) and 2 (shape
    [(len rows, ncols)]; every row has [ncols] entries). *)
Inductive ndarray : Type :=
| Scalar (x : R)
| Vec (v : list R)
| Mat (ncols : nat) (rows : list (list R)).

Definition ndim (a : ndarray) : nat :=
  match a with Scalar _ => 0 | Vec _ => 1 | Mat _ _ => 2 end.

Definition nrows (a : ndarray) : nat :=
  match a with Scalar _ => 1 | Vec _ => 1 | Mat _ rows => length rows end.

Definition ncols (a : ndarray) : nat :=
  match a with Scalar _ => 1 | Vec v => length v | Mat c _ => c end.

Definition shape (a : ndarray) : list nat :=
  match a with
  | Scalar _ => []
  | Vec v => [length v]
  | Mat c rows => [length rows; c]
  end.

(** [a.size] *)
Definition size (a : ndarray) : nat := (nrows a * ncols a)%nat.

(** Every row of a 2-D array has [ncols] entries. *)
Definition wf (a : ndarray) : Prop :=
  match a with
  | Mat c rows => Forall (fun r => length r = c) rows
  | _ => True
  end.

(** The rows of [a] seen as a 2-D array (a vector is one row). *)
Definition rows_of (a : ndarray) : list (list R) :=
  match a with Scalar x => [[x]] | Vec v => [v] | Mat _ rows => rows end.

(** [a.flatten()], as a Python list *)
Definition flatten (a : ndarray) : list R := concat (rows_of a).

(** [np.ravel(a)] *)
Definition ravel (a : ndarray) : ndarray := Vec (flatten a).

Definition atleast_1d (a : ndarray) : ndarray :=
  match a with Scalar x => Vec [x] | _ => a end.

Definition atleast_2d (a : ndarray) : ndarray :=
  match a with
  | Scalar x => Mat 1 [[x]]
  | Vec v => Mat (length v) [v]
  | Mat c rows => Mat c rows
  end.

(** [np.squeeze(a)]: every axis of length one is removed. *)
Definition squeeze (a : ndarray) : ndarray :=
  match a with
  | Scalar x => Scalar x
  | Vec [x] => Scalar x
  | Vec v => Vec v
  | Mat c rows =>
      match rows, c with
      | [r], 1%nat => Scalar (hd 0 r)
      | [r], _ => Vec r
      | _, 1%nat => Vec (map (hd 0) rows)
      | _, _ => Mat c rows
      end
  end.

Definition column (j : nat) (rows : list (list R)) : list R :=
  map (fun r => nth j r 0) rows.

(** [a.T] *)
Definition transpose (a : ndarray) : ndarray :=
  match a with
  | Mat c rows => Mat (length rows) (map (fun j => column j rows) (seq 0 c))
  | _ => a
  end.

(** [np.zeros((m, n))] *)
Definition zeros (m n : nat) : ndarray := Mat n (repeat (repeat 0 n) m).

(** [np.zeros((n,))] *)
Definition zeros1 (n : nat) : ndarray := Vec (repeat 0 n).

Definition delta (i j : nat) : R := if Nat.eqb i j then 1 else 0.

(** [np.eye(m, n)] *)
Definition eye (m n : nat) : ndarray :=
  Mat n (map (fun i => map (fun j => delta i j) (seq 0 n)) (seq 0 m)).

(** Row [i] of [np.diag(h)] *)
Definition diag_row (h : list R) (i : nat) : list R :=
  map (fun j => if Nat.eqb j i then nth j h 0 else 0) (seq 0 (length h)).

(** Broadcasting of two axis lengths. *)
Definition bshape (n m : nat) : option nat :=
  if Nat.eqb n m then Some n
  else if Nat.eqb n 1 then Some m
  else if Nat.eqb m 1 then Some n
  else None.

(** Entry [(i, j)] of [a] stretched to a 2-D shape: an axis of length one
    is read at index 0. *)
Definition bget (a : ndarray) (i j : nat) : R :=
  nth (if Nat.eqb (ncols a) 1 then 0 else j)
      (nth (if Nat.eqb (nrows a) 1 then 0 else i) (rows_of a) [])
      0.

Definition of_rows (nd c : nat) (rows : list (list R)) : ndarray :=
  match nd with
  | O => Scalar (nth 0 (nth 0 rows []) 0)
  | S O => Vec (nth 0 rows [])
  | _ => Mat c rows
  end.

(** An elementwise binary operator with numpy's broadcasting. *)
Definition binop (op : R -> R -> R) (a b : ndarray) : result ndarray :=
  match bshape (nrows a) (nrows b), bshape (ncols a) (ncols b) with
  | Some r, Some c =>
      Ok (of_rows (Nat.max (ndim a) (ndim b)) c
            (map (fun i => map (fun j => op (bget a i j) (bget b i j)) (seq 0 c))
                 (seq 0 r)))
  | _, _ => Raise ValueError
  end.

Definition add : ndarray -> ndarray -> result ndarray := binop Rplus.
Definition sub : ndarray -> ndarray -> result ndarray := binop Rminus.
Definition mul : ndarray -> ndarray -> result ndarray := binop Rmult.

(** [a += b]: the result must keep the shape of [a]. *)
Definition iadd (a b : ndarray) : result ndarray :=
  r <- add a b ;;
  if list_eq_dec Nat.eq_dec (shape r) (shape a) then Ok r else Raise ValueError.

Definition map_nd (f : R -> R) (a : ndarray) : ndarray :=
  match a with
  | Scalar x => Scalar (f x)
  | Vec v => Vec (map f v)
  | Mat c rows => Mat c (map (map f) rows)
  end.

(** [a / d] for a Python float [d] *)
Definition div_scalar (a : ndarray) (d : R) : ndarray := map_nd (fun x => x / d) a.

(** [a ** 2] *)
Definition square (a : ndarray) : ndarray := map_nd (fun x => x * x) a.

Definition sum_list (l : list R) : R := fold_right Rplus 0 l.

(** [np.sum(a)] *)
Definition sum (a : ndarray) : R := sum_list (flatten a).

(** [np.linalg.norm(a)]: the 2-norm of the flattened array. *)
Definition norm (a : ndarray) : R := sqrt (sum (square a)).

Fixpoint dotv (u v : list R) : R :=
  match u, v with
  | a :: u', b :: v' => a * b + dotv u' v'
  | _, _ => 0
  end.

(** [np.dot(a, b)] *)
Definition dot (a b : ndarray) : result ndarray :=
  match a, b with
  | Scalar _, _ => mul a b
  | _, Scalar _ => mul a b
  | Vec u, Vec v =>
      if Nat.eqb (length u) (length v) then Ok (Scalar (dotv u v))
      else Raise ValueError
  | Mat c rows, Vec v =>
      if Nat.eqb c (length v) then Ok (Vec (map (fun r => dotv r v) rows))
      else Raise ValueError
  | Vec u, Mat c rows =>
      if Nat.eqb (length u) (length rows)
      then Ok (Vec (map (fun j => dotv u (column j rows)) (seq 0 c)))
      else Raise ValueError
  | Mat c1 rows1, Mat c2 rows2 =>
      if Nat.eqb c1 (length rows2)
      then Ok (Mat c2 (map (fun r => map (fun j => dotv r (column j rows2)) (seq 0 c2))
                           rows1))
      else Raise ValueError
  end.

(** [u[:, np.newaxis] * v[np.newaxis, :]] for 1-D [u], [v] *)
Definition outer (u v : list R) : ndarray :=
  Mat (length v) (map (fun a => map (fun b => a * b) v) u).

(** [v[idx]] for an integer index array [idx] (no negative index). *)
Definition take {A : Type} (v : list A) (idx : list nat) : result (list A) :=
  mapM (fun i => match nth_error v i with
                 | Some x => Ok x
                 | None => Raise IndexError
                 end) idx.

(** [v[a:b]] for [0 <= a], [0 <= b] *)
Definition slice {A : Type} (a b : nat) (v : list A) : list A :=
  firstn (b - a) (skipn a v).

(** [l[i] = x] on a Python list of known length *)
Fixpoint set_nth {A : Type} (l : list A) (i : nat) (x : A) : list A :=
  match l, i with
  | [], _ => []
  | _ :: l', O => x :: l'
  | a :: l', S i' => a :: set_nth l' i' x
  end.

(** A 1-D value stored into a 1-D slot of length [m] (numpy assignment). *)
Definition broadcast_to (m : nat) (vals : list R) : result (list R) :=
  if Nat.eqb (length vals) m then Ok vals
  else if Nat.eqb (length vals) 1 then Ok (repeat (hd 0 vals) m)
  else Raise ValueError.

Fixpoint zip_with {A B C : Type} (f : A -> B -> C) (u : list A) (v : list B) : list C :=
  match u, v with
  | a :: u', b :: v' => f a b :: zip_with f u' v'
  | _, _ => []
  end.

End Np.

(** ** desc/derivatives.py *)

Module Derivatives.
Import Np.

(** The list tested by both [mode] setters. *)
Definition recognized_modes : list string :=
  ["fwd"; "rev"; "grad"; "hess"; "jvp"]%string.

(** [mode in l] *)
Definition mode_in (mode : string) (l : list string) : bool :=
  existsb (String.eqb mode) l.

(** *** class AutoDiffDerivative

    The differentiated callable and the JAX transformations are opaque: the
    model records which of them [self._compute] is bound to. *)
Module AutoDiffDerivative.

Inductive impl : Type :=
| jax_jacfwd
| jax_jacrev
| jax_grad
| jax_hessian
| _compute_jvp.

(** An attribute that has not been assigned yet is [None]. *)
Record t {Fn : Type} : Type := mk {
  _fun : Fn;
  _argnum : nat;
  _mode : option string;
  _compute : option impl
}.
Arguments t Fn : clear implicits.

Definition with_compute {Fn : Type} (self : t Fn) (c : impl) : t Fn :=
  mk Fn (_fun self) (_argnum self) (_mode self) (Some c).

(** [@mode.setter def mode(self, mode)] *)
Definition set_mode {Fn : Type} (self : t Fn) (mode : string) : result (t Fn) :=
  if negb (mode_in mode recognized_modes) then Raise ValueError
  else
    let self := mk Fn (_fun self) (_argnum self) (Some mode) (_compute self) in
    if String.eqb mode "fwd" then Ok (with_compute self jax_jacfwd)
    else if String.eqb mode "rev" then Ok (with_compute self jax_jacrev)
    else if String.eqb mode "grad" then Ok (with_compute self jax_grad)
    else if String.eqb mode "hess" then Ok (with_compute self jax_hessian)
    else if String.eqb mode "jvp" then Ok (with_compute self _compute_jvp)
    else Ok self.

(** [__init__(self, fun, argnum, mode)] *)
Definition init {Fn : Type} (fn : Fn) (argnum : nat) (mode : string) : result (t Fn) :=
  set_mode (mk Fn fn argnum None None) mode.

(** [compute(self, *args)] calls [self._compute]; the model returns the
    implementation that is called. *)
Definition compute {Fn : Type} (self : t Fn) : result impl :=
  match _compute self with
  | Some c => Ok c
  | None => Raise AttributeError
  end.

End AutoDiffDerivative.

(** *** class FiniteDiffDerivative

    The positional arguments are 1-D arrays (a 0-d argument is made 1-D by
    [np.atleast_1d]); the differentiated function returns any array. *)
Module FiniteDiffDerivative.

Inductive impl : Type :=
| compute_grad_or_jac
| compute_hessian
| compute_jvp.

Record t : Type := mk {
  _fun : list (list R) -> ndarray;
  _argnum : nat;
  rel_step : R;
  _mode : option string;
  _compute : option impl
}.

Definition with_compute (self : t) (c : impl) : t :=
  mk (_fun self) (_argnum self) (rel_step self) (_mode self) (Some c).

(** [@mode.setter def mode(self, mode)] *)
Definition set_mode (self : t) (mode : string) : result t :=
  if negb (mode_in mode recognized_modes) then Raise ValueError
  else
    let self := mk (_fun self) (_argnum self) (rel_step self) (Some mode) (_compute self) in
    if String.eqb mode "fwd" then Ok (with_compute self compute_grad_or_jac)
    else if String.eqb mode "rev" then Ok (with_compute self compute_grad_or_jac)
    else if String.eqb mode "grad" then Ok (with_compute self compute_grad_or_jac)
    else if String.eqb mode "hess" then Ok (with_compute self compute_hessian)
    else if String.eqb mode "jvp" then Ok (with_compute self compute_jvp)
    else Ok self.

(** [__init__(self, fun, argnum, mode, rel_step)] *)
Definition init (fn : list (list R) -> ndarray) (argnum : nat) (mode : string)
    (rel_step : R) : result t :=
  set_mode (mk fn argnum rel_step None None) mode.

(** The closure [f(x)]: [fun] at [args] with position [argnum] replaced. *)
Definition f (self : t) (args : list (list R)) (x : list R) : ndarray :=
  _fun self (firstn (_argnum self) args ++ x :: skipn (S (_argnum self)) args).

(** [h = np.maximum(1.0, np.abs(x0)) * self.rel_step] *)
Definition steps (self : t) (x0 : list R) : list R :=
  map (fun xi => Rmax 1 (Rabs xi) * rel_step self) x0.

(** The body of [for i in range(n)], on [J.T] kept as a list of [n] rows of
    length [m]. *)
Definition jac_column (self : t) (args : list (list R)) (x0 h : list R) (m i : nat)
    (JT : list (list R)) : result (list (list R)) :=
  let x1 := zip_with Rminus x0 (diag_row h i) in
  let x2 := zip_with Rplus x0 (diag_row h i) in
  let dx := nth i x2 0 - nth i x1 0 in
  let f1 := f self args x1 in
  let f2 := f self args x2 in
  df <- sub f2 f1 ;;
  let dfdx := div_scalar df dx in
  row <- broadcast_to m (flatten dfdx) ;;
  Ok (set_nth JT i row).

Fixpoint jac_loop (self : t) (args : list (list R)) (x0 h : list R) (m : nat)
    (range : list nat) (JT : list (list R)) : result (list (list R)) :=
  match range with
  | [] => Ok JT
  | i :: range' =>
      JT' <- jac_column self args x0 h m i JT ;;
      jac_loop self args x0 h m range' JT'
  end.

(** [_compute_grad_or_jac(self, *args)] *)
Definition _compute_grad_or_jac (self : t) (args : list (list R)) : result ndarray :=
  match nth_error args (_argnum self) with
  | None => Raise IndexError
  | Some x0 =>
      let f0 := f self args x0 in
      let m := size f0 in
      let n := length x0 in
      let h := steps self x0 in
      JT <- jac_loop self args x0 h m (seq 0 n) (repeat (repeat 0 m) n) ;;
      let J := transpose (Mat m JT) in
      Ok (if Nat.eqb m 1 then ravel J else J)
  end.

(** A function value stored into one entry of [hess]: it must have size 1. *)
Definition as_entry (a : ndarray) : result R :=
  match flatten a with
  | [v] => Ok v
  | _ => Raise ValueError
  end.

Definition get2 (H : list (list R)) (i j : nat) : R := nth j (nth i H []) 0.

Definition set2 (H : list (list R)) (i j : nat) (v : R) : list (list R) :=
  set_nth H i (set_nth (nth i H []) j v).

Definition shift (x d : list R) (c : R) : list R :=
  zip_with (fun a b => a + c * b) x d.

(** The inner loop [for j in range(i + 1, n)] of [_compute_hessian]. *)
Fixpoint hess_inner (fx : list R -> ndarray) (x h : list R) (i : nat)
    (range : list nat) (H : list (list R)) : result (list (list R)) :=
  match range with
  | [] => Ok H
  | j :: range' =>
      let eei := diag_row h i in
      let eej := diag_row h j in
      a <- sub (fx (shift (shift x eei 1) eej 1)) (fx (shift (shift x eei 1) eej (-1))) ;;
      b <- sub a (fx (shift (shift x eei (-1)) eej 1)) ;;
      c <- add b (fx (shift (shift x eei (-1)) eej (-1))) ;;
      v <- as_entry (div_scalar c (4 * get2 H j i)) ;;
      hess_inner fx x h i range' (set2 (set2 H i j v) j i v)
  end.

Fixpoint hess_loop (fx : list R -> ndarray) (x h : list R) (n : nat)
    (range : list nat) (H : list (list R)) : result (list (list R)) :=
  match range with
  | [] => Ok H
  | i :: range' =>
      let eei := diag_row h i in
      a <- sub (fx (shift x eei 2)) (map_nd (fun y => 2 * y) (fx x)) ;;
      b <- add a (fx (shift x eei (-2))) ;;
      v <- as_entry (div_scalar b (4 * get2 H i i)) ;;
      H' <- hess_inner fx x h i (seq (S i) (n - S i)) (set2 H i i v) ;;
      hess_loop fx x h n range' H'
  end.

(** [_compute_hessian(self, *args)] *)
Definition _compute_hessian (self : t) (args : list (list R)) : result ndarray :=
  match nth_error args (_argnum self) with
  | None => Raise IndexError
  | Some x =>
      let n := length x in
      let h := steps self x in
      H <- hess_loop (f self args) x h n (seq 0 n) (rows_of (outer h h)) ;;
      Ok (Mat n H)
  end.

(** [_compute_jvp(self, v, *args)] *)
Definition _compute_jvp (self : t) (v : list R) (args : list (list R)) : result ndarray :=
  let normv := norm (Vec v) in
  let vh := map (fun a => a / normv) v in
  match nth_error args (_argnum self) with
  | None => Raise IndexError
  | Some x =>
      let h := rel_step self in
      xp <- add (Vec x) (Vec (map (fun a => h * a) vh)) ;;
      xm <- sub (Vec x) (Vec (map (fun a => h * a) vh)) ;;
      d <- sub (f self args (flatten xp)) (f self args (flatten xm)) ;;
      Ok (map_nd (fun y => y * normv) (div_scalar d (2 * h)))
  end.

(** [compute(self, *args)]: [return self._compute( *args)] *)
Definition compute (self : t) (args : list (list R)) : result ndarray :=
  match _compute self with
  | None => Raise AttributeError
  | Some compute_grad_or_jac => _compute_grad_or_jac self args
  | Some compute_hessian => _compute_hessian self args
  | Some compute_jvp =>
      match args with
      | v :: args' => _compute_jvp self v args'
      | [] => Raise TypeError
      end
  end.

End FiniteDiffDerivative.

(** *** class BroydenJacobian

    [x], [f(x)] are 1-D arrays; the extra positional arguments of [fun] are a
    value of type [Extra].  [evals] is a ghost field: the points at which
    [compute] has called [self.fun], oldest first. *)
Module BroydenJacobian.

Record t {Extra : Type} : Type := mk {
  fn : list R -> Extra -> list R;
  x0 : list R;
  f0 : list R;
  shape : nat * nat;
  J : ndarray;
  minstep : R;
  x1 : list R;
  f1 : list R;
  evals : list (list R)
}.
Arguments t Extra : clear implicits.

(** [__init__(self, fun, x0, f0, J0=None, minstep=1e-12)] *)
Definition init {Extra : Type} (fn : list R -> Extra -> list R) (x0 f0 : list R)
    (J0 : option ndarray) (minstep : R) : t Extra :=
  let shape := (length f0, length x0) in
  mk Extra fn x0 f0 shape
     (match J0 with Some j => j | None => eye (fst shape) (snd shape) end)
     minstep x0 f0 [].

(** The three assignments that open [compute]. *)
Definition advance {Extra : Type} (self : t Extra) (x : list R) : t Extra :=
  mk Extra (fn self) (x1 self) (f1 self) (shape self) (J self) (minstep self)
     x (f1 self) (evals self).

(** [self.f1 = self.fun(x, *args)] *)
Definition evaluate {Extra : Type} (self : t Extra) (x : list R) (args : Extra) : t Extra :=
  mk Extra (fn self) (x0 self) (f0 self) (shape self) (J self) (minstep self)
     (x1 self) (fn self x args) (evals self ++ [x]).

Definition set_J {Extra : Type} (self : t Extra) (J' : ndarray) : t Extra :=
  mk Extra (fn self) (x0 self) (f0 self) (shape self) J' (minstep self)
     (x1 self) (f1 self) (evals self).

(** [update[:, np.newaxis] * dx[np.newaxis, :]] *)
Definition outer_nd (u v : ndarray) : result ndarray :=
  match u, v with
  | Vec u', Vec v' => Ok (outer u' v')
  | _, _ => Raise IndexError
  end.

(** [a / step**2]: numpy divides by a float that is zero without raising,
    and the quotient holds [inf] or [nan]. *)
Definition true_divide (a : ndarray) (d : R) : result ndarray :=
  if Req_dec_T d 0 then Raise NonFinite else Ok (div_scalar a d).

(** The rank-1 update of the [else] branch, from the state after
    [self.f1 = self.fun(x, *args)]. *)
Definition updated_J {Extra : Type} (self : t Extra) (dx : ndarray) (step : R)
    : result ndarray :=
  df <- sub (Vec (f1 self)) (Vec (f0 self)) ;;
  Jdx <- dot (J self) dx ;;
  num <- sub df Jdx ;;
  quotient <- true_divide num (step * step) ;;
  update <- outer_nd quotient dx ;;
  iadd (J self) update.

(** [compute(self, x, *args)]: the object after the call, and what the call
    returns or raises.  Every call returns the array object [self.J]; the
    model returns its value at the time of the return.  After a step of
    norm zero that is not below [minstep] (so [minstep <= 0]) the code
    divides by zero and stores an array of [nan] in [self.J]: the outcome
    is [Raise NonFinite], and the [J] of the record returned with it is not
    the object's. *)
Definition compute {Extra : Type} (self : t Extra) (x : list R) (args : Extra)
    : t Extra * result ndarray :=
  let self := advance self x in
  match sub (Vec (x1 self)) (Vec (x0 self)) with
  | Raise e => (self, Raise e)
  | Ok dx =>
      let step := norm dx in
      if Rlt_dec step (minstep self) then (self, Ok (J self))
      else
        let self := evaluate self x args in
        match updated_J self dx step with
        | Raise e => (self, Raise e)
        | Ok J' => (set_J self J', Ok J')
        end
  end.

End BroydenJacobian.

(** *** class BlockJacobian

    [__init__] calls [jacrev] and, with [usejit], [jit].  derivatives.py
    binds neither name: it imports [numpy], [abc], the names [TextColors],
    [use_jax] and [put] of [desc.backend] and, under [use_jax], the module
    [jax].  Evaluating either name raises [NameError]. *)
Module BlockJacobian.

(** The global names [jacrev] and [jit] of derivatives.py: what evaluating
    the name gives. *)
Definition jacrev : result ((list R -> list R) -> list R -> ndarray) :=
  Raise NameError.

Definition jit : result ((list R -> ndarray) -> list R -> ndarray) :=
  Raise NameError.

(** [np.ceil(N / k).astype(int)] for [k > 0] *)
Definition ceil_div (N k : nat) : nat :=
  (N / k + (if Nat.eqb (N mod k) 0 then 0 else 1))%nat.

(** [np.vstack(blocks)] *)
Definition vstack (blocks : list ndarray) : result ndarray :=
  match blocks with
  | [] => Raise ValueError
  | b :: _ =>
      if forallb (fun a => Nat.eqb (ncols a) (ncols b)) blocks
      then Ok (Mat (ncols b) (concat (map rows_of blocks)))
      else Raise ValueError
  end.

Record t : Type := mk {
  fn : list R -> list R;
  N : nat;
  M : nat;
  block_size : nat;
  num_blocks : nat;
  usejit : bool;
  f_blocks : list (list R -> list R);
  jac_blocks : list (list R -> ndarray)
}.

(** [lambda x, *args, i=i: self.fun(x, *args)[i*self.block_size:(i+1)*self.block_size]] *)
Definition f_block (fn : list R -> list R) (block_size i : nat) : list R -> list R :=
  fun x => slice (i * block_size) ((i + 1) * block_size) (fn x).

(** What one pass of [for i in range(self.num_blocks)] appends to
    [self.jac_blocks]: [jit(jacrev(self.f_blocks[i]), device=...)] with
    [usejit], [jacrev(self.f_blocks[i])] without. *)
Definition jac_block (f : list R -> list R) (usejit : bool)
    : result (list R -> ndarray) :=
  if usejit then
    jit' <- jit ;;
    jacrev' <- jacrev ;;
    Ok (jit' (jacrev' f))
  else
    jacrev' <- jacrev ;;
    Ok (jacrev' f).

(** The loop [for i in range(self.num_blocks)]; an exception leaves
    [__init__] without an object. *)
Definition build_blocks (fn : list R -> list R) (N M block_size num_blocks : nat)
    (usejit : bool) : result t :=
  let fs := map (f_block fn block_size) (seq 0 num_blocks) in
  jacs <- mapM (fun f => jac_block f usejit) fs ;;
  Ok (mk fn N M block_size num_blocks usejit fs jacs).

(** [__init__(self, fun, N, M, block_size=None, num_blocks=None, devices=None,
    usejit=False)] *)
Definition init (fn : list R -> list R) (N M : nat) (block_size num_blocks : option nat)
    (usejit : bool) : result t :=
  match block_size, num_blocks with
  | Some _, Some _ => Raise ValueError
  | None, None => build_blocks fn N M N 1 usejit
  | Some bs, None =>
      if Nat.eqb bs 0 then Raise ZeroDivisionError
      else build_blocks fn N M bs (ceil_div N bs) usejit
  | None, Some k =>
      if Nat.eqb k 0 then Raise ZeroDivisionError
      else build_blocks fn N M (ceil_div N k) k usejit
  end.

(** [compute(self, x, *args)] *)
Definition compute (self : t) (x : list R) : result ndarray :=
  vstack (map (fun jac => jac x) (jac_blocks self)).

End BlockJacobian.

End Derivatives.

(** ** Python dictionaries with string keys *)

Definition dict (V : Type) : Type := list (string * V).

Fixpoint lookup {V : Type} (d : dict V) (k : string) : option V :=
  match d with
  | [] => None
  | (k', v) :: d' => if String.eqb k k' then Some v else lookup d' k
  end.

(** [d[k]] *)
Definition getitem {V : Type} (d : dict V) (k : string) : result V :=
  match lookup d k with
  | Some v => Ok v
  | None => Raise KeyError
  end.

(** [d[k] = v]: the newest binding of a key is the one [lookup] finds. *)
Definition setitem {V : Type} (d : dict V) (k : string) (v : V) : dict V :=
  (k, v) :: d.

(** [x in l] for a list of strings *)
Definition str_in (x : string) (l : list string) : bool := existsb (String.eqb x) l.

(** [l.index(x)] *)
Fixpoint str_index (l : list string) (x : string) : result nat :=
  match l with
  | [] => Raise ValueError
  | y :: l' => if String.eqb x y then Ok O else i <- str_index l' x ;; Ok (S i)
  end.

(** ** The collaborators of the objectives

    Modelled from the spec: [Equilibrium], [Surface], [Basis] and [Profile]
    are not among the sources; these records hold the attributes the
    objectives read from them. *)

Definition mode : Type := (Z * Z * Z)%type.

Module Basis.
Record t : Type := mk { modes : list mode; num_modes : nat }.
End Basis.

Module Surface.
Record t : Type := mk {
  L : Z;
  M : Z;
  N : Z;
  R_basis : Basis.t;
  Z_basis : Basis.t;
  R_lmn : list R;
  Z_lmn : list R
}.
End Surface.

Module Profile.
Record t : Type := mk { params : list R }.
End Profile.

Module Equilibrium.
Record t : Type := mk {
  R_basis : Basis.t;
  Z_basis : Basis.t;
  L_basis : Basis.t;
  surface : Surface.t;
  pressure : Profile.t;
  iota : Profile.t;
  Psi : R
}.
End Equilibrium.

(** ** desc/objectives/objective_funs.py *)

Module ObjectiveFuns.
Import Np.

(** Modelled from the spec: [desc.compute.arg_order] is not among the
    sources.  The spec calls it the fixed canonical argument ordering; its
    entries are the eight state-vector names that [_set_dimensions] and
    [_set_derivatives] spell out, in the order they are written there. *)
Definition arg_order : list string :=
  ["R_lmn"; "Z_lmn"; "L_lmn"; "Rb_lmn"; "Zb_lmn"; "p_l"; "i_l"; "Psi"]%string.

(** Keyword arguments of a [compute] method: arrays by name. *)
Definition kwargs : Type := dict ndarray.

(** Modelled from the spec: the [Derivative] class that objective_funs.py
    constructs (with [use_jit], [block_size] and [shape] keywords) is not the
    class of derivatives.py and is not among the sources.  A handle records
    the arguments it was constructed with; what [compute] returns is a
    parameter ([Derivative_compute] below). *)
Record Derivative : Type := mkDerivative {
  d_fun : list ndarray -> result ndarray;
  d_argnum : nat;
  d_mode : string;
  d_use_jit : bool;
  d_shape : nat * nat
}.

(** A value of the [derivatives] dictionary: a handle, or a constant array. *)
Inductive entry : Type :=
| Handle (d : Derivative)
| Array (a : ndarray).

(** *** class _Objective

    [ext] holds the attributes a subclass adds.  [_target] may hold [None]
    (the default [target=None] becomes [array([None])]). *)
Record _Objective {Ext : Type} : Type := mk {
  _target : list (option R);
  _weight : list R;
  _built : bool;
  _dim_f : nat;
  _dimensions : dict nat;
  _derivatives : dict entry;
  _scalar_derivatives : dict entry;
  _args : list string;
  ext : Ext
}.
Arguments _Objective Ext : clear implicits.
Arguments mk {Ext}.

Section Attributes.
Context {Ext : Type}.
Implicit Types self : _Objective Ext.

Definition with_target self (v : list (option R)) : _Objective Ext :=
  mk v (_weight self) (_built self) (_dim_f self) (_dimensions self)
     (_derivatives self) (_scalar_derivatives self) (_args self) (ext self).

Definition with_weight self (v : list R) : _Objective Ext :=
  mk (_target self) v (_built self) (_dim_f self) (_dimensions self)
     (_derivatives self) (_scalar_derivatives self) (_args self) (ext self).

Definition with_built self (v : bool) : _Objective Ext :=
  mk (_target self) (_weight self) v (_dim_f self) (_dimensions self)
     (_derivatives self) (_scalar_derivatives self) (_args self) (ext self).

Definition with_dim_f self (v : nat) : _Objective Ext :=
  mk (_target self) (_weight self) (_built self) v (_dimensions self)
     (_derivatives self) (_scalar_derivatives self) (_args self) (ext self).

Definition with_dimensions self (v : dict nat) : _Objective Ext :=
  mk (_target self) (_weight self) (_built self) (_dim_f self) v
     (_derivatives self) (_scalar_derivatives self) (_args self) (ext self).

Definition with_derivatives self (v w : dict entry) : _Objective Ext :=
  mk (_target self) (_weight self) (_built self) (_dim_f self) (_dimensions self)
     v w (_args self) (ext self).

Definition with_args self (v : list string) : _Objective Ext :=
  mk (_target self) (_weight self) (_built self) (_dim_f self) (_dimensions self)
     (_derivatives self) (_scalar_derivatives self) v (ext self).

Definition with_ext self (v : Ext) : _Objective Ext :=
  mk (_target self) (_weight self) (_built self) (_dim_f self) (_dimensions self)
     (_derivatives self) (_scalar_derivatives self) (_args self) v.

(** [__init__(self, eq=None, target=0, weight=1)] with [eq=None]; [target]
    and [weight] are given as [np.atleast_1d] makes them. *)
Definition init (target : list (option R)) (weight : list R) (e : Ext) : _Objective Ext :=
  mk target weight false O [] [] [] [] e.

(** [_set_dimensions(self, eq)] *)
Definition _set_dimensions self (eq : Equilibrium.t) : _Objective Ext :=
  let d := [] in
  let d := setitem d "R_lmn" (Basis.num_modes (Equilibrium.R_basis eq)) in
  let d := setitem d "Z_lmn" (Basis.num_modes (Equilibrium.Z_basis eq)) in
  let d := setitem d "L_lmn" (Basis.num_modes (Equilibrium.L_basis eq)) in
  let d := setitem d "Rb_lmn"
             (Basis.num_modes (Surface.R_basis (Equilibrium.surface eq))) in
  let d := setitem d "Zb_lmn"
             (Basis.num_modes (Surface.Z_basis (Equilibrium.surface eq))) in
  let d := setitem d "p_l" (length (Profile.params (Equilibrium.pressure eq))) in
  let d := setitem d "i_l" (length (Profile.params (Equilibrium.iota eq))) in
  let d := setitem d "Psi" 1%nat in
  with_dimensions self d.

Definition option_R_eq_dec (a b : option R) : {a = b} + {a <> b}.
Proof. decide equality. apply Req_dec_T. Defined.

Definition is_None (a : option R) : bool :=
  match a with None => true | Some _ => false end.

(** [np.unique(a).size] for an array that may hold [None]: sorting an object
    array of two or more entries with a [None] among them raises. *)
Definition unique_size (a : list (option R)) : result nat :=
  if existsb is_None a && (2 <=? length a)%nat then Raise TypeError
  else Ok (length (nodup option_R_eq_dec a)).

(** [_check_dimensions(self)] *)
Definition _check_dimensions self : result (_Objective Ext) :=
  ut <- unique_size (_target self) ;;
  let self :=
    if Nat.eqb ut 1
    then with_target self (repeat (hd None (_target self)) (_dim_f self))
    else self in
  let self :=
    if Nat.eqb (length (nodup Req_dec_T (_weight self))) 1
    then with_weight self (repeat (hd 0 (_weight self)) (_dim_f self))
    else self in
  if negb (Nat.eqb (length (_target self)) (_dim_f self)) then Raise ValueError
  else if negb (Nat.eqb (length (_weight self)) (_dim_f self)) then Raise ValueError
  else Ok self.

(** [@target.setter def target(self, target)] *)
Definition set_target self (target : list (option R)) : result (_Objective Ext) :=
  _check_dimensions (with_target self target).

(** [@weight.setter def weight(self, weight)] *)
Definition set_weight self (weight : list R) : result (_Objective Ext) :=
  _check_dimensions (with_weight self weight).

End Attributes.

(** The methods a subclass defines ([build], [compute], the properties) and
    [params], the names [getfullargspec(self.compute)[0][1:]] returns. *)
Record Class {Ext : Type} : Type := mkClass {
  build : Equilibrium.t -> bool -> _Objective Ext -> result (_Objective Ext);
  compute : _Objective Ext -> kwargs -> result ndarray;
  params : list string;
  linear : bool;
  scalar : bool;
  name : string;
  target_arg : string;
  update_target : Equilibrium.t -> _Objective Ext -> result (_Objective Ext)
}.
Arguments Class Ext : clear implicits.

(** [_Objective.compute_scalar(self, *args, **kwargs)] *)
Definition compute_scalar {Ext : Type}
    (compute : _Objective Ext -> kwargs -> result ndarray)
    (self : _Objective Ext) (kw : kwargs) : result ndarray :=
  r <- compute self kw ;;
  Ok (Scalar (sum (square r))).

(** A method called with positional arguments: they are bound to the
    method's parameter names in order. *)
Definition positional {Ext : Type}
    (method : _Objective Ext -> kwargs -> result ndarray)
    (self : _Objective Ext) (names : list string) (args : list ndarray)
    : result ndarray :=
  method self (combine names args).

Fixpoint foldM {A B : Type} (f : B -> A -> result B) (l : list A) (b : B) : result B :=
  match l with
  | [] => Ok b
  | a :: l' => b' <- f b a ;; foldM f l' b'
  end.

Section Engine.

(** What [Derivative.compute( *args)] returns for a handle. *)
Variable Derivative_compute : Derivative -> list ndarray -> result ndarray.

Context {Ext : Type}.

(** The body of [for arg in arg_order] in [_set_derivatives]; [acc] is the
    pair [(self._derivatives, self._scalar_derivatives)]. *)
Definition set_derivative
    (compute : _Objective Ext -> kwargs -> result ndarray) (linear use_jit : bool)
    (self : _Objective Ext) (args : list ndarray)
    (acc : dict entry * dict entry) (arg : string) : result (dict entry * dict entry) :=
  if str_in arg (_args self) then
    i <- str_index (_args self) arg ;;
    n <- getitem (_dimensions self) arg ;;
    let d := mkDerivative (positional compute self (_args self)) i "fwd" use_jit
               (_dim_f self, n) in
    let ds := mkDerivative (positional (compute_scalar compute) self (_args self)) i
                "fwd" use_jit (_dim_f self, n) in
    if linear then
      a <- Derivative_compute d args ;;
      b <- Derivative_compute ds args ;;
      Ok (setitem (fst acc) arg (Array a), setitem (snd acc) arg (Array b))
    else Ok (setitem (fst acc) arg (Handle d), setitem (snd acc) arg (Handle ds))
  else
    n <- getitem (_dimensions self) arg ;;
    Ok (setitem (fst acc) arg (Array (zeros (_dim_f self) n)),
        setitem (snd acc) arg (Array (zeros 1 n))).

(** [_set_derivatives(self, use_jit)]; [jit] does not change what [compute]
    returns. *)
Definition _set_derivatives
    (compute : _Objective Ext -> kwargs -> result ndarray) (params : list string)
    (linear use_jit : bool) (self : _Objective Ext) : result (_Objective Ext) :=
  let self := with_derivatives self [] [] in
  let self := with_args self params in
  kw <- mapM (fun k => n <- getitem (_dimensions self) k ;; Ok (k, zeros1 n))
             arg_order ;;
  args <- mapM (getitem kw) (_args self) ;;
  acc <- foldM (set_derivative compute linear use_jit self args) arg_order ([], []) ;;
  Ok (with_derivatives self (fst acc) (snd acc)).

End Engine.

(** *** class ObjectiveFunction *)

(** An objective object: the attributes, and the methods of its class. *)
Record object : Type := mkObject {
  Ext : Type;
  cls : Class Ext;
  self : _Objective Ext
}.

Definition obj_build (o : object) (eq : Equilibrium.t) (use_jit : bool) : result object :=
  s <- build (cls o) eq use_jit (self o) ;;
  Ok (mkObject (Ext o) (cls o) s).

Definition obj_compute (o : object) (kw : kwargs) : result ndarray :=
  compute (cls o) (self o) kw.

Definition obj_dim_f (o : object) : nat := _dim_f (self o).

Record ObjectiveFunction : Type := mkOF {
  objectives : list object;
  constraints : list object;
  _use_jit : bool;
  OF_built : bool;
  _compiled : bool;
  _dim_c : nat;
  OF_dim_f : nat;
  _scalar : bool;
  OF_args : list string;
  OF_dimensions : dict nat;
  _b_idx : dict (list nat);
  _y_idx : dict (list nat);
  _dim_y : nat;
  _A : ndarray;
  _b : list R;
  _Ainv : ndarray;
  _y0 : ndarray;
  _Z : ndarray;
  _dim_x : nat
}.

(** [__init__(self, objectives, constraints=(), eq=None, use_jit=True)] with
    [eq=None]; the attributes that [build] assigns are not set yet and are
    given placeholder values. *)
Definition OF_init (objectives constraints : list object) (use_jit : bool)
    : ObjectiveFunction :=
  mkOF objectives constraints use_jit false false O O false [] [] [] [] O
       (Mat 0 [[]]) [] (Mat 0 [[]]) (Vec []) (Mat 0 [[]]) O.

(** [np.unique] on an array of strings: sorted, without repeats. *)
Fixpoint insert_str (x : string) (l : list string) : list string :=
  match l with
  | [] => [x]
  | y :: l' =>
      if String.eqb x y then l
      else if String.ltb x y then x :: l
      else y :: insert_str x l'
  end.

Definition unique_str (l : list string) : list string := fold_right insert_str [] l.

(** [np.concatenate(ls)] for 1-D arrays *)
Definition concatenate {A : Type} (ls : list (list A)) : result (list A) :=
  match ls with
  | [] => Raise ValueError
  | _ => Ok (concat ls)
  end.

(** The inner loop of the [_b_idx] computation for one [arg]: the rows of
    the constraints whose [target_arg] is [arg]. *)
Fixpoint b_indices (arg : string) (cs : list object) (idx : nat) : list nat :=
  match cs with
  | [] => []
  | obj :: cs' =>
      (if String.eqb arg (target_arg (cls obj)) then seq idx (obj_dim_f obj) else [])
      ++ b_indices arg cs' (idx + obj_dim_f obj)
  end.

(** The loop that fills [_y_idx]; returns the dictionary and the final [idx]. *)
Fixpoint y_indices (args : list string) (dims : dict nat) (order : list string)
    (idx : nat) : result (dict (list nat) * nat) :=
  match order with
  | [] => Ok ([], idx)
  | arg :: order' =>
      if str_in arg args then
        n <- getitem dims arg ;;
        r <- y_indices args dims order' (idx + n) ;;
        Ok (setitem (fst r) arg (seq idx n), snd r)
      else
        r <- y_indices args dims order' idx ;;
        Ok (setitem (fst r) arg [], snd r)
  end.

Definition with_state_vector (s : ObjectiveFunction) (args : list string)
    (dims : dict nat) (b_idx y_idx : dict (list nat)) (dim_y : nat) : ObjectiveFunction :=
  mkOF (objectives s) (constraints s) (_use_jit s) (OF_built s) (_compiled s)
       (_dim_c s) (OF_dim_f s) (_scalar s) args dims b_idx y_idx dim_y
       (_A s) (_b s) (_Ainv s) (_y0 s) (_Z s) (_dim_x s).

(** [_set_state_vector(self)] *)
Definition _set_state_vector (s : ObjectiveFunction) : result ObjectiveFunction :=
  args <- concatenate (map (fun o => _args (self o)) (objectives s)) ;;
  args <- (match constraints s with
           | [] => Ok args
           | _ => cargs <- concatenate (map (fun o => _args (self o)) (constraints s)) ;;
                  Ok (args ++ cargs)
           end) ;;
  let args := unique_str args in
  dims <- (match objectives s with
           | o :: _ => Ok (_dimensions (self o))
           | [] => Raise IndexError
           end) ;;
  let b_idx := map (fun arg => (arg, b_indices arg (constraints s) 0)) arg_order in
  r <- y_indices args dims arg_order 0 ;;
  Ok (with_state_vector s args dims b_idx (fst r) (snd r)).

(** [np.hstack((A, a))] and [np.vstack((A, a))] for 2-D arrays *)
Definition hstack2 (A a : ndarray) : result ndarray :=
  if Nat.eqb (nrows A) (nrows a)
  then Ok (Mat (ncols A + ncols a) (zip_with (@app R) (rows_of A) (rows_of a)))
  else Raise ValueError.

Definition vstack2 (A a : ndarray) : result ndarray :=
  if Nat.eqb (ncols A) (ncols a)
  then Ok (Mat (ncols A) (rows_of A ++ rows_of a))
  else Raise ValueError.

(** [np.array([[]])] *)
Definition empty2 : ndarray := Mat 0 [[]].

(** An entry of [obj.derivatives] used as an array; a handle is not one. *)
Definition as_array (e : entry) : result ndarray :=
  match e with
  | Array a => Ok a
  | Handle _ => Raise TypeError
  end.

(** The inner loop [for arg in arg_order] of [_build_linear_constraints]. *)
Definition constraint_rows (args : list string) (obj : object) : result ndarray :=
  foldM (fun A arg =>
           if str_in arg args then
             e <- getitem (_derivatives (self obj)) arg ;;
             a <- as_array e ;;
             let a := atleast_2d a in
             if Nat.eqb (size A) 0 then Ok a else hstack2 A a
           else Ok A)
        arg_order empty2.

(** A target used as a float array. *)
Definition floats (t : list (option R)) : result (list R) :=
  mapM (fun x => match x with Some v => Ok v | None => Raise TypeError end) t.

(** The loop [for obj in self.constraints]: the pair [(self._A, self._b)]. *)
Definition assemble (args : list string) (cs : list object) : result (ndarray * list R) :=
  foldM (fun Ab obj =>
           A <- constraint_rows args obj ;;
           b <- floats (_target (self obj)) ;;
           A' <- (if Nat.eqb (size (fst Ab)) 0 then Ok A else vstack2 (fst Ab) A) ;;
           Ok (A', if Nat.eqb (length (snd Ab)) 0 then b else snd Ab ++ b))
        cs (empty2, []).

(** [np.finfo(np.float64).eps] *)
Definition eps : R := / 2 ^ 52.

(** [x > y] on floats *)
Definition Rgtb (x y : R) : bool := if Rlt_dec y x then true else false.

(** [np.amax(s)] *)
Definition amax (s : list R) : result R :=
  match s with
  | [] => Raise ValueError
  | a :: s' => Ok (fold_left Rmax s' a)
  end.

(** [u[:, :K]], [vh[:K, :]] and [vh[num:, :]] *)
Definition cols_to (K : nat) (u : ndarray) : ndarray :=
  Mat (Nat.min K (ncols u)) (map (firstn K) (rows_of u)).

Definition rows_to (K : nat) (vh : ndarray) : ndarray :=
  Mat (ncols vh) (firstn K (rows_of vh)).

Definition rows_from (num : nat) (vh : ndarray) : ndarray :=
  Mat (ncols vh) (skipn num (rows_of vh)).

(** [s[..., np.newaxis]] *)
Definition column_vector (s : list R) : ndarray := Mat 1 (map (fun x => [x]) s).

Definition with_linear (s : ObjectiveFunction) (A : ndarray) (b : list R)
    (Ainv y0 Z : ndarray) (dim_x : nat) : ObjectiveFunction :=
  mkOF (objectives s) (constraints s) (_use_jit s) (OF_built s) (_compiled s)
       (_dim_c s) (OF_dim_f s) (_scalar s) (OF_args s) (OF_dimensions s)
       (_b_idx s) (_y_idx s) (_dim_y s) A b Ainv y0 Z dim_x.

Section Svd.

(** [np.linalg.svd(A, full_matrices=True)]: the triple [(u, s, vh)]. *)
Variable svd : ndarray -> ndarray * list R * ndarray.

(** The pseudoinverse, the particular solution and the null space, from the
    factors of [A] (the branch [if self.constraints:]). *)
Definition eliminate (u : ndarray) (s : list R) (vh : ndarray) (b : list R)
    : result (ndarray * ndarray * ndarray) :=
  let M := nrows u in
  let N := ncols vh in
  let K := Nat.min M N in
  let rcond := eps * INR (Nat.max M N) in
  smax <- amax s ;;
  let tol := smax * rcond in
  let large := map (fun sk => Rgtb sk tol) s in
  let num := count_occ bool_dec large true in
  let uk := cols_to K u in
  let vhk := rows_to K vh in
  let s := zip_with (fun sk (l : bool) => if l then 1 / sk else 0) s large in
  scaled <- mul (column_vector s) (transpose uk) ;;
  Ainv <- dot (transpose vhk) scaled ;;
  y0 <- dot Ainv (Vec b) ;;
  Ok (Ainv, y0, transpose (rows_from num vh)).

(** [_build_linear_constraints(self)] *)
Definition _build_linear_constraints (s : ObjectiveFunction) : result ObjectiveFunction :=
  Ab <- assemble (OF_args s) (constraints s) ;;
  let A := fst Ab in
  let b := snd Ab in
  let '(u, sv, vh) := svd A in
  match constraints s with
  | _ :: _ =>
      r <- eliminate u sv vh b ;;
      let '(Ainv, y0, Z) := r in
      Ok (with_linear s A b Ainv y0 Z (ncols Z))
  | [] =>
      Ok (with_linear s A b empty2 (zeros1 (_dim_y s)) (eye (_dim_y s) (_dim_y s))
            (_dim_y s))
  end.

(** The two loops of [build] that build the constraints and the objectives;
    [acc] is the tuple rebuilt so far and the running dimension. *)
Definition build_all (eq : Equilibrium.t) (use_jit check_linear : bool)
    (os : list object) : result (list object * nat) :=
  foldM (fun acc o =>
           if check_linear && negb (linear (cls o)) then Raise NotImplementedError
           else
             o' <- obj_build o eq use_jit ;;
             Ok (fst acc ++ [o'], (snd acc + obj_dim_f o')%nat))
        os ([], O).

(** [build(self, eq, use_jit)].  The derivative handles of
    [ObjectiveFunction._set_derivatives] are not kept: no method below reads
    them. *)
Definition OF_build (s : ObjectiveFunction) (eq : Equilibrium.t) (use_jit : bool)
    : result ObjectiveFunction :=
  cs <- build_all eq use_jit true (constraints s) ;;
  os <- build_all eq use_jit false (objectives s) ;;
  let s := mkOF (fst os) (fst cs) use_jit (OF_built s) (_compiled s)
             (snd cs) (snd os) (Nat.eqb (snd os) 1) (OF_args s) (OF_dimensions s)
             (_b_idx s) (_y_idx s) (_dim_y s) (_A s) (_b s) (_Ainv s) (_y0 s)
             (_Z s) (_dim_x s) in
  s <- _set_state_vector s ;;
  s <- _build_linear_constraints s ;;
  Ok (mkOF (objectives s) (constraints s) (_use_jit s) true (_compiled s)
        (_dim_c s) (OF_dim_f s) (_scalar s) (OF_args s) (OF_dimensions s)
        (_b_idx s) (_y_idx s) (_dim_y s) (_A s) (_b s) (_Ainv s) (_y0 s)
        (_Z s) (_dim_x s)).

End Svd.

(** The properties that refuse to answer before [build]. *)
Definition guarded {A : Type} (s : ObjectiveFunction) (v : A) : result A :=
  if OF_built s then Ok v else Raise RuntimeError.

Definition y0 (s : ObjectiveFunction) : result ndarray := guarded s (_y0 s).
Definition Z (s : ObjectiveFunction) : result ndarray := guarded s (_Z s).
Definition A (s : ObjectiveFunction) : result ndarray := guarded s (_A s).
Definition b (s : ObjectiveFunction) : result ndarray := guarded s (Vec (_b s)).
Definition dim_x (s : ObjectiveFunction) : result nat := guarded s (_dim_x s).
Definition dim_y (s : ObjectiveFunction) : result nat := guarded s (_dim_y s).

(** [y0 if y0 is not None else self.y0] *)
Definition default_y0 (s : ObjectiveFunction) (y0' : option ndarray) : result ndarray :=
  match y0' with
  | Some v => Ok v
  | None => y0 s
  end.

(** [project(self, y, y0=None)] *)
Definition project (s : ObjectiveFunction) (y : ndarray) (y0' : option ndarray)
    : result ndarray :=
  if negb (OF_built s) then Raise RuntimeError
  else
    y0 <- default_y0 s y0' ;;
    dy <- sub y y0 ;;
    Zm <- Z s ;;
    x <- dot (transpose Zm) dy ;;
    Ok (squeeze x).

(** [recover(self, x, y0=None)] *)
Definition recover (s : ObjectiveFunction) (x : ndarray) (y0' : option ndarray)
    : result ndarray :=
  if negb (OF_built s) then Raise RuntimeError
  else
    y0 <- default_y0 s y0' ;;
    Zm <- Z s ;;
    Zx <- dot Zm x ;;
    y <- add y0 Zx ;;
    Ok (squeeze y).

(** [make_feasible(self, y, y0=None)] *)
Definition make_feasible (s : ObjectiveFunction) (y : ndarray) (y0' : option ndarray)
    : result ndarray :=
  y0 <- default_y0 s y0' ;;
  x <- project s y (Some y0) ;;
  Zm <- Z s ;;
  Zx <- dot Zm x ;;
  add y0 Zx.

(** [y[idx]] for an integer index array *)
Definition index (y : ndarray) (idx : list nat) : result ndarray :=
  match y with
  | Scalar _ => Raise IndexError
  | Vec v => r <- take v idx ;; Ok (Vec r)
  | Mat c rows => r <- take rows idx ;; Ok (Mat c r)
  end.

(** [unpack_state(self, x, y0=None)] *)
Definition unpack_state (s : ObjectiveFunction) (x : ndarray) (y0' : option ndarray)
    : result kwargs :=
  if negb (OF_built s) then Raise RuntimeError
  else
    let x := atleast_1d x in
    y <- (if Nat.eqb (size x) (_dim_x s) then recover s x y0'
          else if Nat.eqb (size x) (_dim_y s) then Ok x
          else Raise ValueError) ;;
    mapM (fun arg => idx <- getitem (_y_idx s) arg ;;
                     v <- index y idx ;;
                     Ok (arg, v))
         (OF_args s).

(** [jnp.concatenate(arrays)] along the first axis *)
Definition concatenate_nd (arrays : list ndarray) : result ndarray :=
  match arrays with
  | [] => Raise ValueError
  | a :: _ =>
      if forallb (fun x => Nat.eqb (ndim x) 1) arrays
      then Ok (Vec (concat (map flatten arrays)))
      else if forallb (fun x => Nat.eqb (ndim x) 2 && Nat.eqb (ncols x) (ncols a)) arrays
      then Ok (Mat (ncols a) (concat (map rows_of arrays)))
      else Raise ValueError
  end.

(** [ObjectiveFunction.compute(self, x, y0=None)] *)
Definition OF_compute (s : ObjectiveFunction) (x : ndarray) (y0' : option ndarray)
    : result ndarray :=
  kw <- unpack_state s x y0' ;;
  fs <- mapM (fun o => obj_compute o kw) (objectives s) ;;
  concatenate_nd fs.

(** [ObjectiveFunction.compute_scalar(self, x, y0=None)] *)
Definition OF_compute_scalar (s : ObjectiveFunction) (x : ndarray) (y0' : option ndarray)
    : result ndarray :=
  r <- OF_compute s x y0' ;;
  Ok (Scalar (sum (square r) / 2)).

End ObjectiveFuns.

(** ** desc/objectives/linear_objectives.py *)

Module LinearObjectives.
Import Np ObjectiveFuns.

(** The [modes] argument: [False], [None], [True], or an array of
    [[l, m, n]] rows. *)
Inductive modes_arg : Type :=
| ModesFalse
| ModesNone
| ModesTrue
| ModesArray (ms : list mode).

Definition mode_eqb (a b : mode) : bool :=
  let '(a1, a2, a3) := a in
  let '(b1, b2, b3) := b in
  (a1 =? b1)%Z && (a2 =? b2)%Z && (a3 =? b3)%Z.

(** The order of a structured array with fields [f0], [f1], [f2]. *)
Definition mode_ltb (a b : mode) : bool :=
  let '(a1, a2, a3) := a in
  let '(b1, b2, b3) := b in
  (a1 <? b1)%Z
  || ((a1 =? b1)%Z && ((a2 <? b2)%Z || ((a2 =? b2)%Z && (a3 <? b3)%Z))).

Fixpoint insert_mode (x : mode) (l : list mode) : list mode :=
  match l with
  | [] => [x]
  | y :: l' =>
      if mode_eqb x y then l
      else if mode_ltb x y then x :: l
      else y :: insert_mode x l'
  end.

Definition unique_modes (l : list mode) : list mode := fold_right insert_mode [] l.

(** The first position of [x] in [l]. *)
Fixpoint first_index (x : mode) (l : list mode) : nat :=
  match l with
  | [] => O
  | y :: l' => if mode_eqb x y then O else S (first_index x l')
  end.

(** [_, i1, i2 = np.intersect1d(ar1, ar2, return_indices=True)]: for each
    common value, in sorted order, its first position in either array. *)
Definition intersect1d (ar1 ar2 : list mode) : list nat * list nat :=
  let common := filter (fun x => existsb (mode_eqb x) ar2) (unique_modes ar1) in
  (map (fun x => first_index x ar1) common, map (fun x => first_index x ar2) common).

Definition same_resolution (a b : Surface.t) : bool :=
  (Surface.L a =? Surface.L b)%Z && (Surface.M a =? Surface.M b)%Z
  && (Surface.N a =? Surface.N b)%Z.

(** *** class FixedBoundaryZ *)
Module FixedBoundaryZ.

Record extra : Type := mkExt {
  surface : option Surface.t;
  modes : modes_arg;
  _idx : list nat
}.

Definition t : Type := _Objective extra.

(** [__init__(self, eq=None, target=None, weight=1, surface=None, modes=True)]
    with [eq=None]. *)
Definition init (target : list (option R)) (weight : list R)
    (surface : option Surface.t) (modes : modes_arg) : t :=
  ObjectiveFuns.init target weight (mkExt surface modes []).

(** [_compute(self, Zb_lmn)] *)
Definition _compute (self : t) (Zb_lmn : ndarray) : result ndarray :=
  Zb <- index Zb_lmn (_idx (ext self)) ;;
  target <- floats (_target self) ;;
  sub Zb (Vec target).

(** [compute(self, Zb_lmn, **kwargs)] *)
Definition compute (self : t) (kw : kwargs) : result ndarray :=
  match lookup kw "Zb_lmn" with
  | None => Raise TypeError
  | Some Zb_lmn =>
      Zb <- _compute self Zb_lmn ;;
      mul Zb (Vec (_weight self))
  end.

Definition params : list string := ["Zb_lmn"%string].

(** The surface [build] keeps in [self.surface]. *)
Definition chosen_surface (self : t) (eq : Equilibrium.t) : Surface.t :=
  match surface (ext self) with
  | None => Equilibrium.surface eq
  | Some sf =>
      if negb (same_resolution sf (Equilibrium.surface eq))
      then Equilibrium.surface eq
      else sf
  end.

(** The branch on [self.modes]: [(modes.shape[0], self._idx, idx)]. *)
Definition fixed_modes (m : modes_arg) (sf : Surface.t) : nat * list nat * list nat :=
  match m with
  | ModesFalse | ModesNone => (1%nat, [], [])
  | ModesTrue =>
      let idx := seq 0 (Basis.num_modes (Surface.Z_basis sf)) in
      (length (Basis.modes (Surface.Z_basis sf)), idx, idx)
  | ModesArray ms =>
      let '(i1, i2) := intersect1d (Basis.modes (Surface.Z_basis sf)) ms in
      (Nat.max 1 (length ms), i1, i2)
  end.

(** The three tests of [build] that settle [self.target] and [self.weight],
    after [self._dim_f] is set. *)
Definition settle_target (self : t) (sf : Surface.t) (nmodes : nat) (idx : list nat)
    : result t :=
  self <- (if Nat.eqb (length (_target self)) nmodes
           then w <- take (_weight self) idx ;; set_target self (map Some w)
           else Ok self) ;;
  self <- (if Nat.eqb (length (_weight self)) nmodes
           then w <- take (_weight self) idx ;; set_weight self w
           else Ok self) ;;
  if existsb is_None (_target self)
     || negb (Nat.eqb (length (_target self)) (_dim_f self))
  then r <- take (Surface.R_lmn sf) (_idx (ext self)) ;; set_target self (map Some r)
  else Ok self.

Section Engine.

Variable Derivative_compute : Derivative -> list ndarray -> result ndarray.

(** [build(self, eq, use_jit=True, verbose=1)] *)
Definition build (eq : Equilibrium.t) (use_jit : bool) (self : t) : result t :=
  let sf := chosen_surface self eq in
  let '(nmodes, i1, idx) := fixed_modes (modes (ext self)) sf in
  let self := with_ext self (mkExt (Some sf) (modes (ext self)) i1) in
  let self := with_dim_f self (length i1) in
  self <- settle_target self sf nmodes idx ;;
  self <- _check_dimensions self ;;
  let self := _set_dimensions self eq in
  self <- _set_derivatives Derivative_compute compute params true use_jit self ;;
  Ok (with_built self true).

(** [update_target(self, eq)] *)
Definition update_target (eq : Equilibrium.t) (self : t) : result t :=
  r <- take (Surface.Z_lmn (Equilibrium.surface eq)) (_idx (ext self)) ;;
  set_target self (map Some r).

Definition class : Class extra :=
  mkClass extra build compute params true false "fixed-boundary Z" "" update_target.

End Engine.

End FixedBoundaryZ.

(** *** class FixedPsi *)
Module FixedPsi.

Definition t : Type := _Objective unit.

(** [__init__(self, eq=None, target=None, weight=1)] with [eq=None]. *)
Definition init (target : list (option R)) (weight : list R) : t :=
  ObjectiveFuns.init target weight tt.

(** [_compute(self, Psi)] *)
Definition _compute (self : t) (Psi : ndarray) : result ndarray :=
  target <- floats (_target self) ;;
  sub Psi (Vec target).

(** [compute(self, Psi, **kwargs)] *)
Definition compute (self : t) (kw : kwargs) : result ndarray :=
  match lookup kw "Psi" with
  | None => Raise TypeError
  | Some Psi =>
      f <- _compute self Psi ;;
      mul f (Vec (_weight self))
  end.

Definition params : list string := ["Psi"%string].

Section Engine.

Variable Derivative_compute : Derivative -> list ndarray -> result ndarray.

(** [build(self, eq, use_jit=True, verbose=1)] *)
Definition build (eq : Equilibrium.t) (use_jit : bool) (self : t) : result t :=
  let self := with_dim_f self 1 in
  self <- (if existsb is_None (_target self)
           then set_target self [Some (Equilibrium.Psi eq)]
           else Ok self) ;;
  self <- _check_dimensions self ;;
  let self := _set_dimensions self eq in
  self <- _set_derivatives Derivative_compute compute params true use_jit self ;;
  Ok (with_built self true).

(** [update_target(self, eq)] *)
Definition update_target (eq : Equilibrium.t) (self : t) : result t :=
  set_target self [Some (Equilibrium.Psi eq)].

Definition class : Class unit :=
  mkClass unit build compute params true true "fixed-Psi" "" update_target.

End Engine.

End FixedPsi.

End LinearObjectives.

(** * Properties *)

(** ** Construction-time validation of the differentiation mode *)

Section Modes.
Import Derivatives.

Lemma mode_in_In (m : string) (l : list string) : mode_in m l = true <-> In m l.
Proof.
  unfold mode_in. rewrite existsb_exists. split.
  - intros [y [Hy He]]. apply String.eqb_eq in He. now subst.
  - intros H. exists m. split; [assumption | apply String.eqb_refl].
Qed.

Lemma mode_in_false (m : string) (l : list string) :
  ~ In m l -> mode_in m l = false.
Proof.
  intros H. destruct (mode_in m l) eqn:E; [|reflexivity].
  apply mode_in_In in E. contradiction.
Qed.

(** What a successful [AutoDiffDerivative.set_mode] leaves in the object. *)
Lemma AD_set_mode_ok (Fn : Type) (d d' : AutoDiffDerivative.t Fn) (mode : string) :
  AutoDiffDerivative.set_mode d mode = Ok d' ->
  In mode recognized_modes
  /\ AutoDiffDerivative._mode d' = Some mode
  /\ exists c, AutoDiffDerivative._compute d' = Some c.
Proof.
  unfold AutoDiffDerivative.set_mode.
  destruct (mode_in mode recognized_modes) eqn:E; simpl; [|discriminate].
  apply mode_in_In in E. intros H. split; [assumption|].
  simpl in E.
  destruct E as [E|[E|[E|[E|[E|[]]]]]]; subst mode; simpl in H;
    injection H as <-; simpl; eauto.
Qed.

Lemma FD_set_mode_ok (d d' : FiniteDiffDerivative.t) (mode : string) :
  FiniteDiffDerivative.set_mode d mode = Ok d' ->
  In mode recognized_modes
  /\ FiniteDiffDerivative._mode d' = Some mode
  /\ exists c, FiniteDiffDerivative._compute d' = Some c.
Proof.
  unfold FiniteDiffDerivative.set_mode.
  destruct (mode_in mode recognized_modes) eqn:E; simpl; [|discriminate].
  apply mode_in_In in E. intros H. split; [assumption|].
  simpl in E.
  destruct E as [E|[E|[E|[E|[E|[]]]]]]; subst mode; simpl in H;
    injection H as <-; simpl; eauto.
Qed.

(** C8. For both strategies, a mode outside ['fwd', 'rev', 'grad', 'hess',
    'jvp'] makes the constructor raise [ValueError] (the code's
    invalid-configuration error), so no object is created; every object a
    constructor does return has a recognized mode and a bound [_compute], so
    [compute] never fails for want of one; and assigning an unrecognized mode
    to an existing object raises as well. *)
Theorem invalid_mode_raises_at_construction :
  forall (Fn : Type) (fn : Fn) (fd_fn : list (list R) -> Np.ndarray)
         (argnum : nat) (rel_step : R) (mode : string),
    (~ In mode recognized_modes ->
       AutoDiffDerivative.init fn argnum mode = Raise ValueError
       /\ FiniteDiffDerivative.init fd_fn argnum mode rel_step = Raise ValueError)
    /\ (forall d, AutoDiffDerivative.init fn argnum mode = Ok d ->
          In mode recognized_modes
          /\ AutoDiffDerivative._mode d = Some mode
          /\ (exists c, AutoDiffDerivative.compute d = Ok c)
          /\ forall mode', ~ In mode' recognized_modes ->
               AutoDiffDerivative.set_mode d mode' = Raise ValueError)
    /\ (forall d, FiniteDiffDerivative.init fd_fn argnum mode rel_step = Ok d ->
          In mode recognized_modes
          /\ FiniteDiffDerivative._mode d = Some mode
          /\ (exists c, FiniteDiffDerivative._compute d = Some c)
          /\ forall mode', ~ In mode' recognized_modes ->
               FiniteDiffDerivative.set_mode d mode' = Raise ValueError).
Proof.
  intros Fn fn fd_fn argnum rel_step mode. split; [|split].
  - intros H. unfold AutoDiffDerivative.init, AutoDiffDerivative.set_mode,
      FiniteDiffDerivative.init, FiniteDiffDerivative.set_mode.
    rewrite (mode_in_false _ _ H). simpl. split; reflexivity.
  - intros d H. apply AD_set_mode_ok in H. destruct H as [Hin [Hm [c Hc]]].
    repeat split; try assumption.
    + exists c. unfold AutoDiffDerivative.compute. now rewrite Hc.
    + intros mode' H'. unfold AutoDiffDerivative.set_mode.
      now rewrite (mode_in_false _ _ H').
  - intros d H. apply FD_set_mode_ok in H. destruct H as [Hin [Hm Hc]].
    repeat split; try assumption.
    intros mode' H'. unfold FiniteDiffDerivative.set_mode.
    now rewrite (mode_in_false _ _ H').
Qed.

(** A misspelt mode, and the default one. *)
Example init_forward_raises :
  AutoDiffDerivative.init tt 0 "forward" = Raise ValueError
  /\ FiniteDiffDerivative.init (fun _ => Np.Scalar 0) 0 "forward" (/ 1000)
     = Raise ValueError.
Proof. split; reflexivity. Qed.

Example init_fwd_binds_compute :
  exists d, FiniteDiffDerivative.init (fun _ => Np.Scalar 0) 0 "fwd" (/ 1000) = Ok d
            /\ FiniteDiffDerivative._compute d
               = Some FiniteDiffDerivative.compute_grad_or_jac.
Proof. eexists. split; reflexivity. Qed.

End Modes.

(** ** Broyden updates *)

Section Broyden.
Import Np Derivatives Derivatives.BroydenJacobian.

Context {Extra : Type}.
Implicit Types s : BroydenJacobian.t Extra.

(** A call that returns hands back the Jacobian it leaves in the object. *)
Lemma compute_returns_stored_J s (x : list R) (args : Extra) (Jr : ndarray) :
  snd (compute s x args) = Ok Jr -> J (fst (compute s x args)) = Jr.
Proof.
  unfold compute.
  destruct (sub (Vec (x1 (advance s x))) (Vec (x0 (advance s x)))) as [dx|e];
    [|discriminate].
  destruct (Rlt_dec (norm dx) (minstep (advance s x))).
  - simpl. intros H. now inversion H.
  - destruct (updated_J (evaluate (advance s x) x args) dx (norm dx));
      [|discriminate].
    simpl. intros H. now inversion H.
Qed.

(** The skipped call: below [minstep] the object is only advanced. *)
Lemma compute_small_step s (x : list R) (args : Extra) (dx : ndarray) :
  sub (Vec x) (Vec (x1 s)) = Ok dx ->
  norm dx < minstep s ->
  compute s x args = (advance s x, Ok (J s)).
Proof.
  intros Hdx Hstep. unfold compute. simpl. rewrite Hdx.
  destruct (Rlt_dec (norm dx) (minstep s)); [reflexivity | contradiction].
Qed.

(** The call that follows a step of at least [minstep]. *)
Lemma compute_large_step s (x : list R) (args : Extra) (dx : ndarray) :
  sub (Vec x) (Vec (x1 s)) = Ok dx ->
  ~ norm dx < minstep s ->
  snd (compute s x args)
  = updated_J (evaluate (advance s x) x args) dx (norm dx).
Proof.
  intros Hdx Hstep. unfold compute. simpl. rewrite Hdx.
  destruct (Rlt_dec (norm dx) (minstep s)); [contradiction|].
  destruct (updated_J (evaluate (advance s x) x args) dx (norm dx)); reflexivity.
Qed.

(** Every call records its argument as [x1] and keeps [minstep]. *)
Lemma compute_x1 s (x : list R) (args : Extra) : x1 (fst (compute s x args)) = x.
Proof.
  unfold compute.
  destruct (sub (Vec (x1 (advance s x))) (Vec (x0 (advance s x)))) as [dx|e];
    [|reflexivity].
  destruct (Rlt_dec (norm dx) (minstep (advance s x))); [reflexivity|].
  destruct (updated_J (evaluate (advance s x) x args) dx (norm dx)); reflexivity.
Qed.

(** The bookkeeping after a call that is not skipped. *)
Lemma compute_large_step_state s (x : list R) (args : Extra) (dx : ndarray) :
  sub (Vec x) (Vec (x1 s)) = Ok dx ->
  ~ norm dx < minstep s ->
  x0 (fst (compute s x args)) = x1 s
  /\ f0 (fst (compute s x args)) = f1 s
  /\ f1 (fst (compute s x args)) = fn s x args
  /\ fn (fst (compute s x args)) = fn s
  /\ shape (fst (compute s x args)) = shape s
  /\ evals (fst (compute s x args)) = evals s ++ [x].
Proof.
  intros Hdx Hstep. unfold compute. simpl. rewrite Hdx.
  destruct (Rlt_dec (norm dx) (minstep s)); [contradiction|].
  destruct (updated_J (evaluate (advance s x) x args) dx (norm dx));
    repeat split; reflexivity.
Qed.

Lemma compute_minstep s (x : list R) (args : Extra) :
  minstep (fst (compute s x args)) = minstep s.
Proof.
  unfold compute.
  destruct (sub (Vec (x1 (advance s x))) (Vec (x0 (advance s x)))) as [dx|e];
    [|reflexivity].
  destruct (Rlt_dec (norm dx) (minstep (advance s x))); [reflexivity|].
  destruct (updated_J (evaluate (advance s x) x args) dx (norm dx)); reflexivity.
Qed.

End Broyden.

(** C7. If a call [compute(x')] follows a call that returned a Jacobian, and
    the step from the stored point (the previous call's [x]) to [x'] has norm
    below [minstep], then the call returns exactly the Jacobian the previous
    call returned, the stored Jacobian is unchanged, and [fun] is not called
    (the log of evaluation points is unchanged). *)
Theorem broyden_small_step_returns_previous_jacobian :
  forall (Extra : Type) (s : Derivatives.BroydenJacobian.t Extra)
         (x x' : list R) (args args' : Extra) (J1 dx : Np.ndarray),
    let s1 := fst (Derivatives.BroydenJacobian.compute s x args) in
    snd (Derivatives.BroydenJacobian.compute s x args) = Ok J1 ->
    Np.sub (Np.Vec x') (Np.Vec x) = Ok dx ->
    Np.norm dx < Derivatives.BroydenJacobian.minstep s ->
    snd (Derivatives.BroydenJacobian.compute s1 x' args') = Ok J1
    /\ Derivatives.BroydenJacobian.J
         (fst (Derivatives.BroydenJacobian.compute s1 x' args')) = J1
    /\ Derivatives.BroydenJacobian.evals
         (fst (Derivatives.BroydenJacobian.compute s1 x' args'))
       = Derivatives.BroydenJacobian.evals s1.
Proof.
  intros Extra s x x' args args' J1 dx s1 Hret Hdx Hstep.
  assert (HJ : Derivatives.BroydenJacobian.J s1 = J1)
    by (apply compute_returns_stored_J; exact Hret).
  assert (Hx1 : Derivatives.BroydenJacobian.x1 s1 = x) by apply compute_x1.
  assert (Hmin : Derivatives.BroydenJacobian.minstep s1
                 = Derivatives.BroydenJacobian.minstep s) by apply compute_minstep.
  rewrite (compute_small_step s1 x' args' dx).
  - simpl. rewrite HJ. repeat split; reflexivity.
  - rewrite Hx1. exact Hdx.
  - rewrite Hmin. exact Hstep.
Qed.

(** A fresh object for [f(x) = x] on one variable, with [minstep = 1]. *)
Definition broyden_example : Derivatives.BroydenJacobian.t unit :=
  Derivatives.BroydenJacobian.init (fun x _ => x) [0] [0] None 1.

Lemma broyden_example_step :
  Np.sub (Np.Vec [0]) (Np.Vec [0]) = Ok (Np.Vec [0 - 0])
  /\ Np.norm (Np.Vec [0 - 0]) < 1.
Proof.
  split; [reflexivity|].
  unfold Np.norm, Np.sum, Np.square, Np.flatten. simpl.
  replace ((0 - 0) * (0 - 0) + 0) with 0 by ring.
  rewrite sqrt_0. lra.
Qed.

Lemma broyden_small_step_witness :
  let s1 := fst (Derivatives.BroydenJacobian.compute broyden_example [0] tt) in
  snd (Derivatives.BroydenJacobian.compute s1 [0] tt) = Ok (Np.eye 1 1)
  /\ Derivatives.BroydenJacobian.J
       (fst (Derivatives.BroydenJacobian.compute s1 [0] tt)) = Np.eye 1 1
  /\ Derivatives.BroydenJacobian.evals
       (fst (Derivatives.BroydenJacobian.compute s1 [0] tt))
     = Derivatives.BroydenJacobian.evals s1.
Proof.
  destruct broyden_example_step as [Hsub Hnorm].
  apply (broyden_small_step_returns_previous_jacobian unit broyden_example
           [0] [0] tt tt (Np.eye 1 1) (Np.Vec [0 - 0])).
  - rewrite (compute_small_step broyden_example [0] tt (Np.Vec [0 - 0]));
      [reflexivity | exact Hsub | exact Hnorm].
  - exact Hsub.
  - exact Hnorm.
Defined.

(** C10. A call skipped because the step norm is below [minstep] still
    mutates the bookkeeping: [x0] and [f0] take the old [x1] and [f1], and
    [x1] becomes [x]; the Jacobian [J] is left as it was ([fun] is not
    called, so [f1] and the evaluation log are not assigned either).  In the
    call that follows, the secant step [dx] is therefore measured from the
    skipped point [x], while [f0] is still the value at the last point where
    [fun] was evaluated. *)
Theorem broyden_skipped_call_advances_bookkeeping :
  forall (Extra : Type) (s : Derivatives.BroydenJacobian.t Extra)
         (x : list R) (args : Extra) (dx : Np.ndarray),
    Np.sub (Np.Vec x) (Np.Vec (Derivatives.BroydenJacobian.x1 s)) = Ok dx ->
    Np.norm dx < Derivatives.BroydenJacobian.minstep s ->
    let s' := fst (Derivatives.BroydenJacobian.compute s x args) in
    Derivatives.BroydenJacobian.x0 s' = Derivatives.BroydenJacobian.x1 s
    /\ Derivatives.BroydenJacobian.f0 s' = Derivatives.BroydenJacobian.f1 s
    /\ Derivatives.BroydenJacobian.x1 s' = x
    /\ Derivatives.BroydenJacobian.J s' = Derivatives.BroydenJacobian.J s
    /\ Derivatives.BroydenJacobian.f1 s' = Derivatives.BroydenJacobian.f1 s
    /\ Derivatives.BroydenJacobian.evals s' = Derivatives.BroydenJacobian.evals s
    /\ forall (x'' : list R) (args'' : Extra) (dx' : Np.ndarray),
         Np.sub (Np.Vec x'') (Np.Vec x) = Ok dx' ->
         ~ Np.norm dx' < Derivatives.BroydenJacobian.minstep s ->
         snd (Derivatives.BroydenJacobian.compute s' x'' args'')
         = Derivatives.BroydenJacobian.updated_J
             (Derivatives.BroydenJacobian.mk Extra
                (Derivatives.BroydenJacobian.fn s)
                x
                (Derivatives.BroydenJacobian.f1 s)
                (Derivatives.BroydenJacobian.shape s)
                (Derivatives.BroydenJacobian.J s)
                (Derivatives.BroydenJacobian.minstep s)
                x''
                (Derivatives.BroydenJacobian.fn s x'' args'')
                (Derivatives.BroydenJacobian.evals s ++ [x'']))
             dx' (Np.norm dx').
Proof.
  intros Extra s x args dx Hdx Hstep s'.
  unfold s'. rewrite (compute_small_step s x args dx Hdx Hstep). simpl.
  repeat split.
  intros x'' args'' dx' Hdx' Hstep'.
  rewrite (compute_large_step _ x'' args'' dx'); [reflexivity | exact Hdx' | exact Hstep'].
Qed.

(** The norm of a step of one entry. *)
Lemma norm_single (a : R) : 0 <= a -> Np.norm (Np.Vec [a]) = a.
Proof.
  intros Ha. unfold Np.norm, Np.sum, Np.square, Np.flatten, Np.sum_list. simpl.
  replace (a * a + 0) with (a * a) by ring. now apply sqrt_square.
Qed.

(** [broyden_example] after the call [compute([3])], which updates: the
    stored point is 3 and the residual there is 3. *)
Lemma broyden_example_stepped :
  let s := fst (Derivatives.BroydenJacobian.compute broyden_example [3] tt) in
  Derivatives.BroydenJacobian.x0 s = [0]
  /\ Derivatives.BroydenJacobian.f0 s = [0]
  /\ Derivatives.BroydenJacobian.x1 s = [3]
  /\ Derivatives.BroydenJacobian.f1 s = [3]
  /\ Derivatives.BroydenJacobian.minstep s = 1
  /\ Derivatives.BroydenJacobian.evals s = [[3]].
Proof.
  assert (Hstep : ~ Np.norm (Np.Vec [3 - 0]) < 1)
    by (rewrite norm_single by lra; lra).
  destruct (compute_large_step_state broyden_example [3] tt (Np.Vec [3 - 0])
              eq_refl Hstep) as [H0 [Hf0 [Hf1 [_ [_ He]]]]].
  cbv zeta. rewrite H0, Hf0, Hf1, He, compute_x1, compute_minstep.
  repeat split.
Qed.

Lemma broyden_skipped_call_witness :
  let s := fst (Derivatives.BroydenJacobian.compute broyden_example [3] tt) in
  let s' := fst (Derivatives.BroydenJacobian.compute s [7 / 2] tt) in
  (Derivatives.BroydenJacobian.x0 s = [0]
   /\ Derivatives.BroydenJacobian.f0 s = [0]
   /\ Derivatives.BroydenJacobian.x1 s = [3])
  /\ Derivatives.BroydenJacobian.x0 s' = [3]
  /\ Derivatives.BroydenJacobian.f0 s' = [3]
  /\ Derivatives.BroydenJacobian.x1 s' = [7 / 2]
  /\ Derivatives.BroydenJacobian.J s' = Derivatives.BroydenJacobian.J s
  /\ Derivatives.BroydenJacobian.f1 s' = [3]
  /\ Derivatives.BroydenJacobian.evals s' = [[3]]
  /\ snd (Derivatives.BroydenJacobian.compute s' [5] tt)
     = Derivatives.BroydenJacobian.updated_J
         (Derivatives.BroydenJacobian.mk unit
            (Derivatives.BroydenJacobian.fn s)
            [7 / 2]
            [3]
            (Derivatives.BroydenJacobian.shape s)
            (Derivatives.BroydenJacobian.J s)
            1
            [5]
            (Derivatives.BroydenJacobian.fn s [5] tt)
            ([[3]] ++ [[5]]))
         (Np.Vec [5 - 7 / 2]) (Np.norm (Np.Vec [5 - 7 / 2])).
Proof.
  intros s s'.
  destruct broyden_example_stepped as [H0 [Hf0 [H1 [Hf1 [Hmin He]]]]].
  fold s in H0, Hf0, H1, Hf1, Hmin, He.
  assert (Hsub : Np.sub (Np.Vec [7 / 2]) (Np.Vec (Derivatives.BroydenJacobian.x1 s))
                 = Ok (Np.Vec [7 / 2 - 3])) by (now rewrite H1).
  assert (Hnorm : Np.norm (Np.Vec [7 / 2 - 3]) < Derivatives.BroydenJacobian.minstep s)
    by (rewrite Hmin, norm_single by lra; lra).
  destruct (broyden_skipped_call_advances_bookkeeping unit s [7 / 2] tt
              (Np.Vec [7 / 2 - 3]) Hsub Hnorm)
    as [G1 [G2 [G3 [G4 [G5 [G6 G7]]]]]].
  fold s' in G1, G2, G3, G4, G5, G6, G7.
  rewrite H1 in G1. rewrite Hf1 in G2, G5. rewrite He in G6.
  split; [repeat split; assumption|].
  repeat (split; [assumption|]).
  specialize (G7 [5] tt (Np.Vec [5 - 7 / 2]) eq_refl).
  rewrite Hmin, Hf1, He in G7. apply G7.
  rewrite norm_single by lra. lra.
Defined.

(** ** The scalar form of an objective *)

Section ScalarForm.
Import Np ObjectiveFuns.

(** [ObjectiveFunction.compute_scalar] halves the sum of squares. *)
Lemma OF_compute_scalar_halves (s : ObjectiveFunction) (x : ndarray)
    (y0' : option ndarray) (r : ndarray) :
  OF_compute s x y0' = Ok r ->
  OF_compute_scalar s x y0' = Ok (Scalar (sum (square r) / 2)).
Proof. intros H. unfold OF_compute_scalar. now rewrite H. Qed.

(** A nonlinear objective whose residual is [[1.0]] at every argument. *)
Definition unit_residual : Class unit :=
  mkClass unit (fun _ _ s => Ok (with_built s true)) (fun _ _ => Ok (Vec [1]))
          [] false false "unit residual" "" (fun _ s => Ok s).

End ScalarForm.

(** C1 (evaluation of the code).  [_Objective.compute_scalar] returns the
    whole sum of squares of the residual vector, not half of it; whenever the
    residual is not zero it therefore differs from [0.5 * sum(compute ** 2)],
    the value [ObjectiveFunction.compute_scalar] gives for the same residual. *)
Theorem objective_compute_scalar_omits_half :
  forall (Ext : Type) (cls : ObjectiveFuns.Class Ext)
         (self : ObjectiveFuns._Objective Ext) (kw : ObjectiveFuns.kwargs)
         (r : Np.ndarray),
    ObjectiveFuns.compute cls self kw = Ok r ->
    ObjectiveFuns.compute_scalar (ObjectiveFuns.compute cls) self kw
    = Ok (Np.Scalar (Np.sum (Np.square r)))
    /\ (Np.sum (Np.square r) <> 0 ->
        ObjectiveFuns.compute_scalar (ObjectiveFuns.compute cls) self kw
        <> Ok (Np.Scalar (/ 2 * Np.sum (Np.square r)))).
Proof.
  intros Ext cls self kw r H. unfold ObjectiveFuns.compute_scalar. rewrite H. simpl.
  split; [reflexivity|].
  intros Hnz Heq. inversion Heq. lra.
Qed.

Lemma objective_compute_scalar_witness :
  ObjectiveFuns.compute_scalar (ObjectiveFuns.compute unit_residual)
    (ObjectiveFuns.init [Some 0] [1] tt) []
  = Ok (Np.Scalar (Np.sum (Np.square (Np.Vec [1])))).
Proof.
  apply (objective_compute_scalar_omits_half unit unit_residual
           (ObjectiveFuns.init [Some 0] [1] tt) [] (Np.Vec [1])).
  reflexivity.
Defined.

(** The residual [[1.0]]: the scalar form is [1.0], half the sum of squares
    is [0.5]. *)
Example compute_scalar_unit_residual :
  Np.sum (Np.square (Np.Vec [1])) = 1
  /\ ObjectiveFuns.compute_scalar (ObjectiveFuns.compute unit_residual)
       (ObjectiveFuns.init [Some 0] [1] tt) []
     <> Ok (Np.Scalar (/ 2 * 1)).
Proof.
  assert (E : Np.sum (Np.square (Np.Vec [1])) = 1).
  { unfold Np.sum, Np.square, Np.flatten. simpl. lra. }
  split; [exact E|].
  intros H. unfold ObjectiveFuns.compute_scalar in H. simpl in H.
  inversion H as [H1]. unfold Np.sum, Np.flatten in H1. simpl in H1. lra.
Qed.

(** ** Block Jacobians *)

Section Block.
Import Np Derivatives Derivatives.BlockJacobian.

(** The loop of [__init__] stops in its first pass. *)
Lemma build_blocks_raises (fn : list R -> list R) (N M bs k : nat) (usejit : bool) :
  k <> 0%nat -> build_blocks fn N M bs k usejit = Raise NameError.
Proof.
  intros Hk. destruct k as [|k]; [contradiction|].
  unfold build_blocks. cbn [seq map mapM]. unfold jac_block, jit, jacrev.
  now destruct usejit.
Qed.

(** Without a pass, the object has no block. *)
Lemma build_blocks_empty (fn : list R -> list R) (N M bs : nat) (usejit : bool) :
  build_blocks fn N M bs 0 usejit = Ok (mk fn N M bs 0 usejit [] []).
Proof. reflexivity. Qed.

End Block.

(** C6 (evaluation of the code).  Constructing a [BlockJacobian] with
    [num_blocks=k], [k >= 1], raises [NameError] in the first pass of the
    loop of [__init__], with and without [usejit]: no object is made, so no
    Jacobian is computed, blocked or not. *)
Theorem block_jacobian_construction_raises_name_error :
  forall (fn : list R -> list R) (N M k : nat) (usejit : bool),
    k <> 0%nat ->
    Derivatives.BlockJacobian.init fn N M None (Some k) usejit = Raise NameError.
Proof.
  intros fn N M k usejit Hk. unfold Derivatives.BlockJacobian.init.
  destruct (Nat.eqb_spec k 0); [contradiction|].
  now apply build_blocks_raises.
Qed.

(** The spec's test function [f(x) = [x0**2, x0*x1]] in two blocks. *)
Lemma block_jacobian_witness :
  Derivatives.BlockJacobian.init
    (fun x => [nth 0 x 0 * nth 0 x 0; nth 0 x 0 * nth 1 x 0])
    2 2 None (Some 2%nat) false
  = Raise NameError.
Proof.
  apply (block_jacobian_construction_raises_name_error
           (fun x => [nth 0 x 0 * nth 0 x 0; nth 0 x 0 * nth 1 x 0]) 2 2 2 false).
  discriminate.
Defined.

(** ** A fact on ranges *)

Lemma seq_add_map (a n : nat) : seq a n = map (fun r => (a + r)%nat) (seq 0 n).
Proof.
  revert a. induction n as [|n IH]; intros a; [reflexivity|].
  simpl. rewrite Nat.add_0_r. f_equal.
  rewrite (IH (S a)), (IH 1%nat), map_map.
  apply map_ext. intros r. lia.
Qed.

(** ** The derivative blocks of an objective *)

Section DerivativeBlocks.
Import Np ObjectiveFuns.

Lemma lookup_setitem_eq {V : Type} (d : dict V) (k : string) (v : V) :
  lookup (setitem d k v) k = Some v.
Proof. unfold setitem. simpl. now rewrite String.eqb_refl. Qed.

Lemma lookup_setitem_neq {V : Type} (d : dict V) (k k' : string) (v : V) :
  k' <> k -> lookup (setitem d k v) k' = lookup d k'.
Proof.
  intros H. unfold setitem. simpl.
  destruct (String.eqb_spec k' k); [contradiction | reflexivity].
Qed.

Lemma getitem_Ok {V : Type} (d : dict V) (k : string) (v : V) :
  getitem d k = Ok v -> lookup d k = Some v.
Proof. unfold getitem. destruct (lookup d k); intros H; now inversion H. Qed.

Lemma shape_zeros (m n : nat) : shape (zeros m n) = [m; n].
Proof. unfold zeros. simpl. now rewrite repeat_length. Qed.

Lemma bind_Ok {T U : Type} (r : result T) (k : T -> result U) (u : U) :
  bind r k = Ok u -> exists t, r = Ok t /\ k t = Ok u.
Proof. destruct r as [t|e]; simpl; intros H; [eauto | discriminate]. Qed.

Variable Derivative_compute : Derivative -> list ndarray -> result ndarray.

Context {Ext : Type}.
Variable compute : _Objective Ext -> kwargs -> result ndarray.
Variables linear use_jit : bool.







End DerivativeBlocks.

(** A derivative engine that is exact for affine functions: entry [(r, j)]
    is the unit forward difference of output [r] along component [j] of the
    argument at position [argnum], laid out in the declared shape. *)
Definition affine_engine (d : ObjectiveFuns.Derivative) (args : list Np.ndarray)
    : result Np.ndarray :=
  let bump (j : nat) :=
    firstn (ObjectiveFuns.d_argnum d) args
    ++ match nth_error args (ObjectiveFuns.d_argnum d) with
       | Some a => [Np.Vec (Np.set_nth (Np.flatten a) j (nth j (Np.flatten a) 0 + 1))]
       | None => []
       end
    ++ skipn (S (ObjectiveFuns.d_argnum d)) args in
  let entry (r j : nat) :=
    match ObjectiveFuns.d_fun d (bump j), ObjectiveFuns.d_fun d args with
    | Ok a1, Ok a0 => nth r (Np.flatten a1) 0 - nth r (Np.flatten a0) 0
    | _, _ => 0
    end in
  Ok (Np.Mat (snd (ObjectiveFuns.d_shape d))
        (map (fun r => map (fun j => entry r j) (seq 0 (snd (ObjectiveFuns.d_shape d))))
             (seq 0 (fst (ObjectiveFuns.d_shape d))))).

(** An equilibrium with two boundary modes. *)
Definition two_mode_basis : Basis.t := Basis.mk [(0, 0, 0)%Z; (0, 1, 0)%Z] 2.

Definition example_surface : Surface.t :=
  Surface.mk 0 1 0 two_mode_basis two_mode_basis [10; 1] [0; 1].

Definition example_eq : Equilibrium.t :=
  Equilibrium.mk two_mode_basis two_mode_basis two_mode_basis example_surface
                 (Profile.mk [0]) (Profile.mk [1]) 1.


(** ** The target of a fixed-boundary Z constraint *)

(** Decides the comparisons of concrete floats that an evaluation is stuck on. *)
Ltac decide_floats :=
  repeat match goal with
         | |- context [Req_dec_T ?a ?b] =>
             let n := fresh "n" in
             destruct (Req_dec_T a b) as [?|n];
             [try (exfalso; lra) | try (exfalso; apply n; lra)]
         | |- context [Rlt_dec ?a ?b] =>
             destruct (Rlt_dec a b); [try (exfalso; lra) | try (exfalso; lra)]
         end.

Section FixedZ.
Import Np ObjectiveFuns LinearObjectives LinearObjectives.FixedBoundaryZ.

(** When neither of the first two tests of [build] fires and the target
    holds [None], the target is read from [surface.R_lmn]. *)
Lemma fallback_reads_R_lmn (self : t) (sf : Surface.t) (nmodes : nat) (idx : list nat) :
  length (_target self) <> nmodes ->
  length (_weight self) <> nmodes ->
  existsb is_None (_target self) = true ->
  settle_target self sf nmodes idx
  = (r <- take (Surface.R_lmn sf) (_idx (ext self)) ;; set_target self (map Some r)).
Proof.
  intros Ht Hw Hn. unfold settle_target.
  destruct (Nat.eqb_spec (length (_target self)) nmodes); [contradiction|].
  cbn [bind].
  destruct (Nat.eqb_spec (length (_weight self)) nmodes); [contradiction|].
  cbn [bind]. rewrite Hn. reflexivity.
Qed.

Variable Derivative_compute : Derivative -> list ndarray -> result ndarray.
Hypothesis Derivative_compute_total :
  forall d args, exists a, Derivative_compute d args = Ok a.

(** [build] on the two-mode equilibrium, from the default arguments. *)
Lemma build_example :
  exists s,
    build Derivative_compute example_eq true (init [None] [1] None ModesTrue) = Ok s
    /\ _target s = [Some 10; Some 1]
    /\ _weight s = [1; 1]
    /\ _dim_f s = 2%nat
    /\ _idx (ext s) = [0; 1]%nat.
Proof.
  unfold build. cbn -[_set_derivatives _check_dimensions Rplus Rminus Rmult].
  unfold set_target, _check_dimensions.
  cbn -[_set_derivatives Rplus Rminus Rmult]. decide_floats.
  cbn -[_set_derivatives Rplus Rminus Rmult]. decide_floats.
  cbn -[_set_derivatives Rplus Rminus Rmult]. decide_floats.
  unfold _set_derivatives.
  cbn -[Rplus Rminus Rmult].
  repeat match goal with
         | |- context [Derivative_compute ?d ?a] =>
             let H := fresh "H" in
             destruct (Derivative_compute_total d a) as [? H]; rewrite H;
             cbn -[Rplus Rminus Rmult]
         end.
  eexists. split; [reflexivity|]. repeat split.
Qed.

End FixedZ.

(** C9. With the default [target=None] the fallback of [FixedBoundaryZ.build]
    is taken and reads the surface's R coefficients, while [update_target]
    reads its Z coefficients: on some equilibrium the target [build] leaves
    differs from the one [update_target] sets for the same equilibrium. *)
Theorem fixed_boundary_Z_fallback_target_differs :
  forall Derivative_compute :
           ObjectiveFuns.Derivative -> list Np.ndarray -> result Np.ndarray,
    (forall d args, exists a, Derivative_compute d args = Ok a) ->
    exists eq s s',
      LinearObjectives.FixedBoundaryZ.build Derivative_compute eq true
        (LinearObjectives.FixedBoundaryZ.init [None] [1] None LinearObjectives.ModesTrue)
      = Ok s
      /\ LinearObjectives.FixedBoundaryZ.update_target eq s = Ok s'
      /\ ObjectiveFuns._target s = map Some (Surface.R_lmn (Equilibrium.surface eq))
      /\ ObjectiveFuns._target s' = map Some (Surface.Z_lmn (Equilibrium.surface eq))
      /\ ObjectiveFuns._target s <> ObjectiveFuns._target s'.
Proof.
  intros engine Htot.
  destruct (build_example engine Htot) as [s [Hb [Ht [Hw [Hd Hi]]]]].
  exists example_eq, s.
  assert (Hu : exists s',
             LinearObjectives.FixedBoundaryZ.update_target example_eq s = Ok s'
             /\ ObjectiveFuns._target s' = [Some 0; Some 1]).
  { clear Hb. destruct s as [tg wt bt df dims ders sders ags [sf ms ix]].
    simpl in Ht, Hw, Hd, Hi. subst tg wt df ix.
    unfold LinearObjectives.FixedBoundaryZ.update_target.
    unfold ObjectiveFuns.set_target, ObjectiveFuns._check_dimensions.
    cbn -[Rplus Rminus Rmult]. decide_floats.
    cbn -[Rplus Rminus Rmult]. decide_floats.
    eexists. split; reflexivity. }
  destruct Hu as [s' [Hu Ht']].
  exists s'. rewrite Ht, Ht'. repeat split; try assumption.
  intros H. inversion H. lra.
Qed.

Lemma fixed_boundary_Z_witness :
  exists eq s s',
    LinearObjectives.FixedBoundaryZ.build affine_engine eq true
      (LinearObjectives.FixedBoundaryZ.init [None] [1] None LinearObjectives.ModesTrue)
    = Ok s
    /\ LinearObjectives.FixedBoundaryZ.update_target eq s = Ok s'
    /\ ObjectiveFuns._target s = map Some (Surface.R_lmn (Equilibrium.surface eq))
    /\ ObjectiveFuns._target s' = map Some (Surface.Z_lmn (Equilibrium.surface eq))
    /\ ObjectiveFuns._target s <> ObjectiveFuns._target s'.
Proof.
  apply (fixed_boundary_Z_fallback_target_differs affine_engine).
  intros d args. eexists. reflexivity.
Defined.

(** ** Central finite differences *)

Section ArrayFacts.
Import Np.

Lemma length_concat_uniform (c : nat) (rows : list (list R)) :
  Forall (fun r => length r = c) rows -> length (concat rows) = (length rows * c)%nat.
Proof.
  induction 1 as [|r rows Hr _ IH]; [reflexivity|].
  simpl. rewrite length_app, IH, Hr. reflexivity.
Qed.

Lemma length_flatten (a : ndarray) : wf a -> length (flatten a) = size a.
Proof.
  destruct a as [x|v|c rows]; unfold flatten, size; simpl.
  - reflexivity.
  - intros _. rewrite app_nil_r. lia.
  - apply length_concat_uniform.
Qed.

Lemma size_of_shape (a b : ndarray) : shape a = shape b -> size a = size b.
Proof.
  destruct a, b; unfold size; simpl; intros H; inversion H; subst; reflexivity.
Qed.

Lemma bshape_same (n : nat) : bshape n n = Some n.
Proof. unfold bshape. now rewrite Nat.eqb_refl. Qed.

(** Two well-formed arrays of one shape combine without error into an
    array of that shape. *)
Lemma binop_same_shape (op : R -> R -> R) (a b : ndarray) :
  shape a = shape b ->
  exists r, binop op a b = Ok r /\ shape r = shape a /\ wf r.
Proof.
  intros Hs. unfold binop.
  destruct a as [x|u|c rows], b as [y|v|c' rows']; simpl in Hs; try discriminate.
  - cbn [nrows ncols ndim]. rewrite !bshape_same. cbn [Nat.max of_rows].
    eexists. repeat split.
  - injection Hs as Hl. cbn [nrows ncols ndim]. rewrite <- Hl, !bshape_same.
    cbn [Nat.max of_rows]. eexists. split; [reflexivity|]. split; [|exact I].
    simpl. now rewrite length_map, length_seq.
  - injection Hs as Hl Hc. subst c'. cbn [nrows ncols ndim].
    rewrite <- Hl, !bshape_same. cbn [Nat.max of_rows].
    eexists. split; [reflexivity|]. split.
    + simpl. now rewrite length_map, length_seq.
    + simpl. apply Forall_forall. intros r Hr. apply in_map_iff in Hr.
      destruct Hr as [i [<- _]]. now rewrite length_map, length_seq.
Qed.

Lemma shape_map_nd (g : R -> R) (a : ndarray) : shape (map_nd g a) = shape a.
Proof. destruct a; simpl; now rewrite ?length_map. Qed.

Lemma wf_map_nd (g : R -> R) (a : ndarray) : wf a -> wf (map_nd g a).
Proof.
  destruct a as [x|v|c rows]; simpl; try (intros; exact I).
  intros H. apply Forall_forall. intros r Hr. apply in_map_iff in Hr.
  destruct Hr as [r' [<- Hr']]. rewrite length_map.
  rewrite Forall_forall in H. now apply H.
Qed.

Lemma nth_zip_with (op : R -> R -> R) (u v : list R) (j : nat) :
  length u = length v -> (j < length u)%nat ->
  nth j (zip_with op u v) 0 = op (nth j u 0) (nth j v 0).
Proof.
  revert v j. induction u as [|a u IH]; intros [|b' v] j Hl Hj; simpl in *; try lia.
  destruct j; [reflexivity|]. apply IH; lia.
Qed.

Lemma length_zip_with (op : R -> R -> R) (u v : list R) :
  length u = length v -> length (zip_with op u v) = length u.
Proof.
  revert v. induction u as [|a u IH]; intros [|b' v] Hl; simpl in *; try lia.
  f_equal. apply IH. lia.
Qed.

Lemma length_set_nth {T : Type} (l : list T) (i : nat) (x : T) :
  length (set_nth l i x) = length l.
Proof.
  revert i. induction l as [|a l IH]; intros [|i]; simpl; try reflexivity.
  now rewrite IH.
Qed.

Lemma nth_set_nth_eq {T : Type} (l : list T) (i : nat) (x d : T) :
  (i < length l)%nat -> nth i (set_nth l i x) d = x.
Proof.
  revert i. induction l as [|a l IH]; intros [|i] H; simpl in *; try lia.
  - reflexivity.
  - apply IH. lia.
Qed.

Lemma nth_set_nth_neq {T : Type} (l : list T) (i j : nat) (x d : T) :
  i <> j -> nth j (set_nth l i x) d = nth j l d.
Proof.
  revert i j. induction l as [|a l IH]; intros [|i] [|j] H; simpl; try reflexivity.
  - contradiction.
  - apply IH. lia.
Qed.

Lemma nth_map_seq {T : Type} (g : nat -> T) (n j : nat) (d : T) :
  (j < n)%nat -> nth j (map g (seq 0 n)) d = g j.
Proof.
  intros H. rewrite (nth_indep _ d (g 0%nat)) by (now rewrite length_map, length_seq).
  rewrite (map_nth g (seq 0 n) 0%nat j). now rewrite seq_nth.
Qed.

Lemma length_diag_row (h : list R) (i : nat) : length (diag_row h i) = length h.
Proof. unfold diag_row. now rewrite length_map, length_seq. Qed.

Lemma nth_diag_row (h : list R) (i j : nat) :
  (j < length h)%nat ->
  nth j (diag_row h i) 0 = if Nat.eqb j i then nth j h 0 else 0.
Proof. intros H. unfold diag_row. now rewrite nth_map_seq. Qed.

End ArrayFacts.

(** The step, the perturbed point and the central difference quotient, as
    the specification words them: [h_i = rel_step * max(1, |x_i|)],
    [x + d e_i], and [(f(x + h_i e_i) - f(x - h_i e_i)) / (2 h_i)]. *)
Definition step_size (rel_step : R) (x : list R) (i : nat) : R :=
  rel_step * Rmax 1 (Rabs (nth i x 0)).

Definition perturb (x : list R) (i : nat) (d : R) : list R :=
  Np.set_nth x i (nth i x 0 + d).

Definition central_difference (g : list R -> Np.ndarray) (rel_step : R) (x : list R)
    (i : nat) : result Np.ndarray :=
  df <- Np.sub (g (perturb x i (step_size rel_step x i)))
               (g (perturb x i (- step_size rel_step x i))) ;;
  Ok (Np.div_scalar df (2 * step_size rel_step x i)).

(** The Jacobian laid out from its columns: a matrix with one row per output
    component, or a flat vector when there is one output component. *)
Definition jacobian_of_columns (m : nat) (cols : list (list R)) : Np.ndarray :=
  if Nat.eqb m 1 then Np.Vec (map (fun c => nth 0 c 0) cols)
  else Np.Mat (length cols) (map (fun r => map (fun c => nth r c 0) cols) (seq 0 m)).

Section FiniteDifference.
Import Np Derivatives Derivatives.FiniteDiffDerivative.

Variable self : FiniteDiffDerivative.t.
Variable args : list (list R).
Variable x0 : list R.

Let g := f self args.
Let m := size (g x0).
Let n := length x0.

Hypothesis g_shape :
  forall y, length y = length x0 -> wf (g y) /\ shape (g y) = shape (g x0).

Lemma nth_steps (i : nat) :
  (i < n)%nat -> nth i (steps self x0) 0 = step_size (rel_step self) x0 i.
Proof.
  intros H. unfold steps, step_size.
  rewrite (nth_indep _ 0 (Rmax 1 (Rabs 0) * rel_step self))
    by (now rewrite length_map).
  rewrite (map_nth (fun xi => Rmax 1 (Rabs xi) * rel_step self) x0 0 i). ring.
Qed.

Lemma length_steps : length (steps self x0) = n.
Proof. unfold steps. now rewrite length_map. Qed.

Lemma plus_diag_row (i : nat) :
  (i < n)%nat ->
  zip_with Rplus x0 (diag_row (steps self x0) i)
  = perturb x0 i (step_size (rel_step self) x0 i).
Proof.
  intros Hi. unfold perturb.
  apply (nth_ext _ _ 0 0).
  - rewrite length_zip_with, length_set_nth; [reflexivity|].
    now rewrite length_diag_row, length_steps.
  - intros j Hj.
    rewrite length_zip_with in Hj by (now rewrite length_diag_row, length_steps).
    rewrite nth_zip_with by (try assumption; now rewrite length_diag_row, length_steps).
    rewrite nth_diag_row by (now rewrite length_steps).
    destruct (Nat.eqb_spec j i) as [->|Hne].
    + rewrite nth_set_nth_eq by assumption. now rewrite nth_steps.
    + rewrite nth_set_nth_neq by (intros E; apply Hne; now symmetry). ring.
Qed.

Lemma minus_diag_row (i : nat) :
  (i < n)%nat ->
  zip_with Rminus x0 (diag_row (steps self x0) i)
  = perturb x0 i (- step_size (rel_step self) x0 i).
Proof.
  intros Hi. unfold perturb.
  apply (nth_ext _ _ 0 0).
  - rewrite length_zip_with, length_set_nth; [reflexivity|].
    now rewrite length_diag_row, length_steps.
  - intros j Hj.
    rewrite length_zip_with in Hj by (now rewrite length_diag_row, length_steps).
    rewrite nth_zip_with by (try assumption; now rewrite length_diag_row, length_steps).
    rewrite nth_diag_row by (now rewrite length_steps).
    destruct (Nat.eqb_spec j i) as [->|Hne].
    + rewrite nth_set_nth_eq by assumption. rewrite nth_steps by assumption. ring.
    + rewrite nth_set_nth_neq by (intros E; apply Hne; now symmetry). ring.
Qed.

(** The difference quotient of a column exists and has [m] entries. *)
Lemma central_difference_defined (i : nat) :
  exists c, central_difference g (rel_step self) x0 i = Ok c
            /\ length (flatten c) = m.
Proof.
  unfold central_difference.
  destruct (g_shape (perturb x0 i (step_size (rel_step self) x0 i))
              (length_set_nth _ _ _)) as [W2 S2].
  destruct (g_shape (perturb x0 i (- step_size (rel_step self) x0 i))
              (length_set_nth _ _ _)) as [W1 S1].
  destruct (binop_same_shape Rminus _ _ (eq_trans S2 (eq_sym S1)))
    as [df [Hdf [Sdf Wdf]]].
  unfold sub. rewrite Hdf. simpl. eexists. split; [reflexivity|].
  unfold div_scalar. rewrite length_flatten by (now apply wf_map_nd).
  unfold m. apply size_of_shape. rewrite shape_map_nd, Sdf. exact S2.
Qed.

Lemma nth_perturb (x : list R) (i : nat) (d : R) :
  (i < length x)%nat -> nth i (perturb x i d) 0 = nth i x 0 + d.
Proof. intros H. unfold perturb. now apply nth_set_nth_eq. Qed.

(** One pass of the loop body stores the difference quotient as row [i] of
    [J.T]. *)
Lemma jac_column_spec (i : nat) (JT : list (list R)) (c : ndarray) :
  (i < n)%nat ->
  central_difference g (rel_step self) x0 i = Ok c ->
  length (flatten c) = m ->
  jac_column self args x0 (steps self x0) m i JT = Ok (set_nth JT i (flatten c)).
Proof.
  intros Hi Hc Hlen. unfold jac_column.
  rewrite plus_diag_row, minus_diag_row by assumption.
  cbv zeta. rewrite !nth_perturb by assumption.
  replace (nth i x0 0 + step_size (rel_step self) x0 i
           - (nth i x0 0 + - step_size (rel_step self) x0 i))
    with (2 * step_size (rel_step self) x0 i) by ring.
  unfold central_difference in Hc. fold g.
  destruct (sub (g (perturb x0 i (step_size (rel_step self) x0 i)))
                (g (perturb x0 i (- step_size (rel_step self) x0 i)))) as [df|e];
    simpl in Hc; [|discriminate].
  injection Hc as <-. simpl.
  unfold broadcast_to. rewrite Hlen, Nat.eqb_refl. reflexivity.
Qed.

(** The loop over a list of column indices. *)
Lemma jac_loop_spec (range : list nat) :
  forall JT,
    (forall i, In i range -> (i < n)%nat) ->
    length JT = n ->
    exists JT',
      jac_loop self args x0 (steps self x0) m range JT = Ok JT'
      /\ length JT' = n
      /\ (forall i, In i range ->
            exists c, central_difference g (rel_step self) x0 i = Ok c
                      /\ nth i JT' [] = flatten c)
      /\ (forall i, ~ In i range -> nth i JT' [] = nth i JT []).
Proof.
  induction range as [|i range IH]; intros JT Hr Hl.
  - exists JT. simpl. repeat split; [assumption | intros i [] ].
  - destruct (central_difference_defined i) as [c [Hc Hlen]].
    assert (Hi : (i < n)%nat) by (apply Hr; now left).
    simpl. rewrite (jac_column_spec i JT c Hi Hc Hlen). simpl.
    destruct (IH (set_nth JT i (flatten c))) as [JT' [Hloop [Hl' [Hin Hout]]]].
    + intros j Hj. apply Hr. now right.
    + now rewrite length_set_nth.
    + exists JT'. repeat split; try assumption.
      * intros j [Hj|Hj].
        -- subst j. destruct (in_dec Nat.eq_dec i range) as [Hi'|Hi'].
           ++ now apply Hin.
           ++ exists c. split; [assumption|].
              rewrite (Hout i Hi'). apply nth_set_nth_eq. now rewrite Hl.
        -- now apply Hin.
      * intros j Hj. rewrite Hout by (intros Hc'; apply Hj; now right).
        apply nth_set_nth_neq. intros ->. apply Hj. now left.
Qed.

End FiniteDifference.

(** [fun] as a function of the argument at position [argnum], the other
    arguments being those of [args]. *)
Definition of_argument (fn : list (list R) -> Np.ndarray) (argnum : nat)
    (args : list (list R)) (y : list R) : Np.ndarray :=
  fn (firstn argnum args ++ y :: skipn (S argnum) args).

(** C5. In ['fwd'] mode, with a [rel_step] that is not zero (at zero the
    code divides zero by zero), [FiniteDiffDerivative.compute] builds the Jacobian of [fun] with respect
    to the argument [x] at position [argnum] column by column: column [i]
    is the central difference quotient
    [(f(x + h_i e_i) - f(x - h_i e_i)) / (2 h_i)] with
    [h_i = rel_step * max(1, |x_i|)], where [f] is [fun] with the other
    arguments fixed; and when the output of [f] has size 1 the result is a
    flat vector. *)
Theorem finite_difference_jacobian_by_central_differences :
  forall (fn : list (list R) -> Np.ndarray) (argnum : nat) (rel_step : R)
         (args : list (list R)) (x0 : list R) (d : Derivatives.FiniteDiffDerivative.t),
    Derivatives.FiniteDiffDerivative.init fn argnum "fwd" rel_step = Ok d ->
    rel_step <> 0 ->
    nth_error args argnum = Some x0 ->
    (forall y,
        Np.wf (of_argument fn argnum args y)
        /\ Np.shape (of_argument fn argnum args y)
           = Np.shape (of_argument fn argnum args x0)) ->
    exists cols : list (list R),
      length cols = length x0
      /\ (forall i, (i < length x0)%nat ->
            exists c,
              central_difference (of_argument fn argnum args) rel_step x0 i = Ok c
              /\ nth i cols [] = Np.flatten c)
      /\ Derivatives.FiniteDiffDerivative.compute d args
         = Ok (jacobian_of_columns (Np.size (of_argument fn argnum args x0)) cols)
      /\ (Np.size (of_argument fn argnum args x0) = 1%nat ->
          Derivatives.FiniteDiffDerivative.compute d args
          = Ok (Np.Vec (map (fun c => nth 0 c 0) cols))).
Proof.
  intros fn argnum rel_step args x0 d Hinit _ Hx0 Hshape.
  assert (Hd : d = Derivatives.FiniteDiffDerivative.mk fn argnum rel_step
                     (Some "fwd"%string)
                     (Some Derivatives.FiniteDiffDerivative.compute_grad_or_jac)).
  { unfold Derivatives.FiniteDiffDerivative.init,
      Derivatives.FiniteDiffDerivative.set_mode in Hinit.
    simpl in Hinit. now injection Hinit as <-. }
  assert (Hf : Derivatives.FiniteDiffDerivative.f d args = of_argument fn argnum args)
    by (now subst d).
  assert (Hcomp : Derivatives.FiniteDiffDerivative._compute d
                  = Some Derivatives.FiniteDiffDerivative.compute_grad_or_jac)
    by (now subst d).
  assert (Hrel : Derivatives.FiniteDiffDerivative.rel_step d = rel_step)
    by (now subst d).
  assert (Harg : Derivatives.FiniteDiffDerivative._argnum d = argnum)
    by (now subst d).
  clear Hd Hinit. rewrite <- Hf in *.
  destruct (jac_loop_spec d args x0 (fun y _ => Hshape y) (seq 0 (length x0))
              (repeat (repeat 0 (Np.size (Derivatives.FiniteDiffDerivative.f d args x0)))
                      (length x0)))
    as [JT [Hloop [Hlen [Hin _]]]].
  - intros i Hi. apply in_seq in Hi. lia.
  - apply repeat_length.
  - rewrite Hrel in Hin. exists JT. split; [assumption|]. split.
    + intros i Hi. apply Hin. apply in_seq. lia.
    + assert (Hc : Derivatives.FiniteDiffDerivative.compute d args
                   = Ok (jacobian_of_columns
                           (Np.size (Derivatives.FiniteDiffDerivative.f d args x0)) JT)).
      { unfold Derivatives.FiniteDiffDerivative.compute. rewrite Hcomp.
        unfold Derivatives.FiniteDiffDerivative._compute_grad_or_jac.
        rewrite Harg, Hx0. cbv zeta. rewrite Hloop. cbn [bind].
        unfold jacobian_of_columns, Np.transpose, Np.column, Np.ravel, Np.flatten.
        destruct (Nat.eqb_spec (Np.size (Derivatives.FiniteDiffDerivative.f d args x0)) 1)
          as [E|E].
        - rewrite E. simpl. now rewrite app_nil_r.
        - reflexivity. }
      split; [exact Hc|].
      intros E. rewrite Hc. unfold jacobian_of_columns. now rewrite E.
Qed.

(** The spec's test function [f(x) = [x0**2, x0*x1]]. *)
Definition squares_and_products (a : list (list R)) : Np.ndarray :=
  Np.Vec [nth 0 (nth 0 a []) 0 * nth 0 (nth 0 a []) 0;
          nth 0 (nth 0 a []) 0 * nth 1 (nth 0 a []) 0].

(** At [x = [1, 2]] with [rel_step = 1e-3] the two columns are the
    difference quotients of [[x0**2, x0*x1]] along [x0] and along [x1]. *)
Lemma finite_difference_witness :
  let h0 := step_size (/ 1000) [1; 2] 0 in
  let h1 := step_size (/ 1000) [1; 2] 1 in
  exists d : Derivatives.FiniteDiffDerivative.t,
    Derivatives.FiniteDiffDerivative.init squares_and_products 0 "fwd" (/ 1000) = Ok d
    /\ Derivatives.FiniteDiffDerivative.compute d [[1; 2]]
       = Ok (jacobian_of_columns 2
               [[((1 + h0) * (1 + h0) - (1 + - h0) * (1 + - h0)) / (2 * h0);
                 ((1 + h0) * 2 - (1 + - h0) * 2) / (2 * h0)];
                [(1 * 1 - 1 * 1) / (2 * h1);
                 (1 * (2 + h1) - 1 * (2 + - h1)) / (2 * h1)]]).
Proof.
  intros h0 h1. eexists. split; [reflexivity|].
  destruct (finite_difference_jacobian_by_central_differences
              squares_and_products 0 (/ 1000) [[1; 2]] [1; 2] _ eq_refl)
    as [cols [Hl [Hq [Hc _]]]].
  - lra.
  - reflexivity.
  - intros y. split; [exact I | reflexivity].
  - rewrite Hc.
    destruct (Hq 0%nat ltac:(simpl; lia)) as [c0 [Hc0 Hn0]].
    destruct (Hq 1%nat ltac:(simpl; lia)) as [c1 [Hc1 Hn1]].
    unfold central_difference, of_argument, squares_and_products, perturb in Hc0, Hc1.
    cbn -[Rplus Rminus Rmult Rdiv Rinv Ropp Rmax Rabs step_size] in Hc0, Hc1.
    injection Hc0 as <-. injection Hc1 as <-.
    cbn -[Rplus Rminus Rmult Rdiv Rinv Ropp Rmax Rabs step_size] in Hn0, Hn1.
    destruct cols as [|a [|b [|? ?]]]; try discriminate Hl.
    cbn [nth] in Hn0, Hn1. subst a b. reflexivity.
Defined.

(** ** The shape of a computed derivative block *)

Section ComputedBlocks.
Import Np Derivatives Derivatives.FiniteDiffDerivative ObjectiveFuns.









End ComputedBlocks.











(** ** Finite sums and arrays given by their entries *)

(** Entry [(i, j)] of a list of rows. *)
Definition coeff (rows : list (list R)) (i j : nat) : R := nth j (nth i rows []) 0.

(** [g 0 + ... + g (n - 1)] *)
Definition big_sum (n : nat) (g : nat -> R) : R := Np.sum_list (map g (seq 0 n)).

(** The vector and the rows with given entries. *)
Definition vec_of (n : nat) (g : nat -> R) : list R := map g (seq 0 n).

Definition mat_of (r c : nat) (F : nat -> nat -> R) : list (list R) :=
  map (fun i => vec_of c (F i)) (seq 0 r).

Section Sums.
Import Np.

Lemma big_sum_S (n : nat) (g : nat -> R) : big_sum (S n) g = big_sum n g + g n.
Proof.
  unfold big_sum. rewrite seq_S, map_app. simpl.
  induction (map g (seq 0 n)) as [|a l IH]; simpl; [ring|]. rewrite IH. ring.
Qed.

Lemma big_sum_0 (g : nat -> R) : big_sum 0 g = 0.
Proof. reflexivity. Qed.

Lemma big_sum_ext (n : nat) (g h : nat -> R) :
  (forall i, (i < n)%nat -> g i = h i) -> big_sum n g = big_sum n h.
Proof.
  intros H. induction n as [|n IH]; [reflexivity|].
  rewrite !big_sum_S, IH, (H n) by (intros; try apply H; lia). reflexivity.
Qed.

Lemma big_sum_zero (n : nat) (g : nat -> R) :
  (forall i, (i < n)%nat -> g i = 0) -> big_sum n g = 0.
Proof.
  intros H. induction n as [|n IH]; [reflexivity|].
  rewrite big_sum_S, IH, (H n) by (intros; try apply H; lia). ring.
Qed.

Lemma big_sum_plus (n : nat) (g h : nat -> R) :
  big_sum n (fun i => g i + h i) = big_sum n g + big_sum n h.
Proof.
  induction n as [|n IH]; [rewrite !big_sum_0; ring|].
  rewrite !big_sum_S, IH. ring.
Qed.

Lemma big_sum_scal (n : nat) (c : R) (g : nat -> R) :
  big_sum n (fun i => c * g i) = c * big_sum n g.
Proof.
  induction n as [|n IH]; [rewrite !big_sum_0; ring|].
  rewrite !big_sum_S, IH. ring.
Qed.

Lemma big_sum_swap (n m : nat) (g : nat -> nat -> R) :
  big_sum n (fun i => big_sum m (fun j => g i j))
  = big_sum m (fun j => big_sum n (fun i => g i j)).
Proof.
  induction n as [|n IH].
  - rewrite big_sum_0. symmetry. apply big_sum_zero. intros. apply big_sum_0.
  - rewrite big_sum_S, IH, <- big_sum_plus.
    apply big_sum_ext. intros j _. now rewrite big_sum_S.
Qed.

Lemma big_sum_delta (n c : nat) (g : nat -> R) :
  (c < n)%nat -> big_sum n (fun k => delta k c * g k) = g c.
Proof.
  intros H. induction n as [|n IH]; [lia|].
  rewrite big_sum_S. unfold delta at 2.
  destruct (Nat.eqb_spec n c) as [->|Hne].
  - rewrite big_sum_zero; [ring|].
    intros i Hi. unfold delta. destruct (Nat.eqb_spec i c); [lia|ring].
  - rewrite IH by lia. ring.
Qed.

Lemma big_sum_delta_out (n c : nat) (g : nat -> R) :
  (n <= c)%nat -> big_sum n (fun k => delta k c * g k) = 0.
Proof.
  intros H. apply big_sum_zero. intros i Hi. unfold delta.
  destruct (Nat.eqb_spec i c); [lia|ring].
Qed.

Lemma big_sum_split (a b : nat) (g : nat -> R) :
  big_sum (a + b) g = big_sum a g + big_sum b (fun k => g (a + k)%nat).
Proof.
  induction b as [|b IH].
  - rewrite Nat.add_0_r, big_sum_0. ring.
  - rewrite Nat.add_succ_r, !big_sum_S, IH. ring.
Qed.

Lemma length_vec_of (n : nat) (g : nat -> R) : length (vec_of n g) = n.
Proof. unfold vec_of. now rewrite length_map, length_seq. Qed.

Lemma nth_vec_of (n : nat) (g : nat -> R) (j : nat) :
  (j < n)%nat -> nth j (vec_of n g) 0 = g j.
Proof. intros H. unfold vec_of. now apply nth_map_seq. Qed.

Lemma vec_of_ext (n : nat) (g h : nat -> R) :
  (forall i, (i < n)%nat -> g i = h i) -> vec_of n g = vec_of n h.
Proof.
  intros H. unfold vec_of. apply map_ext_in. intros i Hi. apply in_seq in Hi.
  apply H. lia.
Qed.

Lemma vec_of_nth (v : list R) : v = vec_of (length v) (fun j => nth j v 0).
Proof.
  apply (nth_ext _ _ 0 0).
  - now rewrite length_vec_of.
  - intros j Hj. now rewrite nth_vec_of.
Qed.

Lemma length_mat_of (r c : nat) (F : nat -> nat -> R) : length (mat_of r c F) = r.
Proof. unfold mat_of. now rewrite length_map, length_seq. Qed.

Lemma nth_mat_of (r c : nat) (F : nat -> nat -> R) (i : nat) :
  (i < r)%nat -> nth i (mat_of r c F) [] = vec_of c (F i).
Proof.
  intros H. unfold mat_of.
  rewrite (nth_indep _ [] (vec_of c (F 0%nat))) by (now rewrite length_map, length_seq).
  rewrite (map_nth (fun i => vec_of c (F i)) (seq 0 r) 0%nat i). now rewrite seq_nth.
Qed.

Lemma entry_mat_of (r c : nat) (F : nat -> nat -> R) (i j : nat) :
  (i < r)%nat -> (j < c)%nat -> coeff (mat_of r c F) i j = F i j.
Proof. intros Hi Hj. unfold coeff. now rewrite nth_mat_of, nth_vec_of. Qed.

Lemma mat_of_ext (r c : nat) (F G : nat -> nat -> R) :
  (forall i j, (i < r)%nat -> (j < c)%nat -> F i j = G i j) ->
  mat_of r c F = mat_of r c G.
Proof.
  intros H. unfold mat_of. apply map_ext_in. intros i Hi. apply in_seq in Hi.
  apply vec_of_ext. intros j Hj. apply H; lia.
Qed.

Lemma wf_mat_of (r c : nat) (F : nat -> nat -> R) : wf (Mat c (mat_of r c F)).
Proof.
  simpl. apply Forall_forall. intros row Hrow. unfold mat_of in Hrow.
  apply in_map_iff in Hrow. destruct Hrow as [i [<- _]]. apply length_vec_of.
Qed.

(** A well-formed list of rows is the one given by its entries. *)
Lemma mat_of_entry (c : nat) (rows : list (list R)) :
  Forall (fun r => length r = c) rows -> rows = mat_of (length rows) c (coeff rows).
Proof.
  intros H. apply (nth_ext _ _ [] []).
  - now rewrite length_mat_of.
  - intros i Hi. rewrite nth_mat_of by assumption.
    rewrite Forall_forall in H.
    assert (Hl : length (nth i rows []) = c) by (apply H; now apply nth_In).
    rewrite (vec_of_nth (nth i rows [])) at 1. now rewrite Hl.
Qed.

Lemma column_mat_of (r c : nat) (F : nat -> nat -> R) (j : nat) :
  (j < c)%nat -> column j (mat_of r c F) = vec_of r (fun i => F i j).
Proof.
  intros H. unfold column, mat_of, vec_of. rewrite map_map.
  apply map_ext. intros i. now apply nth_map_seq.
Qed.

Lemma dotv_vec_of (n : nat) (g h : nat -> R) :
  dotv (vec_of n g) (vec_of n h) = big_sum n (fun j => g j * h j).
Proof.
  unfold vec_of, big_sum. generalize 0%nat as a. 
  induction n as [|n IH]; intros a; [reflexivity|].
  simpl. now rewrite IH.
Qed.

Lemma transpose_mat_of (r c : nat) (F : nat -> nat -> R) :
  transpose (Mat c (mat_of r c F)) = Mat r (mat_of c r (fun j i => F i j)).
Proof.
  unfold transpose. rewrite length_mat_of. f_equal.
  unfold mat_of at 2. apply map_ext_in. intros j Hj. apply in_seq in Hj.
  apply column_mat_of. lia.
Qed.

Lemma firstn_seq (K a n : nat) : firstn K (seq a n) = seq a (Nat.min K n).
Proof.
  revert a n. induction K as [|K IH]; intros a [|n]; try reflexivity.
  simpl. now rewrite IH.
Qed.

Lemma firstn_mat_of (K r c : nat) (F : nat -> nat -> R) :
  firstn K (mat_of r c F) = mat_of (Nat.min K r) c F.
Proof. unfold mat_of. now rewrite firstn_map, firstn_seq. Qed.

Lemma skipn_mat_of (k r c : nat) (F : nat -> nat -> R) :
  skipn k (mat_of r c F) = mat_of (r - k) c (fun i j => F (k + i)%nat j).
Proof.
  unfold mat_of. rewrite skipn_map, skipn_seq. simpl.
  rewrite (seq_add_map k (r - k)), map_map. reflexivity.
Qed.

Lemma map_firstn_mat_of (K r c : nat) (F : nat -> nat -> R) :
  map (firstn K) (mat_of r c F) = mat_of r (Nat.min K c) F.
Proof.
  unfold mat_of. rewrite map_map. apply map_ext. intros i.
  unfold vec_of. now rewrite firstn_map, firstn_seq.
Qed.

End Sums.

(** ** numpy operations on arrays given by their entries *)

Section ArrayOps.
Import Np.

Lemma dot_mat_vec (r c : nat) (F : nat -> nat -> R) (g : nat -> R) :
  dot (Mat c (mat_of r c F)) (Vec (vec_of c g))
  = Ok (Vec (vec_of r (fun i => big_sum c (fun j => F i j * g j)))).
Proof.
  unfold dot. rewrite length_vec_of, Nat.eqb_refl. do 2 f_equal.
  unfold mat_of. rewrite map_map. unfold vec_of at 3.
  apply map_ext. intros i. apply dotv_vec_of.
Qed.

Lemma dot_mat_mat (r c1 c2 : nat) (F G : nat -> nat -> R) :
  dot (Mat c1 (mat_of r c1 F)) (Mat c2 (mat_of c1 c2 G))
  = Ok (Mat c2 (mat_of r c2 (fun i j => big_sum c1 (fun k => F i k * G k j)))).
Proof.
  unfold dot. rewrite length_mat_of, Nat.eqb_refl. do 2 f_equal.
  unfold mat_of at 2 3. rewrite map_map. apply map_ext. intros i.
  unfold vec_of at 2. apply map_ext_in. intros j Hj. apply in_seq in Hj.
  rewrite column_mat_of by lia. apply dotv_vec_of.
Qed.

(** Inside its shape an array is read without stretching. *)
Lemma bget_entry (a : ndarray) (i j : nat) :
  (i < nrows a)%nat -> (j < ncols a)%nat -> bget a i j = coeff (rows_of a) i j.
Proof.
  intros Hi Hj. unfold bget, coeff.
  destruct (Nat.eqb_spec (ncols a) 1) as [Ec|Ec];
    destruct (Nat.eqb_spec (nrows a) 1) as [Er|Er];
    try (replace j with 0%nat by lia); try (replace i with 0%nat by lia);
    reflexivity.
Qed.

Lemma binop_vec_vec (op : R -> R -> R) (n : nat) (g h : nat -> R) :
  binop op (Vec (vec_of n g)) (Vec (vec_of n h))
  = Ok (Vec (vec_of n (fun j => op (g j) (h j)))).
Proof.
  unfold binop. cbn [nrows ncols ndim]. rewrite !length_vec_of, !bshape_same.
  cbn [Nat.max of_rows seq map nth]. do 2 f_equal.
  apply vec_of_ext. intros j Hj.
  rewrite !bget_entry by (simpl; rewrite ?length_vec_of; lia).
  unfold coeff. simpl. now rewrite !nth_vec_of.
Qed.

Lemma bshape_1_l (m : nat) : bshape 1 m = Some m.
Proof.
  unfold bshape. destruct (Nat.eqb_spec 1 m) as [<-|H]; reflexivity.
Qed.

Lemma bshape_1_r (m : nat) : bshape m 1 = Some m.
Proof.
  unfold bshape. destruct (Nat.eqb_spec m 1) as [->|H]; [reflexivity|].
  destruct (Nat.eqb_spec m 1); [contradiction | reflexivity].
Qed.

(** [s[..., np.newaxis] * a]: row [k] of [a] scaled by [s[k]]. *)
Lemma mul_column_vector (K M : nat) (sv : nat -> R) (F : nat -> nat -> R) :
  mul (ObjectiveFuns.column_vector (vec_of K sv)) (Mat M (mat_of K M F))
  = Ok (Mat M (mat_of K M (fun k i => sv k * F k i))).
Proof.
  unfold mul, binop, ObjectiveFuns.column_vector. cbn [nrows ncols ndim].
  rewrite length_map, length_vec_of, length_mat_of, bshape_same, bshape_1_l.
  cbn [Nat.max of_rows]. do 2 f_equal.
  unfold mat_of at 2. apply map_ext_in. intros k Hk. apply in_seq in Hk.
  apply vec_of_ext. intros i Hi.
  rewrite (bget_entry (Mat M (mat_of K M F)))
    by (cbn [nrows ncols]; rewrite ?length_mat_of; lia).
  cbn [rows_of]. rewrite entry_mat_of by lia. f_equal.
  unfold bget. cbn [nrows ncols rows_of Nat.eqb].
  rewrite length_map, length_vec_of.
  replace (if Nat.eqb K 1 then 0%nat else k) with k
    by (destruct (Nat.eqb_spec K 1); lia).
  rewrite (nth_indep _ [] [0]) by (rewrite length_map, length_vec_of; lia).
  rewrite (map_nth (fun x => [x]) (vec_of K sv) 0 k). simpl.
  apply nth_vec_of. lia.
Qed.

Lemma squeeze_vec (v : list R) :
  length v <> 1%nat -> squeeze (Vec v) = Vec v.
Proof. destruct v as [|a [|b' v]]; simpl; intros H; try reflexivity. lia. Qed.

Lemma squeeze_vec_1 (g : nat -> R) : squeeze (Vec (vec_of 1 g)) = Scalar (g 0%nat).
Proof. reflexivity. Qed.

End ArrayOps.

(** ** The constraint elimination in terms of entries *)

Section Eliminate.
Import Np ObjectiveFuns.

Lemma zip_with_map {T1 T2 T3 : Type} (h : T1 -> T2 -> T3) (g : T1 -> T2)
    (l : list T1) :
  zip_with h l (map g l) = map (fun x => h x (g x)) l.
Proof. induction l as [|a l IH]; simpl; [reflexivity | now rewrite IH]. Qed.

Variables (M N : nat) (U V : nat -> nat -> R) (S : nat -> R).

Let K := Nat.min M N.

(** The tolerance, the inverted singular values and the numerical rank that
    [eliminate] computes. *)
Definition tolerance (smax : R) : R := smax * (eps * INR (Nat.max M N)).

Definition inverted (tol : R) (k : nat) : R :=
  if Rgtb (S k) tol then 1 / S k else 0.

Definition numerical_rank (tol : R) : nat :=
  count_occ bool_dec (map (fun sk => Rgtb sk tol) (vec_of K S)) true.

Definition pinv_entry (tol : R) (j i : nat) : R :=
  big_sum K (fun k => V k j * (inverted tol k * U i k)).

Lemma numerical_rank_le (tol : R) : (numerical_rank tol <= K)%nat.
Proof.
  unfold numerical_rank.
  etransitivity; [apply count_occ_bound|].
  now rewrite length_map, length_vec_of.
Qed.

Lemma eliminate_entries (b : list R) (smax : R) (r : ndarray * ndarray * ndarray) :
  amax (vec_of K S) = Ok smax ->
  eliminate (Mat M (mat_of M M U)) (vec_of K S) (Mat N (mat_of N N V)) b = Ok r ->
  let tol := tolerance smax in
  let num := numerical_rank tol in
  length b = M
  /\ r = (Mat M (mat_of N M (pinv_entry tol)),
          Vec (vec_of N (fun j => big_sum M (fun i => pinv_entry tol j i * nth i b 0))),
          Mat (N - num) (mat_of N (N - num) (fun j c => V (num + c)%nat j))).
Proof.
  intros Ha He tol num. unfold eliminate in He.
  cbn [nrows ncols] in He. rewrite length_mat_of in He.
  fold K in He. rewrite Ha in He. cbn [bind] in He.
  fold (tolerance smax) in He. fold tol in He.
  fold (numerical_rank tol) in He. fold num in He.
  rewrite zip_with_map in He. unfold vec_of at 1 in He. rewrite map_map in He.
  change (map (fun x => if Rgtb (S x) tol then 1 / S x else 0) (seq 0 K))
    with (vec_of K (inverted tol)) in He.
  unfold cols_to, rows_to, rows_from in He. cbn [ncols rows_of] in He.
  rewrite map_firstn_mat_of, firstn_mat_of, skipn_mat_of in He.
  replace (Nat.min K M) with K in He by (unfold K; lia).
  replace (Nat.min K N) with K in He by (unfold K; lia).
  rewrite !transpose_mat_of in He.
  rewrite mul_column_vector in He. cbn [bind] in He.
  rewrite dot_mat_mat in He. cbn [bind] in He.
  unfold dot at 1 in He.
  destruct (Nat.eqb_spec M (length b)) as [Hl|Hl]; [|discriminate].
  split; [now symmetry|].
  cbn [bind] in He. injection He as <-. f_equal. f_equal. f_equal.
  unfold mat_of. rewrite map_map. unfold vec_of at 2.
  apply map_ext_in. intros j Hj.
  rewrite (vec_of_nth b) at 1. rewrite <- Hl. rewrite dotv_vec_of. reflexivity.
Qed.

End Eliminate.

(** ** The singular value decomposition and the built constraint data *)

(** What numpy documents for [u, s, vh = np.linalg.svd(A, full_matrices=True)]
    on a real [M x N] array: [u] is [M x M] and [vh] is [N x N], both
    orthogonal; [s] holds the [min(M, N)] singular values, none negative, in
    descending order; and [A = u @ diag(s) @ vh]. *)
Record svd_contract (A u : Np.ndarray) (sv : list R) (vh : Np.ndarray) : Prop :=
  mk_svd_contract {
  svd_A_2d : Np.ndim A = 2%nat;
  svd_A_wf : Np.wf A;
  svd_u_shape : Np.shape u = [Np.nrows A; Np.nrows A];
  svd_u_wf : Np.wf u;
  svd_vh_shape : Np.shape vh = [Np.ncols A; Np.ncols A];
  svd_vh_wf : Np.wf vh;
  svd_s_length : length sv = Nat.min (Np.nrows A) (Np.ncols A);
  svd_u_columns : forall k l, (k < Np.nrows A)%nat -> (l < Np.nrows A)%nat ->
    big_sum (Np.nrows A)
      (fun i => coeff (Np.rows_of u) i k * coeff (Np.rows_of u) i l) = Np.delta k l;
  svd_vh_rows : forall k l, (k < Np.ncols A)%nat -> (l < Np.ncols A)%nat ->
    big_sum (Np.ncols A)
      (fun j => coeff (Np.rows_of vh) k j * coeff (Np.rows_of vh) l j) = Np.delta k l;
  svd_vh_columns : forall j j', (j < Np.ncols A)%nat -> (j' < Np.ncols A)%nat ->
    big_sum (Np.ncols A)
      (fun k => coeff (Np.rows_of vh) k j * coeff (Np.rows_of vh) k j') = Np.delta j j';
  svd_factors : forall i j, (i < Np.nrows A)%nat -> (j < Np.ncols A)%nat ->
    coeff (Np.rows_of A) i j
    = big_sum (Nat.min (Np.nrows A) (Np.ncols A))
        (fun k => coeff (Np.rows_of u) i k * nth k sv 0 * coeff (Np.rows_of vh) k j);
  svd_sorted : forall k l, (k <= l)%nat -> (l < Nat.min (Np.nrows A) (Np.ncols A))%nat ->
    nth l sv 0 <= nth k sv 0;
  svd_nonneg : forall k, (k < Nat.min (Np.nrows A) (Np.ncols A))%nat -> 0 <= nth k sv 0
}.

Section BuiltState.
Import Np ObjectiveFuns.

Lemma array_of_shape (a : ndarray) (r c : nat) :
  shape a = [r; c] -> wf a -> a = Mat c (mat_of r c (coeff (rows_of a))).
Proof.
  destruct a as [x|v|c' rows]; simpl; intros Hs Hw; try discriminate.
  injection Hs as <- <-. f_equal. now apply mat_of_entry.
Qed.

Lemma array_2d (a : ndarray) :
  ndim a = 2%nat -> wf a ->
  a = Mat (ncols a) (mat_of (nrows a) (ncols a) (coeff (rows_of a))).
Proof.
  destruct a as [x|v|c' rows]; simpl; intros Hs Hw; try discriminate.
  f_equal. now apply mat_of_entry.
Qed.

Variable svd : ndarray -> ndarray * list R * ndarray.

(** What [_build_linear_constraints] stores. *)
Definition linear_data (s : ObjectiveFunction) : Prop :=
  match constraints s with
  | [] =>
      _y0 s = zeros1 (_dim_y s)
      /\ _Z s = eye (_dim_y s) (_dim_y s)
      /\ _dim_x s = _dim_y s
  | _ :: _ =>
      eliminate (fst (fst (svd (_A s)))) (snd (fst (svd (_A s)))) (snd (svd (_A s)))
                (_b s)
      = Ok (_Ainv s, _y0 s, _Z s)
      /\ _dim_x s = ncols (_Z s)
  end.

Lemma _build_linear_constraints_data (s s' : ObjectiveFunction) :
  _build_linear_constraints svd s = Ok s' ->
  linear_data s' /\ constraints s' = constraints s /\ _dim_y s' = _dim_y s.
Proof.
  unfold _build_linear_constraints, linear_data. intros H.
  apply bind_Ok in H. destruct H as [[A0 b0] [_ H]]. cbn [fst snd] in H.
  destruct (svd A0) as [[u sv] vh] eqn:Hsvd.
  destruct (constraints s) as [|c cs] eqn:Hc.
  - injection H as <-. cbn. rewrite Hc. repeat split.
  - apply bind_Ok in H. destruct H as [[[Ainv y0v] Zv] [He H]].
    injection H as <-. cbn. rewrite Hc, Hsvd. cbn. repeat split. exact He.
Qed.

(** A built [ObjectiveFunction] is marked built and holds that data. *)
Lemma OF_build_data (s0 s : ObjectiveFunction) (eq : Equilibrium.t) (use_jit : bool) :
  OF_build svd s0 eq use_jit = Ok s -> OF_built s = true /\ linear_data s.
Proof.
  unfold OF_build. intros H.
  apply bind_Ok in H. destruct H as [cs [_ H]].
  apply bind_Ok in H. destruct H as [os [_ H]].
  apply bind_Ok in H. destruct H as [s1 [_ H]].
  apply bind_Ok in H. destruct H as [s2 [H2 H]].
  injection H as <-. split; [reflexivity|].
  apply _build_linear_constraints_data in H2. destruct H2 as [Hd _].
  unfold linear_data in *. cbn. exact Hd.
Qed.

End BuiltState.

Section NullSpace.
Import Np ObjectiveFuns.

Lemma delta_sym (i j : nat) : delta i j = delta j i.
Proof. unfold delta. now rewrite Nat.eqb_sym. Qed.

Lemma delta_shift (k i j : nat) : delta (k + i) (k + j) = delta i j.
Proof.
  unfold delta.
  destruct (Nat.eqb_spec (k + i) (k + j)), (Nat.eqb_spec i j); try reflexivity; lia.
Qed.

Lemma repeat_vec_of (a : R) (n : nat) : repeat a n = vec_of n (fun _ => a).
Proof.
  unfold vec_of. generalize 0%nat as k.
  induction n as [|n IH]; intros k; [reflexivity|]. simpl. now rewrite <- IH.
Qed.

Lemma eliminate_amax (u : ndarray) (sv : list R) (vh : ndarray) (bv : list R)
    (r : ndarray * ndarray * ndarray) :
  eliminate u sv vh bv = Ok r -> exists smax, amax sv = Ok smax.
Proof.
  unfold eliminate. intros H. apply bind_Ok in H. destruct H as [smax [H _]]. eauto.
Qed.

Variable svd : ndarray -> ndarray * list R * ndarray.

(** The contract holds for the factors of the built [A]. *)
Definition svd_ok (s : ObjectiveFunction) : Prop :=
  svd_contract (_A s) (fst (fst (svd (_A s)))) (snd (fst (svd (_A s))))
               (snd (svd (_A s))).

(** The entries of the built data when there are constraints. *)
Lemma constrained_entries (s : ObjectiveFunction) :
  linear_data svd s -> constraints s <> [] -> svd_ok s ->
  exists smax,
    let M := nrows (_A s) in
    let N := ncols (_A s) in
    let V := coeff (rows_of (snd (svd (_A s)))) in
    let U := coeff (rows_of (fst (fst (svd (_A s))))) in
    let S := fun k => nth k (snd (fst (svd (_A s)))) 0 in
    let tol := tolerance M N smax in
    let num := numerical_rank M N S tol in
    amax (vec_of (Nat.min M N) S) = Ok smax
    /\ length (_b s) = M
    /\ _Z s = Mat (N - num) (mat_of N (N - num) (fun j c => V (num + c)%nat j))
    /\ _y0 s = Vec (vec_of N (fun j =>
                      big_sum M (fun i => pinv_entry M N U V S tol j i * nth i (_b s) 0)))
    /\ _dim_x s = (N - num)%nat.
Proof.
  unfold linear_data, svd_ok. intros Hd Hc Hsvd.
  destruct (constraints s) as [|c0 cs]; [contradiction|].
  destruct Hd as [He Hx].
  destruct (svd (_A s)) as [[u sv] vh]. cbn [fst snd] in *.
  destruct Hsvd as [_ _ Hus Huw Hvs Hvw Hsl _ _ _ _ _ _].
  destruct (eliminate_amax _ _ _ _ _ He) as [smax Ha].
  exists smax. cbv zeta.
  rewrite (array_of_shape u _ _ Hus Huw) in He.
  rewrite (array_of_shape vh _ _ Hvs Hvw) in He.
  rewrite (vec_of_nth sv) in He, Ha. rewrite Hsl in He, Ha.
  destruct (eliminate_entries _ _ _ _ _ _ _ _ Ha He) as [Hl Hr].
  injection Hr as _ Hy HZ.
  split; [exact Ha|]. split; [exact Hl|].
  split; [exact HZ|]. split; [exact Hy|].
  rewrite Hx, HZ. reflexivity.
Qed.

(** In either branch: [Z] has orthonormal columns [W c], and [y0] is a
    vector of as many entries as [Z] has rows. *)
Lemma null_space_form (s : ObjectiveFunction) :
  linear_data svd s -> (constraints s <> [] -> svd_ok s) ->
  exists (N d : nat) (W : nat -> nat -> R) (Y : nat -> R),
    _Z s = Mat d (mat_of N d (fun j c => W c j))
    /\ _y0 s = Vec (vec_of N Y)
    /\ _dim_x s = d
    /\ (forall c c', (c < d)%nat -> (c' < d)%nat ->
          big_sum N (fun j => W c j * W c' j) = delta c c').
Proof.
  intros Hd Hsvd.
  destruct (constraints s) as [|c0 cs] eqn:Hc.
  - unfold linear_data in Hd. rewrite Hc in Hd. destruct Hd as [Hy [HZ Hx]].
    exists (_dim_y s), (_dim_y s), (fun c j => delta j c), (fun _ => 0).
    repeat split; try assumption.
    + rewrite Hy. unfold zeros1. now rewrite repeat_vec_of.
    + intros c c' Hlt Hlt'. now rewrite big_sum_delta.
  - assert (Hne : constraints s <> []) by (rewrite Hc; discriminate).
    assert (Hok : svd_ok s) by (apply Hsvd; discriminate).
    destruct (constrained_entries s Hd Hne Hok)
      as [smax [_ [_ [HZ [Hy Hx]]]]].
    eexists _, _, (fun c j => coeff (rows_of (snd (svd (_A s)))) (_ + c)%nat j), _.
    split; [exact HZ|]. split; [exact Hy|]. split; [exact Hx|].
    intros c c' Hlt Hlt'.
    destruct Hok as [_ _ _ _ _ _ _ _ Hrows _ _ _ _].
    rewrite Hrows by lia. apply delta_shift.
Qed.

End NullSpace.

(** ** [project] and [recover] on a built objective function *)

Section RoundTrip.
Import Np ObjectiveFuns.

Variable s : ObjectiveFunction.
Variables (N d : nat) (W : nat -> nat -> R) (Y : nat -> R).

Hypothesis s_built : OF_built s = true.
Hypothesis s_Z : _Z s = Mat d (mat_of N d (fun j c => W c j)).
Hypothesis s_y0 : _y0 s = Vec (vec_of N Y).

(** [y0 + Z x] and [Z.T (y - y0)] by entries. *)
Definition recovered (X : nat -> R) (j : nat) : R :=
  Y j + big_sum d (fun c => W c j * X c).

Definition projected (g : nat -> R) (c : nat) : R :=
  big_sum N (fun j => W c j * (g j - Y j)).

Lemma recover_vec (X : nat -> R) :
  recover s (Vec (vec_of d X)) None = Ok (squeeze (Vec (vec_of N (recovered X)))).
Proof.
  unfold recover, default_y0, y0, Z, guarded. rewrite s_built. cbn [negb bind].
  rewrite s_y0, s_Z, dot_mat_vec. cbn [bind].
  unfold add. rewrite binop_vec_vec. reflexivity.
Qed.

Lemma sub_squeezed (g : nat -> R) :
  sub (squeeze (Vec (vec_of N g))) (Vec (vec_of N Y))
  = Ok (Vec (vec_of N (fun j => g j - Y j))).
Proof.
  destruct (Nat.eq_dec N 1) as [->|H]; [reflexivity|].
  rewrite squeeze_vec by (now rewrite length_vec_of).
  apply binop_vec_vec.
Qed.

Lemma project_squeezed (g : nat -> R) :
  project s (squeeze (Vec (vec_of N g))) None
  = Ok (squeeze (Vec (vec_of d (projected g)))).
Proof.
  unfold project, default_y0, y0, Z, guarded. rewrite s_built. cbn [negb bind].
  rewrite s_y0, sub_squeezed. cbn [bind].
  rewrite s_Z, transpose_mat_of, dot_mat_vec. reflexivity.
Qed.

Lemma project_vec (g : nat -> R) :
  project s (Vec (vec_of N g)) None = Ok (squeeze (Vec (vec_of d (projected g)))).
Proof.
  unfold project, default_y0, y0, Z, guarded. rewrite s_built. cbn [negb bind].
  rewrite s_y0. unfold sub. rewrite binop_vec_vec. cbn [bind].
  rewrite s_Z, transpose_mat_of, dot_mat_vec. reflexivity.
Qed.

(** [recover] of a 0-d array when [Z] has one column and at least two rows:
    [Z * x] keeps the shape [(N, 1)], and adding the vector [y0] broadcasts
    to [(N, N)]. *)
Lemma recover_scalar (x : R) :
  d = 1%nat -> (2 <= N)%nat ->
  recover s (Scalar x) None
  = Ok (Mat N (mat_of N N (fun i j => Y j + W 0%nat i * x))).
Proof.
  intros Hd HN. subst d.
  unfold recover, default_y0, y0, Z, guarded. rewrite s_built. cbn [negb bind].
  rewrite s_y0, s_Z. unfold dot, mul, binop. cbn [nrows ncols ndim].
  rewrite length_mat_of, bshape_1_r, bshape_same. cbn [Nat.max of_rows bind].
  unfold add, binop. cbn [nrows ncols ndim].
  rewrite length_vec_of, length_map, length_seq, bshape_1_l, bshape_1_r.
  cbn [Nat.max of_rows bind].
  assert (Hrows : map (fun i => map (fun j =>
                    bget (Vec (vec_of N Y)) i j
                    + bget (Mat 1 (map (fun i0 => map (fun j0 =>
                                 bget (Mat 1 (mat_of N 1 (fun j1 c => W c j1))) i0 j0
                                 * bget (Scalar x) i0 j0) (seq 0 1)) (seq 0 N))) i j)
                    (seq 0 N)) (seq 0 N)
                  = mat_of N N (fun i j => Y j + W 0%nat i * x)).
  { unfold mat_of. apply map_ext_in. intros i Hi. apply in_seq in Hi.
    apply vec_of_ext. intros j Hj.
    f_equal.
    - unfold bget. cbn [nrows ncols rows_of]. rewrite length_vec_of.
      destruct (Nat.eqb_spec N 1); [lia|]. cbn [Nat.eqb nth].
      now apply nth_vec_of.
    - unfold bget at 1. cbn [nrows ncols rows_of Nat.eqb].
      rewrite length_map, length_seq.
      destruct (Nat.eqb_spec N 1); [lia|].
      rewrite nth_map_seq by lia. cbn [seq map nth].
      f_equal.
      rewrite bget_entry
        by (cbn [nrows ncols]; rewrite ?length_mat_of, ?length_map, ?length_seq; lia).
      cbn [rows_of]. unfold coeff. rewrite nth_map_seq by lia.
      rewrite nth_vec_of by lia. reflexivity. }
  rewrite Hrows.
  destruct N as [|[|N']]; try lia. reflexivity.
Qed.

(** [recover(project(y))] when [project] returns a 1-D array. *)
Lemma recover_project_vec (g : nat -> R) :
  d <> 1%nat ->
  (forall j, (j < N)%nat -> recovered (projected g) j = g j) ->
  (x <- project s (Vec (vec_of N g)) None ;; recover s x None)
  = Ok (squeeze (Vec (vec_of N g))).
Proof.
  intros Hd H. rewrite project_vec. cbn [bind].
  rewrite squeeze_vec by (now rewrite length_vec_of).
  rewrite recover_vec. do 3 f_equal. apply vec_of_ext. exact H.
Qed.

(** The columns of [Z] are orthonormal. *)
Hypothesis W_orthonormal : forall c c', (c < d)%nat -> (c' < d)%nat ->
  big_sum N (fun j => W c j * W c' j) = delta c c'.

Lemma projected_recovered (X : nat -> R) (c : nat) :
  (c < d)%nat -> projected (recovered X) c = X c.
Proof.
  intros Hc. unfold projected, recovered.
  transitivity (big_sum N (fun j => big_sum d (fun c' => X c' * (W c j * W c' j)))).
  { apply big_sum_ext. intros j _.
    replace (Y j + big_sum d (fun c' => W c' j * X c') - Y j)
      with (big_sum d (fun c' => W c' j * X c')) by ring.
    rewrite <- big_sum_scal. apply big_sum_ext. intros c' _. ring. }
  rewrite big_sum_swap.
  transitivity (big_sum d (fun c' => delta c' c * X c')).
  { apply big_sum_ext. intros c' Hc'. rewrite big_sum_scal.
    rewrite W_orthonormal, (delta_sym c c') by assumption. ring. }
  now apply big_sum_delta.
Qed.

(** [project(recover(x))] for a 1-D [x] of [d] entries. *)
Lemma project_recover_vec (X : nat -> R) :
  (y <- recover s (Vec (vec_of d X)) None ;; project s y None)
  = Ok (squeeze (Vec (vec_of d X))).
Proof.
  rewrite recover_vec. cbn [bind]. rewrite project_squeezed. do 3 f_equal.
  apply vec_of_ext. intros c Hc. now apply projected_recovered.
Qed.

End RoundTrip.

(** ** The round trip through a single free variable *)

Section SingleFreeVariable.
Import Np ObjectiveFuns.

Variable svd : ndarray -> ndarray * list R * ndarray.

(** C2.  On a built [ObjectiveFunction] with [dim_x = 1] and a state vector
    of two or more entries, [project] returns a 0-d array, and [recover] of
    that array is not the state vector but a square matrix: entry [(i, j)]
    is [y0[j] + Z[i, 0] * x]. *)
Theorem recover_of_project_is_a_matrix
    (s0 s : ObjectiveFunction) (eq : Equilibrium.t) (use_jit : bool) (yv : list R) :
  OF_build svd s0 eq use_jit = Ok s ->
  (constraints s <> [] -> svd_ok svd s) ->
  _dim_x s = 1%nat ->
  shape (_y0 s) = [length yv] ->
  (2 <= length yv)%nat ->
  exists x,
    project s (Vec yv) None = Ok (Scalar x)
    /\ recover s (Scalar x) None
       = Ok (Mat (length yv)
               (mat_of (length yv) (length yv)
                  (fun i j => nth j (flatten (_y0 s)) 0
                              + coeff (rows_of (_Z s)) i 0 * x)))
    /\ (x' <- project s (Vec yv) None ;; recover s x' None) <> Ok (Vec yv).
Proof.
  intros Hb Hsvd Hx Hshape Hlen.
  destruct (OF_build_data svd _ _ _ _ Hb) as [Hbuilt Hd].
  destruct (null_space_form svd s Hd Hsvd) as [N [d [W [Y [HZ [Hy [Hdx _]]]]]]].
  assert (Hd1 : d = 1%nat) by congruence. clear Hdx. subst d.
  assert (HN : N = length yv).
  { rewrite Hy in Hshape. simpl in Hshape. rewrite length_vec_of in Hshape.
    now injection Hshape. }
  pose proof (project_vec s N 1 W Y Hbuilt HZ Hy (fun j => nth j yv 0)) as Hp.
  rewrite HN, <- vec_of_nth, squeeze_vec_1 in Hp. rewrite <- HN in Hp.
  pose proof (recover_scalar s N 1 W Y Hbuilt HZ Hy
                (projected N W Y (fun j => nth j yv 0) 0) eq_refl) as Hr.
  rewrite HN in Hr. specialize (Hr Hlen). rewrite <- HN in Hr.
  exists (projected N W Y (fun j => nth j yv 0) 0).
  split; [exact Hp|]. split.
  - rewrite Hr, <- HN. do 2 f_equal. apply mat_of_ext. intros i j Hi Hj.
    rewrite Hy, HZ. cbn [flatten rows_of concat]. rewrite app_nil_r.
    rewrite nth_vec_of by exact Hj. rewrite entry_mat_of by lia. reflexivity.
  - rewrite Hp. cbn [bind]. rewrite Hr. discriminate.
Qed.

(** X1.  [project(recover(x))] is [x] for every 1-D [x] of [dim_x] entries,
    up to the [squeeze] that turns a single entry into a 0-d array. *)
Theorem project_of_recover
    (s0 s : ObjectiveFunction) (eq : Equilibrium.t) (use_jit : bool) (xv : list R) :
  OF_build svd s0 eq use_jit = Ok s ->
  (constraints s <> [] -> svd_ok svd s) ->
  length xv = _dim_x s ->
  (y <- recover s (Vec xv) None ;; project s y None) = Ok (squeeze (Vec xv)).
Proof.
  intros Hb Hsvd Hlen.
  destruct (OF_build_data svd _ _ _ _ Hb) as [Hbuilt Hd].
  destruct (null_space_form svd s Hd Hsvd) as [N [d [W [Y [HZ [Hy [Hdx Horth]]]]]]].
  rewrite (vec_of_nth xv), Hlen, Hdx.
  now apply (project_recover_vec s N d W Y Hbuilt HZ Hy Horth).
Qed.

End SingleFreeVariable.

(** ** The algebra of the elimination *)

Section Counting.

(** A downward closed predicate on [0 .. n) holds exactly below the number
    of indices at which it holds. *)
Lemma count_prefix (p : nat -> bool) (n : nat) :
  (forall k l, (k <= l)%nat -> (l < n)%nat -> p l = true -> p k = true) ->
  forall k, (k < n)%nat ->
    (p k = true <-> (k < count_occ bool_dec (map p (seq 0 n)) true)%nat).
Proof.
  induction n as [|n IH]; intros Hp k Hk; [lia|].
  assert (Hb : (count_occ bool_dec (map p (seq 0 n)) true <= n)%nat).
  { etransitivity; [apply count_occ_bound|]. now rewrite length_map, length_seq. }
  assert (IH' : forall k, (k < n)%nat ->
            (p k = true <-> (k < count_occ bool_dec (map p (seq 0 n)) true)%nat)).
  { apply IH. intros a c Hac Hc. apply Hp; lia. }
  rewrite seq_S, map_app, count_occ_app. cbn [map count_occ Nat.add].
  destruct (p n) eqn:Hn.
  - destruct (bool_dec true true) as [_|Hf]; [|now elim Hf].
    split; intros _.
    + destruct n as [|n']; [lia|].
      assert (Hlast : (n' < count_occ bool_dec (map p (seq 0 (S n'))) true)%nat).
      { apply IH'; [lia|]. apply (Hp n' (S n')); [lia | lia | exact Hn]. }
      lia.
    + apply (Hp k n); [lia | lia | exact Hn].
  - destruct (bool_dec false true) as [Hf|_]; [discriminate|].
    rewrite Nat.add_0_r.
    destruct (Nat.eq_dec k n) as [->|Hne].
    + rewrite Hn. split; [discriminate | lia].
    + apply IH'. lia.
Qed.

End Counting.

Section FloatTests.
Import ObjectiveFuns.

Lemma Rgtb_true (x y : R) : Rgtb x y = true <-> y < x.
Proof.
  unfold Rgtb. destruct (Rlt_dec y x); split; intros H;
    try reflexivity; try assumption; try discriminate; contradiction.
Qed.

Lemma Rgtb_false (x y : R) : Rgtb x y = false <-> x <= y.
Proof.
  unfold Rgtb. destruct (Rlt_dec y x); split; intros H;
    try reflexivity; try discriminate; lra.
Qed.

Lemma eps_pos : 0 < eps.
Proof. unfold eps. apply Rinv_0_lt_compat, pow_lt. lra. Qed.

Lemma eps_small : eps <= / 4.
Proof.
  unfold eps. apply Rinv_le_contravar; [lra|].
  change 52%nat with (2 + 50)%nat. rewrite pow_add.
  assert (H : 1 <= 2 ^ 50) by (apply pow_R1_Rle; lra).
  replace (2 ^ 2) with 4 by (simpl; ring). lra.
Qed.

Lemma fold_Rmax_le (l : list R) (a : R) : a <= fold_left Rmax l a.
Proof.
  revert a. induction l as [|x l IH]; intros a; simpl; [lra|].
  etransitivity; [apply (Rmax_l a x) | apply IH].
Qed.

Lemma amax_first (a smax : R) (l : list R) : amax (a :: l) = Ok smax -> a <= smax.
Proof. simpl. intros H. injection H as <-. apply fold_Rmax_le. Qed.

End FloatTests.

Section Factors.
Import Np ObjectiveFuns.

Variables (M N : nat) (U V : nat -> nat -> R) (S : nat -> R).

Let K := Nat.min M N.

Hypothesis U_columns : forall k l, (k < M)%nat -> (l < M)%nat ->
  big_sum M (fun i => U i k * U i l) = delta k l.
Hypothesis V_rows : forall k l, (k < N)%nat -> (l < N)%nat ->
  big_sum N (fun j => V k j * V l j) = delta k l.
Hypothesis S_sorted : forall k l, (k <= l)%nat -> (l < K)%nat -> S l <= S k.

(** Entry [(i, j)] of [u @ diag(s) @ vh]. *)
Definition product_entry (i j : nat) : R :=
  big_sum K (fun k => U i k * S k * V k j).

Lemma big_sum_scal_r (n : nat) (c : R) (g : nat -> R) :
  big_sum n g * c = big_sum n (fun i => g i * c).
Proof.
  rewrite Rmult_comm, <- big_sum_scal. apply big_sum_ext. intros. ring.
Qed.

(** The singular values above the tolerance are the first [num] ones. *)
Lemma rank_prefix (tol : R) (k : nat) :
  (k < K)%nat -> (Rgtb (S k) tol = true <-> (k < numerical_rank M N S tol)%nat).
Proof.
  intros Hk. unfold numerical_rank, vec_of. rewrite map_map. fold K.
  apply (count_prefix (fun k => Rgtb (S k) tol)); [|exact Hk].
  intros a c Hac Hc H. apply Rgtb_true in H. apply Rgtb_true.
  specialize (S_sorted a c Hac Hc). lra.
Qed.

(** The product against a row of [vh]. *)
Lemma product_row (i l : nat) :
  (l < N)%nat ->
  big_sum N (fun j => product_entry i j * V l j)
  = if (l <? K)%nat then U i l * S l else 0.
Proof.
  intros Hl. unfold product_entry.
  transitivity (big_sum N (fun j => big_sum K (fun k => U i k * S k * (V k j * V l j)))).
  { apply big_sum_ext. intros j _. rewrite big_sum_scal_r.
    apply big_sum_ext. intros k _. ring. }
  rewrite big_sum_swap.
  transitivity (big_sum K (fun k => delta k l * (U i k * S k))).
  { apply big_sum_ext. intros k Hk. rewrite big_sum_scal.
    rewrite V_rows by (unfold K in Hk; lia). ring. }
  destruct (Nat.ltb_spec l K) as [H|H].
  - now rewrite big_sum_delta.
  - now rewrite big_sum_delta_out.
Qed.

Variable tol : R.

(** No singular value at or below the tolerance is other than zero. *)
Hypothesis exact_rank : forall k, (k < K)%nat -> S k <= tol -> S k = 0.

(** [A @ Z]: the product against the rows of [vh] from [num] on. *)
Lemma product_null_space (i c : nat) :
  (numerical_rank M N S tol + c < N)%nat ->
  big_sum N (fun j => product_entry i j * V (numerical_rank M N S tol + c) j) = 0.
Proof.
  intros Hc. rewrite product_row by exact Hc.
  destruct (Nat.ltb_spec (numerical_rank M N S tol + c) K) as [H|H]; [|reflexivity].
  rewrite (exact_rank _ H); [ring|].
  apply Rgtb_false.
  destruct (Rgtb (S (numerical_rank M N S tol + c)) tol) eqn:E; [|reflexivity].
  apply rank_prefix in E; [lia | exact H].
Qed.

Hypothesis tol_nonneg : 0 <= tol.

Lemma inverted_large (k : nat) :
  S k * inverted S tol k = if Rgtb (S k) tol then 1 else 0.
Proof.
  unfold inverted. destruct (Rgtb (S k) tol) eqn:E; [|ring].
  apply Rgtb_true in E. field. lra.
Qed.

Variables (B Yv : nat -> R).

(** Some [y] satisfies the constraints. *)
Hypothesis consistent : forall i, (i < M)%nat ->
  B i = big_sum N (fun j => product_entry i j * Yv j).

Let C (k : nat) : R := big_sum N (fun j => V k j * Yv j).

Lemma consistent_target (i : nat) :
  (i < M)%nat -> B i = big_sum K (fun k => U i k * S k * C k).
Proof.
  intros Hi. rewrite (consistent i Hi). unfold product_entry.
  transitivity (big_sum N (fun j => big_sum K (fun k => U i k * S k * (V k j * Yv j)))).
  { apply big_sum_ext. intros j _. rewrite big_sum_scal_r.
    apply big_sum_ext. intros k _. ring. }
  rewrite big_sum_swap. apply big_sum_ext. intros k _.
  rewrite big_sum_scal. reflexivity.
Qed.

Lemma left_factor_of_target (k : nat) :
  (k < K)%nat -> big_sum M (fun m => U m k * B m) = S k * C k.
Proof.
  intros Hk.
  transitivity (big_sum M (fun m => big_sum K (fun k' => S k' * C k' * (U m k * U m k')))).
  { apply big_sum_ext. intros m Hm. rewrite (consistent_target m Hm).
    rewrite <- big_sum_scal. apply big_sum_ext. intros k' _. ring. }
  rewrite big_sum_swap.
  transitivity (big_sum K (fun k' => delta k' k * (S k' * C k'))).
  { apply big_sum_ext. intros k' Hk'. rewrite big_sum_scal.
    rewrite U_columns by (unfold K in Hk, Hk'; lia). rewrite (delta_sym k k'). ring. }
  now rewrite big_sum_delta.
Qed.

(** [y0 = Ainv @ b] by entries. *)
Definition particular (j : nat) : R :=
  big_sum M (fun m => pinv_entry M N U V S tol j m * B m).

Lemma particular_entries (j : nat) :
  particular j = big_sum K (fun k => V k j * (inverted S tol k * (S k * C k))).
Proof.
  unfold particular, pinv_entry. fold K.
  transitivity (big_sum M (fun m => big_sum K (fun k =>
                  V k j * inverted S tol k * (U m k * B m)))).
  { apply big_sum_ext. intros m _. rewrite big_sum_scal_r.
    apply big_sum_ext. intros k _. ring. }
  rewrite big_sum_swap. apply big_sum_ext. intros k Hk.
  rewrite big_sum_scal, left_factor_of_target by exact Hk. ring.
Qed.

(** [A @ y0 = b] *)
Lemma product_particular (i : nat) :
  (i < M)%nat -> big_sum N (fun j => product_entry i j * particular j) = B i.
Proof.
  intros Hi.
  transitivity (big_sum N (fun j => big_sum K (fun k =>
                  inverted S tol k * (S k * C k) * (product_entry i j * V k j)))).
  { apply big_sum_ext. intros j _. rewrite particular_entries.
    rewrite <- big_sum_scal. apply big_sum_ext. intros k _. ring. }
  rewrite big_sum_swap, (consistent_target i Hi).
  apply big_sum_ext. intros k Hk.
  rewrite big_sum_scal, product_row by (unfold K in Hk; lia).
  destruct (Nat.ltb_spec k K) as [_|H]; [|lia].
  transitivity (U i k * S k * C k * (S k * inverted S tol k)); [ring|].
  rewrite inverted_large.
  destruct (Rgtb (S k) tol) eqn:E; [ring|].
  apply Rgtb_false in E. rewrite (exact_rank k Hk E). ring.
Qed.

Hypothesis V_columns : forall j j', (j < N)%nat -> (j' < N)%nat ->
  big_sum N (fun k => V k j * V k j') = delta j j'.

(** [vh @ y0]: the rows of [vh] against the particular solution. *)
Lemma particular_row (l : nat) :
  (l < N)%nat ->
  big_sum N (fun j => V l j * particular j)
  = if (l <? K)%nat then inverted S tol l * (S l * C l) else 0.
Proof.
  intros Hl.
  transitivity (big_sum N (fun j => big_sum K (fun k =>
                  inverted S tol k * (S k * C k) * (V l j * V k j)))).
  { apply big_sum_ext. intros j _. rewrite particular_entries.
    rewrite <- big_sum_scal. apply big_sum_ext. intros k _. ring. }
  rewrite big_sum_swap.
  transitivity (big_sum K (fun k => delta k l * (inverted S tol k * (S k * C k)))).
  { apply big_sum_ext. intros k Hk. rewrite big_sum_scal.
    rewrite V_rows, (delta_sym l k) by (unfold K in Hk; lia). ring. }
  destruct (Nat.ltb_spec l K) as [H|H].
  - now rewrite big_sum_delta.
  - now rewrite big_sum_delta_out.
Qed.

(** The particular solution is spanned by the first [num] rows of [vh]. *)
Lemma particular_prefix (j : nat) :
  particular j = big_sum (numerical_rank M N S tol) (fun k => V k j * C k).
Proof.
  rewrite particular_entries.
  pose proof (numerical_rank_le M N S tol) as Hle. fold K in Hle.
  replace K with (numerical_rank M N S tol + (K - numerical_rank M N S tol))%nat
    at 1 by lia.
  rewrite big_sum_split.
  rewrite (big_sum_zero (K - numerical_rank M N S tol)).
  - rewrite Rplus_0_r. apply big_sum_ext. intros k Hk.
    transitivity (V k j * (S k * inverted S tol k) * C k); [ring|].
    rewrite inverted_large.
    assert (E : Rgtb (S k) tol = true) by (apply rank_prefix; lia).
    rewrite E. ring.
  - intros k Hk. unfold inverted.
    destruct (Rgtb (S (numerical_rank M N S tol + k)) tol) eqn:E; [|ring].
    apply rank_prefix in E; lia.
Qed.

Lemma big_sum_minus (n : nat) (g h : nat -> R) :
  big_sum n (fun i => g i - h i) = big_sum n g - big_sum n h.
Proof.
  induction n as [|n IH]; [rewrite !big_sum_0; ring|].
  rewrite !big_sum_S, IH. ring.
Qed.

(** [y0 + Z @ (Z.T @ (y - y0))] is [y] when [A @ y = b]. *)
Lemma recovered_projected_feasible (j : nat) :
  (j < N)%nat ->
  particular j
  + big_sum (N - numerical_rank M N S tol)
      (fun c => V (numerical_rank M N S tol + c) j
                * big_sum N (fun j' => V (numerical_rank M N S tol + c) j'
                                       * (Yv j' - particular j')))
  = Yv j.
Proof.
  intros Hj.
  pose proof (numerical_rank_le M N S tol) as Hle. fold K in Hle.
  assert (HKN : (K <= N)%nat) by (unfold K; lia).
  transitivity (big_sum (numerical_rank M N S tol) (fun k => V k j * C k)
                + big_sum (N - numerical_rank M N S tol)
                    (fun c => V (numerical_rank M N S tol + c) j
                              * C (numerical_rank M N S tol + c))).
  { rewrite particular_prefix. f_equal.
    apply big_sum_ext. intros c Hc. f_equal.
    transitivity (big_sum N (fun j' => V (numerical_rank M N S tol + c) j' * Yv j'
                                       - V (numerical_rank M N S tol + c) j'
                                         * particular j')).
    { apply big_sum_ext. intros j' _. ring. }
    rewrite big_sum_minus, particular_row by lia. fold (C (numerical_rank M N S tol + c)).
    destruct (Nat.ltb_spec (numerical_rank M N S tol + c) K) as [H|H]; [|ring].
    unfold inverted.
    destruct (Rgtb (S (numerical_rank M N S tol + c)) tol) eqn:E; [|ring].
    apply rank_prefix in E; lia. }
  rewrite <- (big_sum_split (numerical_rank M N S tol) (N - numerical_rank M N S tol)
                (fun k => V k j * C k)).
  replace (numerical_rank M N S tol + (N - numerical_rank M N S tol))%nat
    with N by lia.
  unfold C.
  transitivity (big_sum N (fun k => big_sum N (fun j' => Yv j' * (V k j * V k j')))).
  { apply big_sum_ext. intros k _. rewrite <- big_sum_scal.
    apply big_sum_ext. intros j' _. ring. }
  rewrite big_sum_swap.
  transitivity (big_sum N (fun j' => delta j' j * Yv j')).
  { apply big_sum_ext. intros j' Hj'. rewrite big_sum_scal.
    rewrite V_columns, (delta_sym j j') by assumption. ring. }
  now apply big_sum_delta.
Qed.

End Factors.

(** ** The artifacts of the constraint elimination *)

Section Artifacts.
Import Np ObjectiveFuns.

Lemma repeat_map_seq {T : Type} (a : T) (n k : nat) :
  repeat a n = map (fun _ => a) (seq k n).
Proof.
  revert k. induction n as [|n IH]; intros k; [reflexivity|].
  simpl. now rewrite <- IH.
Qed.

Lemma zeros_mat_of (r c : nat) : zeros r c = Mat c (mat_of r c (fun _ _ => 0)).
Proof.
  unfold zeros, mat_of. f_equal.
  rewrite (repeat_map_seq _ r 0). apply map_ext. intros _. apply repeat_vec_of.
Qed.

(** The two products, for arrays given by the entries that [eliminate]
    computes from the factors. *)
Lemma artifacts_of_entries (M N : nat) (U V : nat -> nat -> R) (S : nat -> R)
    (tol : R) (A Zm y0v : ndarray) (bv : list R) :
  (forall k l, (k < M)%nat -> (l < M)%nat ->
     big_sum M (fun i => U i k * U i l) = delta k l) ->
  (forall k l, (k < N)%nat -> (l < N)%nat ->
     big_sum N (fun j => V k j * V l j) = delta k l) ->
  (forall k l, (k <= l)%nat -> (l < Nat.min M N)%nat -> S l <= S k) ->
  (forall k, (k < Nat.min M N)%nat -> S k <= tol -> S k = 0) ->
  0 <= tol ->
  A = Mat N (mat_of M N (product_entry M N U V S)) ->
  Zm = Mat (N - numerical_rank M N S tol)
         (mat_of N (N - numerical_rank M N S tol)
            (fun j c => V (numerical_rank M N S tol + c)%nat j)) ->
  y0v = Vec (vec_of N (particular M N U V S tol (fun i => nth i bv 0))) ->
  length bv = M ->
  dot A Zm = Ok (zeros M (N - numerical_rank M N S tol))
  /\ (forall yv, dot A (Vec yv) = Ok (Vec bv) -> dot A y0v = Ok (Vec bv)).
Proof.
  intros HU HV Hsorted Hexact Htol -> -> -> Hb. split.
  - rewrite dot_mat_mat, zeros_mat_of. do 2 f_equal.
    apply mat_of_ext. intros i c Hi Hc.
    apply (product_null_space M N U V S HV Hsorted tol Hexact). lia.
  - intros yv Hyv.
    assert (Hlen : length yv = N).
    { unfold dot in Hyv. destruct (Nat.eqb_spec N (length yv)); [easy | discriminate]. }
    rewrite (vec_of_nth yv), Hlen, dot_mat_vec in Hyv.
    injection Hyv as Hyv.
    rewrite dot_mat_vec. do 2 f_equal.
    transitivity (vec_of M (fun i => nth i bv 0));
      [|rewrite <- Hb; symmetry; apply vec_of_nth].
    apply vec_of_ext. intros i Hi.
    apply (product_particular M N U V S HU HV tol Hexact Htol
             (fun i => nth i bv 0) (fun j => nth j yv 0)); [|exact Hi].
    intros m Hm. rewrite <- Hyv. now rewrite nth_vec_of.
Qed.

Variable svd : ndarray -> ndarray * list R * ndarray.

(** The tolerance below which [_build_linear_constraints] drops a singular
    value of the built [A]. *)
Definition dropped_below (s : ObjectiveFunction) (smax : R) : R :=
  tolerance (nrows (_A s)) (ncols (_A s)) smax.

(** Every singular value of the built [A] at or below the tolerance is
    zero. *)
Definition exact_rank_of (s : ObjectiveFunction) : Prop :=
  forall smax k,
    amax (snd (fst (svd (_A s)))) = Ok smax ->
    (k < length (snd (fst (svd (_A s)))))%nat ->
    nth k (snd (fst (svd (_A s)))) 0 <= dropped_below s smax ->
    nth k (snd (fst (svd (_A s)))) 0 = 0.

Lemma tolerance_nonneg (M N : nat) (sv : list R) (smax : R) :
  amax sv = Ok smax -> 0 <= nth 0 sv 0 -> 0 <= tolerance M N smax.
Proof.
  intros Ha H0. destruct sv as [|a l]; [discriminate|].
  apply amax_first in Ha. simpl in H0. unfold tolerance.
  apply Rmult_le_pos; [lra|].
  apply Rmult_le_pos; [apply Rlt_le, eps_pos | apply pos_INR].
Qed.

(** C3, amended.  An [ObjectiveFunction] built with at least one constraint,
    from factors that meet the contract of [np.linalg.svd] and with no
    non-zero singular value at or below the tolerance, has [A @ Z] equal to
    the zero matrix; and if some [y] satisfies [A @ y == b], then
    [A @ y0 == b]. *)
Theorem consistent_constraints_are_eliminated
    (s0 s : ObjectiveFunction) (eq : Equilibrium.t) (use_jit : bool) :
  OF_build svd s0 eq use_jit = Ok s ->
  constraints s <> [] ->
  svd_ok svd s ->
  exact_rank_of s ->
  dot (_A s) (_Z s) = Ok (zeros (nrows (_A s)) (_dim_x s))
  /\ (forall yv, dot (_A s) (Vec yv) = Ok (Vec (_b s)) ->
        dot (_A s) (_y0 s) = Ok (Vec (_b s))).
Proof.
  intros Hb Hc Hok Hex.
  destruct (OF_build_data svd _ _ _ _ Hb) as [_ Hd].
  destruct (constrained_entries svd s Hd Hc Hok) as [smax [Ha [Hl [HZ [Hy Hx]]]]].
  unfold svd_ok in Hok. unfold exact_rank_of, dropped_below in Hex.
  destruct (svd (_A s)) as [[u sv] vh]. cbn [fst snd] in *.
  destruct Hok as [H2d Hwf Hus Huw Hvs Hvw Hsl HUc HVr HVc Hfac Hsort Hnn].
  rewrite <- Hsl, <- vec_of_nth in Ha.
  rewrite Hx.
  apply (artifacts_of_entries (nrows (_A s)) (ncols (_A s))
           (coeff (rows_of u)) (coeff (rows_of vh)) (fun k => nth k sv 0)
           (tolerance (nrows (_A s)) (ncols (_A s)) smax)).
  - exact HUc.
  - exact HVr.
  - exact Hsort.
  - intros k Hk. apply (Hex smax k Ha). now rewrite Hsl.
  - apply (tolerance_nonneg _ _ sv smax Ha).
    destruct sv as [|a l]; [simpl; lra|].
    apply (Hnn 0%nat). rewrite <- Hsl. simpl. lia.
  - rewrite (array_2d (_A s) H2d Hwf) at 1. f_equal.
    apply mat_of_ext. intros i j Hi Hj. now apply Hfac.
  - exact HZ.
  - exact Hy.
  - exact Hl.
Qed.

End Artifacts.

(** ** The round trip on the states that satisfy the constraints *)

Section FeasibleStates.
Import Np ObjectiveFuns.

Lemma feasible_entries (M N : nat) (F : nat -> nat -> R) (yv bv : list R) :
  dot (Mat N (mat_of M N F)) (Vec yv) = Ok (Vec bv) ->
  length yv = N
  /\ forall i, (i < M)%nat -> nth i bv 0 = big_sum N (fun j => F i j * nth j yv 0).
Proof.
  intros H.
  assert (Hlen : length yv = N).
  { unfold dot in H. destruct (Nat.eqb_spec N (length yv)); [easy | discriminate]. }
  split; [exact Hlen|].
  rewrite (vec_of_nth yv), Hlen, dot_mat_vec in H. injection H as H.
  intros i Hi. rewrite <- H. now rewrite nth_vec_of by exact Hi.
Qed.

Variable svd : ndarray -> ndarray * list R * ndarray.

(** X2.  [recover(project(y))] is [y] for every 1-D [y] of the shape of
    [y0] that satisfies [A @ y == b], unless [dim_x] is 1; a single entry
    comes back as a 0-d array. *)
Theorem recover_of_project_on_feasible_states
    (s0 s : ObjectiveFunction) (eq : Equilibrium.t) (use_jit : bool) (yv : list R) :
  OF_build svd s0 eq use_jit = Ok s ->
  (constraints s <> [] -> svd_ok svd s) ->
  _dim_x s <> 1%nat ->
  shape (_y0 s) = [length yv] ->
  (constraints s <> [] -> dot (_A s) (Vec yv) = Ok (Vec (_b s))) ->
  (x <- project s (Vec yv) None ;; recover s x None) = Ok (squeeze (Vec yv)).
Proof.
  intros Hb Hsvd Hx1 Hshape Hfeas.
  destruct (OF_build_data svd _ _ _ _ Hb) as [Hbuilt Hd].
  destruct (constraints s) as [|c0 cs] eqn:Hc.
  - unfold linear_data in Hd. rewrite Hc in Hd. destruct Hd as [Hy [HZ Hx]].
    unfold zeros1 in Hy. rewrite repeat_vec_of in Hy.
    assert (HN : length yv = _dim_y s).
    { rewrite Hy in Hshape. simpl in Hshape. rewrite length_vec_of in Hshape.
      now injection Hshape. }
    rewrite (vec_of_nth yv), HN.
    apply (recover_project_vec s (_dim_y s) (_dim_y s) (fun c j => delta j c)
             (fun _ => 0) Hbuilt HZ Hy); [congruence|].
    intros j Hj. unfold recovered, projected.
    transitivity (0 + big_sum (_dim_y s) (fun c => delta c j * (nth c yv 0 - 0))).
    { f_equal. apply big_sum_ext. intros c Hc'.
      rewrite (big_sum_delta (_dim_y s) c (fun j' => nth j' yv 0 - 0)) by exact Hc'.
      now rewrite (delta_sym j c). }
    rewrite big_sum_delta by exact Hj. ring.
  - assert (Hne : constraints s <> []) by (rewrite Hc; discriminate).
    rewrite <- Hc in *. clear Hc c0 cs.
    specialize (Hsvd Hne). specialize (Hfeas Hne).
    destruct (constrained_entries svd s Hd Hne Hsvd) as [smax [Ha [Hl [HZ [Hy Hx]]]]].
    unfold svd_ok in Hsvd.
    destruct (svd (_A s)) as [[u sv] vh]. cbn [fst snd] in *.
    destruct Hsvd as [H2d Hwf Hus Huw Hvs Hvw Hsl HUc HVr HVc Hfac Hsort Hnn].
    rewrite <- Hsl, <- vec_of_nth in Ha.
    rewrite (array_2d (_A s) H2d Hwf) in Hfeas.
    destruct (feasible_entries _ _ _ _ _ Hfeas) as [HN Hent].
    rewrite (vec_of_nth yv), HN.
    apply (recover_project_vec s (ncols (_A s)) _ _ _ Hbuilt HZ Hy); [congruence|].
    intros j Hj.
    apply (recovered_projected_feasible (nrows (_A s)) (ncols (_A s))
             (coeff (rows_of u)) (coeff (rows_of vh)) (fun k => nth k sv 0)
             HUc HVr Hsort _
             (tolerance_nonneg _ _ sv smax Ha
                ltac:(destruct sv as [|a l];
                      [simpl; lra | apply (Hnn 0%nat); rewrite <- Hsl; simpl; lia]))
             (fun i => nth i (_b s) 0) (fun j => nth j yv 0)); [|exact HVc|exact Hj].
    intros i Hi. rewrite (Hent i Hi).
    apply big_sum_ext. intros j' Hj'. f_equal. now apply Hfac.
Qed.

End FeasibleStates.

(** ** Concrete objective functions *)

Ltac eval_arrays :=
  cbn -[Rplus Rminus Rmult Rdiv Rinv Ropp IZR INR Rmax Rabs pow sqrt
        ObjectiveFuns.eliminate ObjectiveFuns.Rgtb ObjectiveFuns.eps].

(** An equilibrium with a single boundary mode. *)
Definition one_mode_basis : Basis.t := Basis.mk [(0, 0, 0)%Z] 1.

Definition one_mode_surface : Surface.t :=
  Surface.mk 0 0 0 one_mode_basis one_mode_basis [10] [2].

Definition one_mode_eq : Equilibrium.t :=
  Equilibrium.mk one_mode_basis one_mode_basis one_mode_basis one_mode_surface
                 (Profile.mk [0]) (Profile.mk [1]) 1.

(** A [FixedPsi] object with the affine engine, before and after [build]. *)
Definition psi_self (target weight : R) : LinearObjectives.FixedPsi.t :=
  LinearObjectives.FixedPsi.init [Some target] [weight].

Definition fixed_psi (target weight : R) : ObjectiveFuns.object :=
  ObjectiveFuns.mkObject _ (LinearObjectives.FixedPsi.class affine_engine)
    (psi_self target weight).

Definition built_psi_self (target weight : R) : LinearObjectives.FixedPsi.t :=
  Eval lazy -[Rplus Rminus Rmult Rdiv Rinv Ropp IZR INR Rmax Rabs pow sqrt
              Req_dec_T Rlt_dec] in
  match LinearObjectives.FixedPsi.build affine_engine one_mode_eq true
          (psi_self target weight) with
  | Ok o => o
  | Raise _ => psi_self target weight
  end.

Definition built_psi (target weight : R) : ObjectiveFuns.object :=
  ObjectiveFuns.mkObject _ (LinearObjectives.FixedPsi.class affine_engine)
    (built_psi_self target weight).

Lemma build_fixed_psi (target weight : R) :
  ObjectiveFuns.obj_build (fixed_psi target weight) one_mode_eq true
  = Ok (built_psi target weight).
Proof.
  lazy -[Rplus Rminus Rmult Rdiv Rinv Ropp IZR INR Rmax Rabs pow sqrt
         Req_dec_T Rlt_dec].
  reflexivity.
Qed.

(** A [FixedBoundaryZ] object that fixes every mode of the surface. *)
Definition boundary_Z_self : LinearObjectives.FixedBoundaryZ.t :=
  LinearObjectives.FixedBoundaryZ.init [None] [1] None LinearObjectives.ModesTrue.

Definition fixed_boundary_Z : ObjectiveFuns.object :=
  ObjectiveFuns.mkObject _ (LinearObjectives.FixedBoundaryZ.class affine_engine)
    boundary_Z_self.

Definition built_boundary_Z_self : LinearObjectives.FixedBoundaryZ.t :=
  Eval lazy -[Rplus Rminus Rmult Rdiv Rinv Ropp IZR INR Rmax Rabs pow sqrt
              Req_dec_T Rlt_dec] in
  match LinearObjectives.FixedBoundaryZ.build affine_engine one_mode_eq true
          boundary_Z_self with
  | Ok o => o
  | Raise _ => boundary_Z_self
  end.

Definition built_boundary_Z : ObjectiveFuns.object :=
  ObjectiveFuns.mkObject _ (LinearObjectives.FixedBoundaryZ.class affine_engine)
    built_boundary_Z_self.

Lemma build_boundary_Z :
  ObjectiveFuns.obj_build fixed_boundary_Z one_mode_eq true = Ok built_boundary_Z.
Proof.
  lazy -[Rplus Rminus Rmult Rdiv Rinv Ropp IZR INR Rmax Rabs pow sqrt
         Req_dec_T Rlt_dec].
  reflexivity.
Qed.

(** The first singular value passes the test against the tolerance. *)
Lemma first_is_large (a : R) (n : nat) :
  0 < a -> (n <= 2)%nat ->
  ObjectiveFuns.Rgtb a (a * (ObjectiveFuns.eps * INR n)) = true.
Proof.
  intros Ha Hn. apply Rgtb_true.
  assert (H : ObjectiveFuns.eps * INR n <= / 2).
  { pose proof eps_pos. pose proof eps_small.
    destruct n as [|[|[|n]]]; try lia; simpl INR; lra. }
  nra.
Qed.

(** Factors of [A = [[3], [4]]]. *)
Definition svd_3_4 (A : Np.ndarray) : Np.ndarray * list R * Np.ndarray :=
  (Np.Mat 2 [[3 / 5; - 4 / 5]; [4 / 5; 3 / 5]], [5], Np.Mat 1 [[1]]).

Lemma two_constraints_on_Psi (t1 t2 : R) :
  exists s,
    ObjectiveFuns.OF_build svd_3_4
      (ObjectiveFuns.OF_init [fixed_psi 0 1] [fixed_psi t1 3; fixed_psi t2 4] true)
      one_mode_eq true = Ok s
    /\ ObjectiveFuns.OF_built s = true
    /\ ObjectiveFuns.constraints s = [built_psi t1 3; built_psi t2 4]
    /\ ObjectiveFuns._A s = Np.Mat 1 [[3]; [4]]
    /\ ObjectiveFuns._b s = [t1; t2]
    /\ ObjectiveFuns._y0 s = Np.Vec [3 / 25 * t1 + 4 / 25 * t2]
    /\ ObjectiveFuns._Z s = Np.Mat 0 [[]]
    /\ ObjectiveFuns._dim_x s = 0%nat.
Proof.
  unfold ObjectiveFuns.OF_build, ObjectiveFuns.build_all, ObjectiveFuns.OF_init.
  cbn [ObjectiveFuns.constraints ObjectiveFuns.objectives ObjectiveFuns.foldM].
  cbn [ObjectiveFuns.linear ObjectiveFuns.cls fixed_psi
       LinearObjectives.FixedPsi.class andb negb].
  fold (fixed_psi t1 3). fold (fixed_psi t2 4). fold (fixed_psi 0 1).
  rewrite !build_fixed_psi. cbn [bind fst snd app].
  eval_arrays. unfold ObjectiveFuns._build_linear_constraints. eval_arrays.
  unfold ObjectiveFuns.eliminate. eval_arrays.
  rewrite (first_is_large 5 2) by (lra || lia). eval_arrays.
  eexists. split; [reflexivity|].
  cbn [ObjectiveFuns.constraints ObjectiveFuns._A ObjectiveFuns._b ObjectiveFuns._y0
       ObjectiveFuns._Z ObjectiveFuns._dim_x ObjectiveFuns.OF_built
       ObjectiveFuns.with_linear ObjectiveFuns.with_state_vector].
  repeat split.
  - do 2 f_equal; [|f_equal]; f_equal; ring.
  - do 2 f_equal. field.
Qed.

(** The factors meet the contract. *)
Ltac small_indices :=
  repeat match goal with
         | H : (_ < _)%nat |- _ => progress cbn in H
         | H : (_ <= _)%nat |- _ => progress cbn in H
         end;
  repeat match goal with
         | k : nat |- _ => destruct k as [|[|[|k]]]; try lia
         end;
  unfold big_sum, coeff, Np.delta;
  cbn -[Rplus Rminus Rmult Rdiv Rinv Ropp IZR];
  try lra.

Lemma svd_3_4_contract :
  svd_contract (Np.Mat 1 [[3]; [4]])
    (Np.Mat 2 [[3 / 5; - 4 / 5]; [4 / 5; 3 / 5]]) [5] (Np.Mat 1 [[1]]).
Proof.
  constructor; try reflexivity; try solve [simpl; repeat constructor];
    intros; small_indices.
Qed.

(** Factors of [A = [[0, 1]]]. *)
Definition svd_0_1 (A : Np.ndarray) : Np.ndarray * list R * Np.ndarray :=
  (Np.Mat 1 [[1]], [1], Np.Mat 2 [[0; 1]; [1; 0]]).

Lemma svd_0_1_contract :
  svd_contract (Np.Mat 2 [[0; 1]]) (Np.Mat 1 [[1]]) [1] (Np.Mat 2 [[0; 1]; [1; 0]]).
Proof.
  constructor; try reflexivity; try solve [simpl; repeat constructor];
    intros; small_indices.
Qed.

(** One constraint on [Psi] and an objective on the boundary: two state
    variables, [Zb_lmn[0]] and [Psi], and one free variable. *)
Lemma one_free_variable (t : R) :
  exists s,
    ObjectiveFuns.OF_build svd_0_1
      (ObjectiveFuns.OF_init [fixed_boundary_Z] [fixed_psi t 1] true)
      one_mode_eq true = Ok s
    /\ ObjectiveFuns.OF_built s = true
    /\ ObjectiveFuns.constraints s = [built_psi t 1]
    /\ ObjectiveFuns._A s = Np.Mat 2 [[0; 1]]
    /\ ObjectiveFuns._b s = [t]
    /\ ObjectiveFuns._y0 s = Np.Vec [0; t]
    /\ ObjectiveFuns._Z s = Np.Mat 1 [[1]; [0]]
    /\ ObjectiveFuns._dim_x s = 1%nat
    /\ ObjectiveFuns._dim_y s = 2%nat.
Proof.
  unfold ObjectiveFuns.OF_build, ObjectiveFuns.build_all, ObjectiveFuns.OF_init.
  cbn [ObjectiveFuns.constraints ObjectiveFuns.objectives ObjectiveFuns.foldM].
  cbn [ObjectiveFuns.linear ObjectiveFuns.cls fixed_psi fixed_boundary_Z
       LinearObjectives.FixedPsi.class LinearObjectives.FixedBoundaryZ.class
       andb negb].
  fold fixed_boundary_Z. fold (fixed_psi t 1).
  rewrite build_fixed_psi, build_boundary_Z. cbn [bind fst snd app].
  eval_arrays. unfold ObjectiveFuns._build_linear_constraints. eval_arrays.
  unfold ObjectiveFuns.eliminate. eval_arrays.
  rewrite (first_is_large 1 2) by (lra || lia). eval_arrays.
  eexists. split; [reflexivity|].
  cbn [ObjectiveFuns.constraints ObjectiveFuns._A ObjectiveFuns._b ObjectiveFuns._y0
       ObjectiveFuns._Z ObjectiveFuns._dim_x ObjectiveFuns._dim_y
       ObjectiveFuns.OF_built ObjectiveFuns.with_linear
       ObjectiveFuns.with_state_vector].
  repeat split.
  - do 4 f_equal. ring.
  - do 2 f_equal; [|f_equal]; field.
Qed.

(** The same test for a matrix with three columns. *)
Lemma first_is_large_of_three (a : R) (n : nat) :
  0 < a -> (n <= 3)%nat ->
  ObjectiveFuns.Rgtb a (a * (ObjectiveFuns.eps * INR n)) = true.
Proof.
  intros Ha Hn. apply Rgtb_true.
  assert (H : ObjectiveFuns.eps * INR n <= 3 / 4).
  { pose proof eps_pos. pose proof eps_small.
    destruct n as [|[|[|[|n]]]]; try lia; simpl INR; lra. }
  nra.
Qed.

(** On the equilibrium with two boundary modes: a [FixedBoundaryZ] object
    that fixes the first of them, and a [FixedPsi] object. *)
Definition first_mode_self : LinearObjectives.FixedBoundaryZ.t :=
  LinearObjectives.FixedBoundaryZ.init [None] [1] None
    (LinearObjectives.ModesArray [(0, 0, 0)%Z]).

Definition fixed_first_mode : ObjectiveFuns.object :=
  ObjectiveFuns.mkObject _ (LinearObjectives.FixedBoundaryZ.class affine_engine)
    first_mode_self.

Definition built_first_mode_self : LinearObjectives.FixedBoundaryZ.t :=
  Eval lazy -[Rplus Rminus Rmult Rdiv Rinv Ropp IZR INR Rmax Rabs pow sqrt
              Req_dec_T Rlt_dec] in
  match LinearObjectives.FixedBoundaryZ.build affine_engine example_eq true
          first_mode_self with
  | Ok o => o
  | Raise _ => first_mode_self
  end.

Definition built_first_mode : ObjectiveFuns.object :=
  ObjectiveFuns.mkObject _ (LinearObjectives.FixedBoundaryZ.class affine_engine)
    built_first_mode_self.

Lemma build_first_mode :
  ObjectiveFuns.obj_build fixed_first_mode example_eq true = Ok built_first_mode.
Proof.
  lazy -[Rplus Rminus Rmult Rdiv Rinv Ropp IZR INR Rmax Rabs pow sqrt
         Req_dec_T Rlt_dec].
  reflexivity.
Qed.

Definition built_psi_two_modes_self (target weight : R) : LinearObjectives.FixedPsi.t :=
  Eval lazy -[Rplus Rminus Rmult Rdiv Rinv Ropp IZR INR Rmax Rabs pow sqrt
              Req_dec_T Rlt_dec] in
  match LinearObjectives.FixedPsi.build affine_engine example_eq true
          (psi_self target weight) with
  | Ok o => o
  | Raise _ => psi_self target weight
  end.

Definition built_psi_two_modes (target weight : R) : ObjectiveFuns.object :=
  ObjectiveFuns.mkObject _ (LinearObjectives.FixedPsi.class affine_engine)
    (built_psi_two_modes_self target weight).

Lemma build_fixed_psi_two_modes (target weight : R) :
  ObjectiveFuns.obj_build (fixed_psi target weight) example_eq true
  = Ok (built_psi_two_modes target weight).
Proof.
  lazy -[Rplus Rminus Rmult Rdiv Rinv Ropp IZR INR Rmax Rabs pow sqrt
         Req_dec_T Rlt_dec].
  reflexivity.
Qed.

(** Factors of [A = [[0, 0, 1]]]. *)
Definition svd_0_0_1 (A : Np.ndarray) : Np.ndarray * list R * Np.ndarray :=
  (Np.Mat 1 [[1]], [1], Np.Mat 3 [[0; 0; 1]; [1; 0; 0]; [0; 1; 0]]).

Lemma svd_0_0_1_contract :
  svd_contract (Np.Mat 3 [[0; 0; 1]]) (Np.Mat 1 [[1]]) [1]
    (Np.Mat 3 [[0; 0; 1]; [1; 0; 0]; [0; 1; 0]]).
Proof.
  constructor; try reflexivity; try solve [simpl; repeat constructor];
    intros; small_indices.
Qed.

(** One constraint on [Psi] and an objective on the boundary with two modes:
    three state variables, [Zb_lmn[0]], [Zb_lmn[1]] and [Psi], and two free
    variables. *)
Lemma two_free_variables (t : R) :
  exists s,
    ObjectiveFuns.OF_build svd_0_0_1
      (ObjectiveFuns.OF_init [fixed_first_mode] [fixed_psi t 1] true)
      example_eq true = Ok s
    /\ ObjectiveFuns.OF_built s = true
    /\ ObjectiveFuns.constraints s = [built_psi_two_modes t 1]
    /\ ObjectiveFuns._A s = Np.Mat 3 [[0; 0; 1]]
    /\ ObjectiveFuns._b s = [t]
    /\ ObjectiveFuns._y0 s = Np.Vec [0; 0; t]
    /\ ObjectiveFuns._Z s = Np.Mat 2 [[1; 0]; [0; 1]; [0; 0]]
    /\ ObjectiveFuns._dim_x s = 2%nat
    /\ ObjectiveFuns._dim_y s = 3%nat.
Proof.
  unfold ObjectiveFuns.OF_build, ObjectiveFuns.build_all, ObjectiveFuns.OF_init.
  cbn [ObjectiveFuns.constraints ObjectiveFuns.objectives ObjectiveFuns.foldM].
  cbn [ObjectiveFuns.linear ObjectiveFuns.cls fixed_psi fixed_first_mode
       LinearObjectives.FixedPsi.class LinearObjectives.FixedBoundaryZ.class
       andb negb].
  fold fixed_first_mode. fold (fixed_psi t 1).
  rewrite build_fixed_psi_two_modes, build_first_mode. cbn [bind fst snd app].
  eval_arrays. unfold ObjectiveFuns._build_linear_constraints. eval_arrays.
  unfold ObjectiveFuns.eliminate. eval_arrays.
  rewrite (first_is_large_of_three 1 3) by (lra || lia). eval_arrays.
  eexists. split; [reflexivity|].
  cbn [ObjectiveFuns.constraints ObjectiveFuns._A ObjectiveFuns._b ObjectiveFuns._y0
       ObjectiveFuns._Z ObjectiveFuns._dim_x ObjectiveFuns._dim_y
       ObjectiveFuns.OF_built ObjectiveFuns.with_linear
       ObjectiveFuns.with_state_vector].
  repeat split.
  - do 2 f_equal. repeat (f_equal; try ring).
  - f_equal. repeat (f_equal; try field).
Qed.

(** Factors of [A = [[1, 0], [0, 2**52]]]. *)
Definition svd_1_big (A : Np.ndarray) : Np.ndarray * list R * Np.ndarray :=
  (Np.Mat 2 [[0; 1]; [1; 0]], [2 ^ 52; 1], Np.Mat 2 [[0; 1]; [1; 0]]).

Lemma big_weight : 1 <= 2 ^ 52.
Proof. apply pow_R1_Rle. lra. Qed.

(** With the largest singular value [2**52] the tolerance is 2. *)
Lemma tolerance_of_big_weight : 2 ^ 52 * (ObjectiveFuns.eps * INR 2) = 2.
Proof.
  unfold ObjectiveFuns.eps. simpl INR. pose proof big_weight. field; lra.
Qed.

(** The boundary mode fixed with weight 1 and [Psi] fixed with weight
    [2**52]. *)
Lemma dropped_constraint :
  exists s,
    ObjectiveFuns.OF_build svd_1_big
      (ObjectiveFuns.OF_init [fixed_psi 0 1] [fixed_boundary_Z; fixed_psi 0 (2 ^ 52)] true)
      one_mode_eq true = Ok s
    /\ ObjectiveFuns.OF_built s = true
    /\ ObjectiveFuns.constraints s = [built_boundary_Z; built_psi 0 (2 ^ 52)]
    /\ ObjectiveFuns._A s = Np.Mat 2 [[1; 0]; [0; 2 ^ 52]]
    /\ ObjectiveFuns._b s = [1; 0]
    /\ ObjectiveFuns._y0 s = Np.Vec [0; 0]
    /\ ObjectiveFuns._Z s = Np.Mat 1 [[1]; [0]]
    /\ ObjectiveFuns._dim_x s = 1%nat.
Proof.
  unfold ObjectiveFuns.OF_build, ObjectiveFuns.build_all, ObjectiveFuns.OF_init.
  cbn [ObjectiveFuns.constraints ObjectiveFuns.objectives ObjectiveFuns.foldM].
  cbn [ObjectiveFuns.linear ObjectiveFuns.cls fixed_psi fixed_boundary_Z
       LinearObjectives.FixedPsi.class LinearObjectives.FixedBoundaryZ.class
       andb negb].
  fold fixed_boundary_Z. fold (fixed_psi 0 (2 ^ 52)). fold (fixed_psi 0 1).
  rewrite !build_fixed_psi, build_boundary_Z. cbn [bind fst snd app].
  eval_arrays. unfold ObjectiveFuns._build_linear_constraints. eval_arrays.
  unfold ObjectiveFuns.eliminate. eval_arrays.
  pose proof big_weight as Hbig.
  rewrite (Rmax_left (2 ^ 52) 1) by exact Hbig.
  rewrite tolerance_of_big_weight.
  assert (H1 : ObjectiveFuns.Rgtb (2 ^ 52) 2 = true).
  { apply Rgtb_true. change 52%nat with (2 + 50)%nat. rewrite pow_add.
    assert (1 <= 2 ^ 50) by (apply pow_R1_Rle; lra).
    replace (2 ^ 2) with 4 by (simpl; ring). nra. }
  assert (H2 : ObjectiveFuns.Rgtb 1 2 = false) by (apply Rgtb_false; lra).
  rewrite H1, H2. eval_arrays.
  eexists. split; [reflexivity|].
  cbn [ObjectiveFuns.constraints ObjectiveFuns._A ObjectiveFuns._b ObjectiveFuns._y0
       ObjectiveFuns._Z ObjectiveFuns._dim_x ObjectiveFuns._dim_y
       ObjectiveFuns.OF_built ObjectiveFuns.with_linear
       ObjectiveFuns.with_state_vector].
  repeat split.
  - f_equal; repeat (f_equal; try ring).
  - f_equal; repeat (f_equal; try (field; lra)).
Qed.

Lemma svd_1_big_contract :
  svd_contract (Np.Mat 2 [[1; 0]; [0; 2 ^ 52]]) (Np.Mat 2 [[0; 1]; [1; 0]])
    [2 ^ 52; 1] (Np.Mat 2 [[0; 1]; [1; 0]]).
Proof.
  pose proof big_weight as Hbig.
  constructor; try reflexivity; try solve [simpl; repeat constructor];
    intros; small_indices.
Qed.

(** ** The round trip and the elimination on concrete objective functions *)

Section Cases.
Import Np ObjectiveFuns.

Lemma exact_rank_3_4 (s : ObjectiveFunction) :
  _A s = Mat 1 [[3]; [4]] -> exact_rank_of svd_3_4 s.
Proof.
  intros HA smax k. unfold dropped_below, tolerance. rewrite HA.
  cbn [svd_3_4 fst snd nrows ncols length Nat.max amax fold_left].
  intros Ha Hk Hle. injection Ha as <-.
  destruct k as [|k]; [|simpl in Hk; lia]. cbn [nth] in *.
  pose proof eps_pos. pose proof eps_small. simpl INR in Hle. nra.
Qed.

Lemma exact_rank_0_1 (s : ObjectiveFunction) :
  _A s = Mat 2 [[0; 1]] -> exact_rank_of svd_0_1 s.
Proof.
  intros HA smax k. unfold dropped_below, tolerance. rewrite HA.
  cbn [svd_0_1 fst snd nrows ncols length Nat.max amax fold_left].
  intros Ha Hk Hle. injection Ha as <-.
  destruct k as [|k]; [|simpl in Hk; lia]. cbn [nth] in *.
  pose proof eps_pos. pose proof eps_small. simpl INR in Hle. nra.
Qed.

Lemma exact_rank_0_0_1 (s : ObjectiveFunction) :
  _A s = Mat 3 [[0; 0; 1]] -> exact_rank_of svd_0_0_1 s.
Proof.
  intros HA smax k. unfold dropped_below, tolerance. rewrite HA.
  cbn [svd_0_0_1 fst snd nrows ncols length Nat.max amax fold_left].
  intros Ha Hk Hle. injection Ha as <-.
  destruct k as [|k]; [|simpl in Hk; lia]. cbn [nth] in *.
  pose proof eps_pos. pose proof eps_small. simpl INR in Hle. nra.
Qed.

(** The state vector [[5, 7]] satisfies the constraint [Psi = 7]; it is
    projected to the 0-d array [5], and that is recovered as the matrix
    [[[5, 12], [0, 7]]]. *)
Lemma recover_of_project_witness :
  exists s,
    OF_build svd_0_1 (OF_init [fixed_boundary_Z] [fixed_psi 7 1] true)
      one_mode_eq true = Ok s
    /\ dot (_A s) (Vec [5; 7]) = Ok (Vec (_b s))
    /\ project s (Vec [5; 7]) None = Ok (Scalar 5)
    /\ recover s (Scalar 5) None = Ok (Mat 2 [[5; 12]; [0; 7]])
    /\ exists x,
         project s (Vec [5; 7]) None = Ok (Scalar x)
         /\ recover s (Scalar x) None
            = Ok (Mat 2 (mat_of 2 2
                    (fun i j => nth j (flatten (_y0 s)) 0
                                + coeff (rows_of (_Z s)) i 0 * x)))
         /\ (x' <- project s (Vec [5; 7]) None ;; recover s x' None)
            <> Ok (Vec [5; 7]).
Proof.
  destruct (one_free_variable 7) as [s [Hb [Hbuilt [Hc [HA [Hbv [Hy [HZ [Hx Hdy]]]]]]]]].
  exists s. split; [exact Hb|]. split; [|split; [|split]].
  - rewrite HA, Hbv. cbn [dot length Nat.eqb map dotv]. do 3 f_equal. ring.
  - unfold project, default_y0, y0, Z, guarded. rewrite Hbuilt, Hy, HZ.
    eval_arrays. do 2 f_equal. ring.
  - unfold recover, default_y0, y0, Z, guarded. rewrite Hbuilt, Hy, HZ.
    eval_arrays. do 2 f_equal.
    repeat (f_equal; try ring).
  - apply (recover_of_project_is_a_matrix svd_0_1 _ s one_mode_eq true [5; 7] Hb).
    + intros _. unfold svd_ok. rewrite HA. exact svd_0_1_contract.
    + exact Hx.
    + rewrite Hy. reflexivity.
    + simpl. lia.
Defined.

(** C3: two objective functions whose factors meet the contract.
    In the first, no state satisfies the two constraints [3 Psi = 0] and
    [4 Psi = 1]; the only singular value is above the tolerance, yet
    [A @ y0] is [[12/25, 16/25]] where [b] is [[0, 1]].
    In the second, the constraints [Zb_lmn[0] = 1] (weight 1) and [Psi = 0]
    (weight [2**52]) are satisfied by the state [[1, 0]], but the singular
    value 1 is not above the tolerance 2: the first constraint is dropped,
    [A @ Z] is [[[1], [0]]] and not the zero matrix, and [A @ y0] is
    [[0, 0]] where [b] is [[1, 0]].  Each difference is far above [1e-8]. *)
Lemma constraint_elimination_counterexample :
  (exists s,
     OF_build svd_3_4 (OF_init [fixed_psi 0 1] [fixed_psi 0 3; fixed_psi 1 4] true)
       one_mode_eq true = Ok s
     /\ constraints s <> []
     /\ svd_ok svd_3_4 s
     /\ exact_rank_of svd_3_4 s
     /\ _b s = [0; 1]
     /\ dot (_A s) (_y0 s) = Ok (Vec [12 / 25; 16 / 25])
     /\ / 10 ^ 8 * (1 + Rabs 0) < Rabs (12 / 25 - 0))
  /\ (exists s,
        OF_build svd_1_big
          (OF_init [fixed_psi 0 1] [fixed_boundary_Z; fixed_psi 0 (2 ^ 52)] true)
          one_mode_eq true = Ok s
        /\ constraints s <> []
        /\ svd_ok svd_1_big s
        /\ _b s = [1; 0]
        /\ dot (_A s) (Vec [1; 0]) = Ok (Vec (_b s))
        /\ dot (_A s) (_Z s) = Ok (Mat 1 [[1]; [0]])
        /\ / 10 ^ 8 < Rabs (1 - 0)
        /\ dot (_A s) (_y0 s) = Ok (Vec [0; 0])
        /\ / 10 ^ 8 * (1 + Rabs 1) < Rabs (0 - 1)).
Proof.
  assert (Hsmall : / 10 ^ 8 <= / 10).
  { apply Rinv_le_contravar; [lra|].
    change 8%nat with (1 + 7)%nat. rewrite pow_add.
    assert (1 <= 10 ^ 7) by (apply pow_R1_Rle; lra).
    replace (10 ^ 1) with 10 by (simpl; ring). nra. }
  split.
  - destruct (two_constraints_on_Psi 0 1)
      as [s [Hb [Hbuilt [Hc [HA [Hbv [Hy [HZ Hx]]]]]]]].
    exists s. split; [exact Hb|].
    split; [rewrite Hc; discriminate|].
    split; [unfold svd_ok; rewrite HA; exact svd_3_4_contract|].
    split; [now apply exact_rank_3_4|].
    split; [exact Hbv|]. split.
    + rewrite HA, Hy. cbn [dot length Nat.eqb map dotv]. do 2 f_equal.
      repeat (f_equal; try field).
    + rewrite Rabs_R0, Rabs_pos_eq by lra. lra.
  - destruct dropped_constraint as [s [Hb [Hbuilt [Hc [HA [Hbv [Hy [HZ Hx]]]]]]]].
    exists s. split; [exact Hb|].
    split; [rewrite Hc; discriminate|].
    split; [unfold svd_ok; rewrite HA; exact svd_1_big_contract|].
    split; [exact Hbv|].
    split; [|split; [|split; [|split]]].
    + rewrite HA, Hbv. cbn [dot length Nat.eqb map dotv]. do 2 f_equal.
      repeat (f_equal; try ring).
    + rewrite HA, HZ. eval_arrays. do 2 f_equal.
      repeat (f_equal; try ring).
    + replace (1 - 0) with 1 by ring. rewrite Rabs_R1. lra.
    + rewrite HA, Hy. cbn [dot length Nat.eqb map dotv]. do 2 f_equal.
      repeat (f_equal; try ring).
    + replace (0 - 1) with (- (1)) by ring. rewrite Rabs_Ropp, Rabs_R1. lra.
Qed.

(** The constraint [Psi = 7] alone: [A @ Z] is the zero matrix and
    [A @ y0] is [b]. *)
Lemma consistent_constraints_witness :
  exists s,
    OF_build svd_0_1 (OF_init [fixed_boundary_Z] [fixed_psi 7 1] true)
      one_mode_eq true = Ok s
    /\ dot (_A s) (_Z s) = Ok (zeros (nrows (_A s)) (_dim_x s))
    /\ dot (_A s) (_y0 s) = Ok (Vec (_b s)).
Proof.
  destruct (one_free_variable 7) as [s [Hb [Hbuilt [Hc [HA [Hbv [Hy [HZ [Hx Hdy]]]]]]]]].
  exists s. split; [exact Hb|].
  assert (Hne : constraints s <> []) by (rewrite Hc; discriminate).
  assert (Hok : svd_ok svd_0_1 s)
    by (unfold svd_ok; rewrite HA; exact svd_0_1_contract).
  destruct (consistent_constraints_are_eliminated svd_0_1 _ s one_mode_eq true
              Hb Hne Hok (exact_rank_0_1 s HA)) as [H1 H2].
  split; [exact H1|].
  apply (H2 [5; 7]).
  rewrite HA, Hbv. cbn [dot length Nat.eqb map dotv]. do 3 f_equal. ring.
Defined.

(** The free variable [[5]] is recovered as the state [[5, 7]] and
    projected back to the 0-d array [5]. *)
Lemma project_of_recover_witness :
  exists s,
    OF_build svd_0_1 (OF_init [fixed_boundary_Z] [fixed_psi 7 1] true)
      one_mode_eq true = Ok s
    /\ recover s (Vec [5]) None = Ok (Vec [5; 7])
    /\ (y <- recover s (Vec [5]) None ;; project s y None) = Ok (Scalar 5).
Proof.
  destruct (one_free_variable 7) as [s [Hb [Hbuilt [Hc [HA [Hbv [Hy [HZ [Hx Hdy]]]]]]]]].
  exists s. split; [exact Hb|]. split.
  - unfold recover, default_y0, y0, Z, guarded. rewrite Hbuilt, Hy, HZ.
    eval_arrays. do 2 f_equal. repeat (f_equal; try ring).
  - apply (project_of_recover svd_0_1 _ s one_mode_eq true [5] Hb).
    + intros _. unfold svd_ok. rewrite HA. exact svd_0_1_contract.
    + now rewrite Hx.
Defined.

(** Three state variables and two free ones: the state [[5, 6, 7]]
    satisfies the constraint [Psi = 7], is projected to [[5, 6]] and comes
    back as [[5, 6, 7]]. *)
Lemma recover_of_project_on_feasible_states_witness :
  exists s,
    OF_build svd_0_0_1 (OF_init [fixed_first_mode] [fixed_psi 7 1] true)
      example_eq true = Ok s
    /\ _dim_x s = 2%nat
    /\ dot (_A s) (Vec [5; 6; 7]) = Ok (Vec (_b s))
    /\ project s (Vec [5; 6; 7]) None = Ok (Vec [5; 6])
    /\ (x <- project s (Vec [5; 6; 7]) None ;; recover s x None)
       = Ok (Vec [5; 6; 7]).
Proof.
  destruct (two_free_variables 7)
    as [s [Hb [Hbuilt [Hc [HA [Hbv [Hy [HZ [Hx Hdy]]]]]]]]].
  assert (Hfeas : dot (_A s) (Vec [5; 6; 7]) = Ok (Vec (_b s))).
  { rewrite HA, Hbv. cbn [dot length Nat.eqb map dotv]. do 2 f_equal.
    repeat (f_equal; try ring). }
  exists s. split; [exact Hb|]. split; [exact Hx|]. split; [exact Hfeas|]. split.
  - unfold project, default_y0, y0, Z, guarded. rewrite Hbuilt, Hy, HZ.
    eval_arrays. do 2 f_equal; repeat (f_equal; try ring).
  - apply (recover_of_project_on_feasible_states svd_0_0_1 _ s example_eq true
             [5; 6; 7] Hb).
    + intros _. unfold svd_ok. rewrite HA. exact svd_0_0_1_contract.
    + rewrite Hx. discriminate.
    + rewrite Hy. reflexivity.
    + intros _. exact Hfeas.
Defined.

End Cases.

(** ** The rank-one update of the Broyden Jacobian *)

Section BroydenUpdate.
Import Np Derivatives Derivatives.BroydenJacobian.

Lemma binop_mat_mat (op : R -> R -> R) (r c : nat) (F G : nat -> nat -> R) :
  binop op (Mat c (mat_of r c F)) (Mat c (mat_of r c G))
  = Ok (Mat c (mat_of r c (fun i j => op (F i j) (G i j)))).
Proof.
  unfold binop. cbn [nrows ncols ndim]. rewrite !length_mat_of, !bshape_same.
  cbn [Nat.max of_rows]. do 2 f_equal.
  apply mat_of_ext. intros i j Hi Hj.
  rewrite !bget_entry by (simpl; rewrite ?length_mat_of; lia).
  cbn [rows_of]. now rewrite !entry_mat_of.
Qed.

Lemma sum_square_vec (n : nat) (g : nat -> R) :
  sum (square (Vec (vec_of n g))) = big_sum n (fun j => g j * g j).
Proof.
  unfold sum, square, flatten, big_sum, vec_of. cbn [map_nd rows_of concat].
  now rewrite app_nil_r, map_map.
Qed.

Lemma big_sum_nonneg (n : nat) (g : nat -> R) :
  (forall i, (i < n)%nat -> 0 <= g i) -> 0 <= big_sum n g.
Proof.
  intros H. induction n as [|n IH]; [rewrite big_sum_0; lra|].
  rewrite big_sum_S.
  assert (0 <= big_sum n g) by (apply IH; intros; apply H; lia).
  assert (0 <= g n) by (apply H; lia). lra.
Qed.

(** [step ** 2] is the sum of the squares of [dx]. *)
Lemma norm_squared (n : nat) (g : nat -> R) :
  norm (Vec (vec_of n g)) * norm (Vec (vec_of n g)) = big_sum n (fun j => g j * g j).
Proof.
  unfold norm. rewrite sum_square_vec. apply sqrt_sqrt.
  apply big_sum_nonneg. intros i _. nra.
Qed.

Context {Extra : Type}.
Variable s : BroydenJacobian.t Extra.
Variable x : list R.
Variable args : Extra.
Variables (m n : nat) (Jf : nat -> nat -> R).

Hypothesis J_entries : J s = Mat n (mat_of m n Jf).
Hypothesis x1_length : length (x1 s) = n.
Hypothesis x_length : length x = n.
Hypothesis f1_length : length (f1 s) = m.
Hypothesis fx_length : length (fn s x args) = m.

(** The step, the change of the residual and the prediction of the stored
    Jacobian, by entries. *)
Definition step_entry (j : nat) : R := nth j x 0 - nth j (x1 s) 0.

Definition residual_change (r : nat) : R := nth r (fn s x args) 0 - nth r (f1 s) 0.

Definition predicted_change (r : nat) : R := big_sum n (fun k => Jf r k * step_entry k).

Definition step_norm : R := norm (Vec (vec_of n step_entry)).

Definition updated_entry (r j : nat) : R :=
  Jf r j
  + (residual_change r - predicted_change r) / (step_norm * step_norm) * step_entry j.

Lemma step_vector : sub (Vec x) (Vec (x1 s)) = Ok (Vec (vec_of n step_entry)).
Proof.
  rewrite (vec_of_nth x) at 1. rewrite (vec_of_nth (x1 s)) at 1.
  rewrite x_length, x1_length. apply binop_vec_vec.
Qed.

Hypothesis minstep_positive : 0 < minstep s.
Hypothesis large_step : ~ step_norm < minstep s.

Lemma step_squared_nonzero : big_sum n (fun j => step_entry j * step_entry j) <> 0.
Proof.
  rewrite <- norm_squared. fold step_norm.
  assert (0 < step_norm) by lra. nra.
Qed.

(** What [compute] returns after a step that is not below a positive
    [minstep]. *)
Lemma compute_updates_entries :
  snd (compute s x args) = Ok (Mat n (mat_of m n updated_entry)).
Proof.
  rewrite (compute_large_step s x args _ step_vector large_step).
  unfold updated_J. cbn [f1 f0 J evaluate advance fn].
  rewrite (vec_of_nth (fn s x args)), (vec_of_nth (f1 s)), fx_length, f1_length.
  unfold sub at 1. rewrite binop_vec_vec. cbn [bind].
  rewrite J_entries, dot_mat_vec. cbn [bind].
  unfold sub. rewrite binop_vec_vec. cbn [bind].
  unfold true_divide. fold step_norm.
  destruct (Req_dec_T (step_norm * step_norm) 0) as [Hz|_].
  { exfalso. apply step_squared_nonzero. rewrite <- norm_squared. exact Hz. }
  cbn [bind].
  unfold div_scalar, outer_nd, outer, vec_of. cbn [map_nd bind].
  rewrite !map_map, length_map, length_seq.
  unfold iadd, add.
  match goal with
  | |- context [binop Rplus _ (Mat n ?rows)] =>
      replace rows
        with (mat_of m n (fun r j =>
                (residual_change r - predicted_change r) / (step_norm * step_norm)
                * step_entry j))
        by (unfold mat_of, vec_of; apply map_ext; intros r; now rewrite map_map)
  end.
  rewrite binop_mat_mat. cbn [bind Np.shape]. rewrite !length_mat_of.
  destruct (list_eq_dec Nat.eq_dec [m; n] [m; n]) as [_|Hne]; [|now elim Hne].
  reflexivity.
Qed.

(** The updated Jacobian applied to any vector. *)
Lemma updated_applied (v : nat -> R) (r : nat) :
  big_sum n (fun j => updated_entry r j * v j)
  = big_sum n (fun j => Jf r j * v j)
    + (residual_change r - predicted_change r) / (step_norm * step_norm)
      * big_sum n (fun j => step_entry j * v j).
Proof.
  unfold updated_entry. rewrite <- big_sum_scal, <- big_sum_plus.
  apply big_sum_ext. intros j _. ring.
Qed.

Lemma secant_entries (r : nat) :
  big_sum n (fun j => updated_entry r j * step_entry j) = residual_change r.
Proof.
  rewrite updated_applied. unfold step_norm. rewrite norm_squared.
  pose proof step_squared_nonzero as H. unfold predicted_change. field. exact H.
Qed.

End BroydenUpdate.

Section BroydenSecant.
Import Np Derivatives Derivatives.BroydenJacobian.

Context {Extra : Type}.

(** X3.  After a step that is not below a positive [minstep], the Jacobian
    that [BroydenJacobian.compute] returns and stores maps the step to the
    change of the residual: [J @ (x - x_prev) == fun(x) - f_prev]. *)
Theorem broyden_update_satisfies_secant_equation
    (s : BroydenJacobian.t Extra) (x : list R) (args : Extra) (m n : nat)
    (dx : ndarray) :
  wf (J s) -> Np.shape (J s) = [m; n] ->
  length (x1 s) = n -> length x = n ->
  length (f1 s) = m -> length (fn s x args) = m ->
  sub (Vec x) (Vec (x1 s)) = Ok dx ->
  0 < minstep s ->
  ~ norm dx < minstep s ->
  exists J' df,
    snd (compute s x args) = Ok J'
    /\ J (fst (compute s x args)) = J'
    /\ sub (Vec (fn s x args)) (Vec (f1 s)) = Ok df
    /\ dot J' dx = Ok df.
Proof.
  intros Hwf Hshape Hx1 Hx Hf1 Hfx Hdx Hmin Hstep.
  pose proof (array_of_shape (J s) m n Hshape Hwf) as HJ.
  rewrite (step_vector s x n Hx1 Hx) in Hdx. injection Hdx as <-.
  pose proof (compute_updates_entries s x args m n _ HJ Hx1 Hx Hf1 Hfx Hmin Hstep) as Hc.
  exists (Mat n (mat_of m n (updated_entry s x args n (coeff (rows_of (J s)))))),
         (Vec (vec_of m (residual_change s x args))).
  split; [exact Hc|]. split; [now apply compute_returns_stored_J|]. split.
  - rewrite (vec_of_nth (fn s x args)) at 1. rewrite (vec_of_nth (f1 s)) at 1.
    rewrite Hfx, Hf1. apply binop_vec_vec.
  - rewrite dot_mat_vec. do 2 f_equal. apply vec_of_ext. intros r _.
    now apply secant_entries.
Qed.

(** X4.  After a step that is not below a positive [minstep], the update
    leaves the action of the Jacobian on every vector orthogonal to the
    step as it was. *)
Theorem broyden_update_keeps_orthogonal_directions
    (s : BroydenJacobian.t Extra) (x : list R) (args : Extra) (m n : nat)
    (dx : ndarray) (v : list R) :
  wf (J s) -> Np.shape (J s) = [m; n] ->
  length (x1 s) = n -> length x = n ->
  length (f1 s) = m -> length (fn s x args) = m ->
  sub (Vec x) (Vec (x1 s)) = Ok dx ->
  0 < minstep s ->
  ~ norm dx < minstep s ->
  dot dx (Vec v) = Ok (Scalar 0) ->
  exists J',
    snd (compute s x args) = Ok J'
    /\ dot J' (Vec v) = dot (J s) (Vec v).
Proof.
  intros Hwf Hshape Hx1 Hx Hf1 Hfx Hdx Hmin Hstep Horth.
  pose proof (array_of_shape (J s) m n Hshape Hwf) as HJ.
  rewrite (step_vector s x n Hx1 Hx) in Hdx. injection Hdx as <-.
  pose proof (compute_updates_entries s x args m n _ HJ Hx1 Hx Hf1 Hfx Hmin Hstep) as Hc.
  eexists. split; [exact Hc|].
  assert (Hv : length v = n).
  { unfold dot in Horth. rewrite length_vec_of in Horth.
    destruct (Nat.eqb_spec n (length v)); [easy | discriminate]. }
  rewrite (vec_of_nth v), Hv in Horth |- *.
  unfold dot in Horth. rewrite !length_vec_of, Nat.eqb_refl, dotv_vec_of in Horth.
  injection Horth as Horth.
  rewrite HJ at 2. rewrite !dot_mat_vec. do 2 f_equal.
  apply vec_of_ext. intros r _.
  rewrite updated_applied, Horth. ring.
Qed.

End BroydenSecant.

(** An object for [f(x) = 2 * x[0] + x[1]], with [J0 = np.eye(1, 2)] and
    [minstep = 1], stepped from [[0, 0]] to [[3, 0]]: the stored Jacobian
    [[1, 0]] predicts a change of 3 where the residual changes by 6. *)
Definition broyden_two_variables : Derivatives.BroydenJacobian.t unit :=
  Derivatives.BroydenJacobian.init (fun x _ => [2 * nth 0 x 0 + nth 1 x 0])
    [0; 0] [0] None 1.

Lemma broyden_two_variables_step :
  Np.sub (Np.Vec [3; 0]) (Np.Vec [0; 0]) = Ok (Np.Vec [3 - 0; 0 - 0])
  /\ ~ Np.norm (Np.Vec [3 - 0; 0 - 0]) < 1.
Proof.
  split; [reflexivity|].
  unfold Np.norm, Np.sum, Np.square, Np.flatten, Np.sum_list. simpl.
  replace ((3 - 0) * (3 - 0) + ((0 - 0) * (0 - 0) + 0)) with (3 * 3) by ring.
  rewrite sqrt_square by lra. lra.
Qed.

(** The update of that step is not zero: the Jacobian becomes [[2, 0]]. *)
Lemma broyden_two_variables_update :
  snd (Derivatives.BroydenJacobian.compute broyden_two_variables [3; 0] tt)
  = Ok (Np.Mat 2 [[2; 0]])
  /\ Np.Mat 2 [[2; 0]] <> Np.eye 1 2.
Proof.
  destruct broyden_two_variables_step as [_ Hstep]. split.
  - rewrite (compute_updates_entries broyden_two_variables [3; 0] tt 1 2
               (coeff (Np.rows_of (Np.eye 1 2))) eq_refl eq_refl eq_refl eq_refl
               eq_refl ltac:(simpl; lra) Hstep).
    unfold mat_of, vec_of. cbn [map seq].
    unfold updated_entry, step_norm. rewrite norm_squared.
    unfold residual_change, predicted_change, step_entry, big_sum, coeff.
    cbn. repeat f_equal; field.
  - intros H. inversion H as [H1]. unfold Np.delta in H1. simpl in H1. lra.
Qed.

Lemma broyden_secant_witness :
  snd (Derivatives.BroydenJacobian.compute broyden_two_variables [3; 0] tt)
  = Ok (Np.Mat 2 [[2; 0]])
  /\ Np.Mat 2 [[2; 0]] <> Np.eye 1 2
  /\ exists J' df,
       snd (Derivatives.BroydenJacobian.compute broyden_two_variables [3; 0] tt) = Ok J'
       /\ Derivatives.BroydenJacobian.J
            (fst (Derivatives.BroydenJacobian.compute broyden_two_variables [3; 0] tt))
          = J'
       /\ Np.sub (Np.Vec [2 * 3 + 0]) (Np.Vec [0]) = Ok df
       /\ Np.dot J' (Np.Vec [3 - 0; 0 - 0]) = Ok df.
Proof.
  destruct broyden_two_variables_step as [Hdx Hstep].
  destruct broyden_two_variables_update as [Hup Hne].
  split; [exact Hup|]. split; [exact Hne|].
  apply (broyden_update_satisfies_secant_equation broyden_two_variables [3; 0] tt
           1 2 (Np.Vec [3 - 0; 0 - 0])); try reflexivity; try assumption.
  - repeat constructor.
  - simpl. lra.
Defined.

Lemma broyden_orthogonal_witness :
  snd (Derivatives.BroydenJacobian.compute broyden_two_variables [3; 0] tt)
  = Ok (Np.Mat 2 [[2; 0]])
  /\ Np.Mat 2 [[2; 0]] <> Np.eye 1 2
  /\ exists J',
       snd (Derivatives.BroydenJacobian.compute broyden_two_variables [3; 0] tt) = Ok J'
       /\ Np.dot J' (Np.Vec [0; 1]) = Np.dot (Np.eye 1 2) (Np.Vec [0; 1]).
Proof.
  destruct broyden_two_variables_step as [Hdx Hstep].
  destruct broyden_two_variables_update as [Hup Hne].
  split; [exact Hup|]. split; [exact Hne|].
  apply (broyden_update_keeps_orthogonal_directions broyden_two_variables [3; 0] tt
           1 2 (Np.Vec [3 - 0; 0 - 0]) [0; 1]); try reflexivity; try assumption.
  - repeat constructor.
  - simpl. lra.
  - simpl. do 2 f_equal. ring.
Defined.

(** ** An exact prediction *)

Section BroydenFixedPoint.
Import Np Derivatives Derivatives.BroydenJacobian.

Context {Extra : Type}.

(** X22.  When the stored Jacobian already predicts the change of the
    residual over a step that is not below a positive [minstep],
    [J @ (x - x_prev) == fun(x) - f_prev], the rank-one update is zero and
    [compute] returns the stored Jacobian unchanged. *)
Theorem broyden_exact_prediction_keeps_jacobian
    (s : BroydenJacobian.t Extra) (x : list R) (args : Extra) (m n : nat)
    (dx df : ndarray) :
  wf (J s) -> Np.shape (J s) = [m; n] ->
  length (x1 s) = n -> length x = n ->
  length (f1 s) = m -> length (fn s x args) = m ->
  sub (Vec x) (Vec (x1 s)) = Ok dx ->
  0 < minstep s ->
  ~ norm dx < minstep s ->
  sub (Vec (fn s x args)) (Vec (f1 s)) = Ok df ->
  dot (J s) dx = Ok df ->
  snd (compute s x args) = Ok (J s)
  /\ J (fst (compute s x args)) = J s.
Proof.
  intros Hwf Hshape Hx1 Hx Hf1 Hfx Hdx Hmin Hstep Hdf Hpred.
  pose proof (array_of_shape (J s) m n Hshape Hwf) as HJ.
  rewrite (step_vector s x n Hx1 Hx) in Hdx. injection Hdx as <-.
  pose proof (compute_updates_entries s x args m n _ HJ Hx1 Hx Hf1 Hfx Hmin Hstep) as Hc.
  assert (Hres : forall r, (r < m)%nat ->
            residual_change s x args r
            = predicted_change s x n (coeff (rows_of (J s))) r).
  { rewrite (vec_of_nth (fn s x args)), (vec_of_nth (f1 s)), Hfx, Hf1 in Hdf.
    unfold sub in Hdf. rewrite binop_vec_vec in Hdf. injection Hdf as <-.
    rewrite HJ, dot_mat_vec in Hpred. injection Hpred as Hpred.
    intros r Hr.
    assert (E : nth r (vec_of m (fun i => big_sum n (fun j =>
                  coeff (rows_of (J s)) i j * step_entry s x j))) 0
                = nth r (vec_of m (fun j => nth j (fn s x args) 0 - nth j (f1 s) 0)) 0)
      by (now rewrite Hpred).
    rewrite !nth_vec_of in E by exact Hr. symmetry. exact E. }
  assert (Hsame : Mat n (mat_of m n (updated_entry s x args n (coeff (rows_of (J s)))))
                  = J s).
  { transitivity (Mat n (mat_of m n (coeff (rows_of (J s))))); [|now symmetry].
    f_equal. apply mat_of_ext. intros r j Hr Hj.
    unfold updated_entry. rewrite (Hres r Hr). unfold Rdiv. ring. }
  rewrite Hsame in Hc. split; [exact Hc|].
  now apply compute_returns_stored_J.
Qed.

End BroydenFixedPoint.

(** The identity started with [J0 = np.eye(1, 1)], stepped from 0 to 3. *)
Definition broyden_identity : Derivatives.BroydenJacobian.t unit :=
  Derivatives.BroydenJacobian.init (fun x _ => x) [0] [0] None 1.

Lemma broyden_exact_prediction_witness :
  snd (Derivatives.BroydenJacobian.compute broyden_identity [3] tt) = Ok (Np.eye 1 1)
  /\ Derivatives.BroydenJacobian.J
       (fst (Derivatives.BroydenJacobian.compute broyden_identity [3] tt)) = Np.eye 1 1.
Proof.
  apply (broyden_exact_prediction_keeps_jacobian broyden_identity [3] tt 1 1
           (Np.Vec [3 - 0]) (Np.Vec [3 - 0])); try reflexivity.
  - repeat constructor.
  - simpl. lra.
  - unfold Np.norm, Np.sum, Np.square, Np.flatten, Np.sum_list. simpl.
    replace ((3 - 0) * (3 - 0) + 0) with (3 * 3) by ring.
    rewrite sqrt_square by lra. lra.
  - vm_compute. do 3 f_equal. ring.
Defined.

(** ** The finite-difference Hessian *)

Section Hessian.
Import Np Derivatives Derivatives.FiniteDiffDerivative.

Lemma binop_scalar (op : R -> R -> R) (a b : R) :
  binop op (Scalar a) (Scalar b) = Ok (Scalar (op a b)).
Proof. reflexivity. Qed.

(** A square table of [n] rows. *)
Definition square_table (n : nat) (H : list (list R)) : Prop :=
  length H = n /\ forall a, (a < n)%nat -> length (nth a H []) = n.

Lemma square_set2 (n : nat) (H : list (list R)) (i j : nat) (v : R) :
  square_table n H -> square_table n (set2 H i j v).
Proof.
  intros [Hl Hr]. unfold set2. split; [now rewrite length_set_nth|].
  intros a Ha. destruct (Nat.eq_dec i a) as [->|Hne].
  - rewrite nth_set_nth_eq by lia. rewrite length_set_nth. now apply Hr.
  - rewrite nth_set_nth_neq by exact Hne. now apply Hr.
Qed.

Lemma get2_set2 (n : nat) (H : list (list R)) (i j a b : nat) (v : R) :
  square_table n H -> (i < n)%nat -> (j < n)%nat ->
  get2 (set2 H i j v) a b = if Nat.eqb a i && Nat.eqb b j then v else get2 H a b.
Proof.
  intros [Hl Hr] Hi Hj. unfold get2, set2.
  destruct (Nat.eqb_spec a i) as [->|Hne]; cbn [andb].
  - rewrite nth_set_nth_eq by lia.
    destruct (Nat.eqb_spec b j) as [->|Hnb].
    + apply nth_set_nth_eq. rewrite Hr by exact Hi. exact Hj.
    + apply nth_set_nth_neq. intros E. apply Hnb. now symmetry.
  - rewrite nth_set_nth_neq by (intros E; apply Hne; now symmetry). reflexivity.
Qed.

Variable phi : list R -> R.
Variables (x h : list R).

Let n := length x.

(** [(f(x + 2 e_i) - 2 f(x) + f(x - 2 e_i)) / (4 h_i h_i)] with
    [e_i = ee[i, :]] *)
Definition second_difference (i : nat) : R :=
  (phi (shift x (diag_row h i) 2) - 2 * phi x + phi (shift x (diag_row h i) (-2)))
  / (4 * (nth i h 0 * nth i h 0)).

(** [(f(x + e_i + e_j) - f(x + e_i - e_j) - f(x - e_i + e_j) + f(x - e_i - e_j))
    / (4 h_j h_i)] *)
Definition mixed_difference (i j : nat) : R :=
  (phi (shift (shift x (diag_row h i) 1) (diag_row h j) 1)
   - phi (shift (shift x (diag_row h i) 1) (diag_row h j) (-1))
   - phi (shift (shift x (diag_row h i) (-1)) (diag_row h j) 1)
   + phi (shift (shift x (diag_row h i) (-1)) (diag_row h j) (-1)))
  / (4 * (nth j h 0 * nth i h 0)).

(** The entries of the returned table: the mixed difference is computed
    once, for the smaller index first, and stored at both places. *)
Definition hessian_entry (a b : nat) : R :=
  if Nat.eqb a b then second_difference a
  else mixed_difference (Nat.min a b) (Nat.max a b).

Lemma hessian_entry_sym (a b : nat) : hessian_entry a b = hessian_entry b a.
Proof.
  unfold hessian_entry. rewrite (Nat.eqb_sym b a), (Nat.min_comm b a), (Nat.max_comm b a).
  destruct (Nat.eqb_spec a b) as [->|_]; reflexivity.
Qed.

(** Entry [(a, b)] has its final value once row [min a b] is finished, or
    in row [i] once column [max a b] is passed. *)
Definition settled (i j0 a b : nat) : bool :=
  Nat.ltb (Nat.min a b) i || (Nat.eqb (Nat.min a b) i && Nat.ltb (Nat.max a b) j0).

Definition table_at (i j0 : nat) (H : list (list R)) : Prop :=
  square_table n H
  /\ forall a b, (a < n)%nat -> (b < n)%nat ->
       get2 H a b = if settled i j0 a b then hessian_entry a b
                    else nth a h 0 * nth b h 0.

Ltac cases :=
  unfold settled;
  repeat match goal with
         | |- context [Nat.ltb ?a ?b] => destruct (Nat.ltb_spec a b)
         | |- context [Nat.eqb ?a ?b] => destruct (Nat.eqb_spec a b)
         end;
  cbn [andb orb]; try reflexivity; try lia.

Variable fx : list R -> ndarray.
Hypothesis fx_phi : forall y, fx y = Scalar (phi y).

Lemma hess_inner_spec (i : nat) :
  (i < n)%nat ->
  forall len j0 H,
    (j0 + len = n)%nat -> (i < j0)%nat -> table_at i j0 H ->
    exists H', hess_inner fx x h i (seq j0 len) H = Ok H' /\ table_at i n H'.
Proof.
  intros Hi. induction len as [|len IH]; intros j0 H Hn Hj [Hsq Hent].
  - exists H. split; [reflexivity|]. replace n with j0 by lia. now split.
  - cbn [seq hess_inner]. rewrite !fx_phi. unfold sub, add.
    repeat (rewrite binop_scalar; cbn [bind]).
    unfold as_entry, div_scalar. cbn [map_nd flatten rows_of concat app bind].
    apply IH; [lia | lia |].
    assert (Hread : get2 H j0 i = nth j0 h 0 * nth i h 0).
    { rewrite Hent by lia. replace (settled i j0 j0 i) with false; [reflexivity|].
      symmetry. cases. }
    rewrite Hread. split.
    + now apply square_set2, square_set2.
    + intros a b Ha Hb.
      rewrite (get2_set2 n) by (try apply square_set2; try assumption; lia).
      rewrite (get2_set2 n) by (try assumption; lia).
      rewrite Hent by assumption.
      fold (mixed_difference i j0).
      destruct (Nat.eqb_spec a j0) as [->|Ha']; destruct (Nat.eqb_spec b i) as [->|Hb'];
        cbn [andb].
      * replace (settled i (S j0) j0 i) with true by (symmetry; cases).
        unfold hessian_entry. destruct (Nat.eqb_spec j0 i); [lia|].
        now rewrite Nat.min_r, Nat.max_l by lia.
      * destruct (Nat.eqb_spec j0 i); [lia|]. cbn [andb].
        destruct (Nat.eqb_spec b j0) as [->|Hb'']; cbn [andb].
        -- replace (settled i (S j0) j0 j0) with (settled i j0 j0 j0); [reflexivity|].
           cases.
        -- replace (settled i (S j0) j0 b) with (settled i j0 j0 b); [reflexivity|].
           cases.
      * destruct (Nat.eqb_spec a i) as [->|Ha'']; cbn [andb].
        -- destruct (Nat.eqb_spec i j0); [lia|].
           replace (settled i (S j0) i i) with (settled i j0 i i); [reflexivity|].
           cases.
        -- replace (settled i (S j0) a i) with (settled i j0 a i); [reflexivity|].
           cases.
      * destruct (Nat.eqb_spec a i) as [->|Ha'']; destruct (Nat.eqb_spec b j0) as [->|Hb''];
          cbn [andb].
        -- replace (settled i (S j0) i j0) with true by (symmetry; cases).
           unfold hessian_entry. destruct (Nat.eqb_spec i j0); [lia|].
           now rewrite Nat.min_l, Nat.max_r by lia.
        -- replace (settled i (S j0) i b) with (settled i j0 i b); [reflexivity|].
           cases.
        -- replace (settled i (S j0) a j0) with (settled i j0 a j0); [reflexivity|].
           cases.
        -- replace (settled i (S j0) a b) with (settled i j0 a b); [reflexivity|].
           cases.
Qed.

Lemma hess_loop_spec :
  forall len i H,
    (i + len = n)%nat -> table_at i 0 H ->
    exists H', hess_loop fx x h n (seq i len) H = Ok H' /\ table_at n 0 H'.
Proof.
  induction len as [|len IH]; intros i H Hn [Hsq Hent].
  - exists H. split; [reflexivity|]. replace n with i by lia. now split.
  - cbn [seq hess_loop]. rewrite !fx_phi. unfold sub, add. cbn [map_nd].
    repeat (rewrite binop_scalar; cbn [bind]).
    unfold as_entry, div_scalar. cbn [map_nd flatten rows_of concat app bind].
    assert (Hread : get2 H i i = nth i h 0 * nth i h 0).
    { rewrite Hent by lia. replace (settled i 0 i i) with false; [reflexivity|].
      symmetry. cases. }
    rewrite Hread. fold (second_difference i).
    destruct (hess_inner_spec i ltac:(lia) (n - S i) (S i)
                (set2 H i i (second_difference i))) as [H1 [Hin [Hsq1 Hent1]]];
      [lia | lia | |].
    + split; [now apply square_set2|].
      intros a b Ha Hb. rewrite (get2_set2 n) by (try assumption; lia).
      rewrite Hent by assumption.
      destruct (Nat.eqb_spec a i) as [->|Ha']; destruct (Nat.eqb_spec b i) as [->|Hb'];
        cbn [andb].
      * replace (settled i (S i) i i) with true by (symmetry; cases).
        unfold hessian_entry. now rewrite Nat.eqb_refl.
      * replace (settled i (S i) i b) with (settled i 0 i b); [reflexivity|]. cases.
      * replace (settled i (S i) a i) with (settled i 0 a i); [reflexivity|]. cases.
      * replace (settled i (S i) a b) with (settled i 0 a b); [reflexivity|]. cases.
    + rewrite Hin. cbn [bind]. apply IH; [lia|].
      split; [exact Hsq1|]. intros a b Ha Hb. rewrite Hent1 by assumption.
      replace (settled (S i) 0 a b) with (settled i n a b); [reflexivity|]. cases.
Qed.

End Hessian.

(** X7.  In mode ['hess'], for a function that returns a float,
    [FiniteDiffDerivative.compute] returns the square table whose diagonal
    holds the second differences along each coordinate and whose
    off-diagonal entries hold the mixed differences, each computed once and
    stored at both places: the steps are read from the table before it is
    overwritten, and the result is symmetric. *)
Theorem finite_difference_hessian_entries
    (fn : list (list R) -> Np.ndarray) (argnum : nat) (rel_step : R)
    (args : list (list R)) (x : list R) (d : Derivatives.FiniteDiffDerivative.t)
    (phi : list R -> R) :
  Derivatives.FiniteDiffDerivative.init fn argnum "hess" rel_step = Ok d ->
  nth_error args argnum = Some x ->
  (forall y, Derivatives.FiniteDiffDerivative.f d args y = Np.Scalar (phi y)) ->
  Derivatives.FiniteDiffDerivative.compute d args
  = Ok (Np.Mat (length x)
          (mat_of (length x) (length x)
             (hessian_entry phi x (Derivatives.FiniteDiffDerivative.steps d x))))
  /\ (forall a b,
        hessian_entry phi x (Derivatives.FiniteDiffDerivative.steps d x) a b
        = hessian_entry phi x (Derivatives.FiniteDiffDerivative.steps d x) b a).
Proof.
  intros Hinit Hx Hphi. split; [|intros a b; apply hessian_entry_sym].
  unfold Derivatives.FiniteDiffDerivative.init,
    Derivatives.FiniteDiffDerivative.set_mode in Hinit.
  simpl in Hinit. injection Hinit as <-.
  unfold Derivatives.FiniteDiffDerivative.with_compute in *.
  cbn [Derivatives.FiniteDiffDerivative._fun Derivatives.FiniteDiffDerivative._argnum
       Derivatives.FiniteDiffDerivative.rel_step
       Derivatives.FiniteDiffDerivative._mode] in *.
  unfold Derivatives.FiniteDiffDerivative.compute.
  cbn [Derivatives.FiniteDiffDerivative._compute].
  unfold Derivatives.FiniteDiffDerivative._compute_hessian.
  cbn [Derivatives.FiniteDiffDerivative._argnum]. rewrite Hx. cbv zeta.
  set (self := Derivatives.FiniteDiffDerivative.mk fn argnum rel_step
                 (Some "hess"%string)
                 (Some Derivatives.FiniteDiffDerivative.compute_hessian)) in *.
  set (h := Derivatives.FiniteDiffDerivative.steps self x).
  assert (Hh : length h = length x)
    by (unfold h, Derivatives.FiniteDiffDerivative.steps; now rewrite length_map).
  destruct (hess_loop_spec phi x h (Derivatives.FiniteDiffDerivative.f self args) Hphi
              (length x) 0 (Np.rows_of (Np.outer h h)))
    as [H' [Hloop [[Hlen Hrows] Hent]]].
  - reflexivity.
  - unfold Np.outer. cbn [Np.rows_of]. split.
    + split; [now rewrite length_map|].
      intros a Ha.
      rewrite (nth_indep _ [] (map (fun b => 0 * b) h)) by (now rewrite length_map, Hh).
      rewrite (map_nth (fun a0 => map (fun b => a0 * b) h) h 0 a).
      now rewrite length_map.
    + intros a b Ha Hb. unfold Derivatives.FiniteDiffDerivative.get2.
      rewrite (nth_indep _ [] (map (fun b => 0 * b) h)) by (now rewrite length_map, Hh).
      rewrite (map_nth (fun a0 => map (fun b => a0 * b) h) h 0 a).
      rewrite (nth_indep _ 0 (nth a h 0 * 0)) by (now rewrite length_map, Hh).
      rewrite (map_nth (fun b0 => nth a h 0 * b0) h 0 b).
      unfold settled.
      destruct (Nat.ltb_spec (Nat.min a b) 0); [lia|].
      destruct (Nat.ltb_spec (Nat.max a b) 0); [lia|].
      now rewrite andb_false_r.
  - rewrite Hloop. cbn [bind]. do 2 f_equal.
    rewrite (mat_of_entry (length x) H').
    + rewrite Hlen. apply mat_of_ext. intros a b Ha Hb.
      change (coeff H' a b) with (Derivatives.FiniteDiffDerivative.get2 H' a b).
      rewrite Hent by assumption.
      unfold settled. destruct (Nat.ltb_spec (Nat.min a b) (length x)); [reflexivity|lia].
    + simpl. apply Forall_forall. intros r Hr.
      destruct (In_nth _ _ [] Hr) as [a [Ha <-]]. apply Hrows. now rewrite <- Hlen.
Qed.

(** [f(x) = x0 * x1] at [x = [1, 2]] with [rel_step = 1e-3]. *)
Lemma finite_difference_hessian_witness :
  exists H,
    Derivatives.FiniteDiffDerivative.compute
      (Derivatives.FiniteDiffDerivative.mk
         (fun a => Np.Scalar (nth 0 (nth 0 a []) 0 * nth 1 (nth 0 a []) 0))
         0 (/ 1000) (Some "hess"%string)
         (Some Derivatives.FiniteDiffDerivative.compute_hessian))
      [[1; 2]]
    = Ok (Np.Mat 2 H)
    /\ coeff H 0 1 = coeff H 1 0.
Proof.
  destruct (finite_difference_hessian_entries
              (fun a => Np.Scalar (nth 0 (nth 0 a []) 0 * nth 1 (nth 0 a []) 0))
              0 (/ 1000) [[1; 2]] [1; 2]
              (Derivatives.FiniteDiffDerivative.mk
                 (fun a => Np.Scalar (nth 0 (nth 0 a []) 0 * nth 1 (nth 0 a []) 0))
                 0 (/ 1000) (Some "hess"%string)
                 (Some Derivatives.FiniteDiffDerivative.compute_hessian))
              (fun y => nth 0 y 0 * nth 1 y 0))
    as [Hc Hsym].
  - reflexivity.
  - reflexivity.
  - intros y. reflexivity.
  - eexists. split; [exact Hc|].
    rewrite !entry_mat_of by (simpl; lia). apply Hsym.
Defined.

(** ** The objects [BlockJacobian] can make *)

(** X8.  Whatever its arguments, a [BlockJacobian] that [__init__] returns
    has no block, and its [compute] raises [ValueError] at every [x]
    ([np.vstack] of an empty list): every construction that reaches the
    loop of [__init__] raises before an object exists, so no
    [BlockJacobian] ever returns a Jacobian. *)
Theorem block_jacobian_never_returns_a_jacobian :
  forall (fn : list R -> list R) (N M : nat) (block_size num_blocks : option nat)
         (usejit : bool) (bj : Derivatives.BlockJacobian.t) (x : list R),
    Derivatives.BlockJacobian.init fn N M block_size num_blocks usejit = Ok bj ->
    Derivatives.BlockJacobian.num_blocks bj = 0%nat
    /\ Derivatives.BlockJacobian.jac_blocks bj = []
    /\ Derivatives.BlockJacobian.compute bj x = Raise ValueError.
Proof.
  intros fn N M block_size num_blocks usejit bj x.
  assert (G : forall bs k,
            Derivatives.BlockJacobian.build_blocks fn N M bs k usejit = Ok bj ->
            Derivatives.BlockJacobian.num_blocks bj = 0%nat
            /\ Derivatives.BlockJacobian.jac_blocks bj = []
            /\ Derivatives.BlockJacobian.compute bj x = Raise ValueError).
  { intros bs k H. destruct k as [|k].
    - rewrite build_blocks_empty in H. injection H as <-. repeat split.
    - rewrite build_blocks_raises in H by discriminate. discriminate. }
  unfold Derivatives.BlockJacobian.init.
  destruct block_size as [bs|], num_blocks as [k|]; [discriminate | | |].
  - destruct (Nat.eqb bs 0); [discriminate | apply G].
  - destruct (Nat.eqb k 0); [discriminate | apply G].
  - apply G.
Qed.

(** A function without outputs, in blocks of one row: the only kind of object
    that can be made. *)
Lemma block_jacobian_never_returns_witness :
  exists bj,
    Derivatives.BlockJacobian.init (fun _ => []) 0 1 (Some 1%nat) None false = Ok bj
    /\ Derivatives.BlockJacobian.num_blocks bj = 0%nat
    /\ Derivatives.BlockJacobian.jac_blocks bj = []
    /\ Derivatives.BlockJacobian.compute bj [5] = Raise ValueError.
Proof.
  eexists. split; [reflexivity|].
  apply (block_jacobian_never_returns_a_jacobian (fun _ => []) 0 1 (Some 1%nat) None
           false _ [5] eq_refl).
Defined.

(** ** The target and weight of an objective *)

Section CheckDimensions.
Import Np ObjectiveFuns.

Context {Ext : Type}.
Implicit Types self : _Objective Ext.

Lemma nodup_repeat {T : Type} (dec : forall a b : T, {a = b} + {a <> b}) (a : T)
    (k : nat) :
  k <> 0%nat -> nodup dec (repeat a k) = [a].
Proof.
  induction k as [|k IH]; intros Hk; [contradiction|].
  destruct k as [|k]; [reflexivity|].
  change (repeat a (S (S k))) with (a :: repeat a (S k)). cbn [nodup].
  destruct (in_dec dec a (repeat a (S k))) as [_|Hn].
  - apply IH. discriminate.
  - elim Hn. now left.
Qed.

(** X10.  When [_check_dimensions] returns, the target and the weight both
    have [dim_f] entries, and nothing else of the objective has changed. *)
Theorem check_dimensions_sizes self (self' : _Objective Ext) :
  _check_dimensions self = Ok self' ->
  length (_target self') = _dim_f self
  /\ length (_weight self') = _dim_f self
  /\ _dim_f self' = _dim_f self
  /\ _built self' = _built self
  /\ _dimensions self' = _dimensions self
  /\ _derivatives self' = _derivatives self
  /\ _args self' = _args self
  /\ ext self' = ext self.
Proof.
  unfold _check_dimensions. intros H.
  apply bind_Ok in H. destruct H as [ut [_ H]].
  destruct (Nat.eqb ut 1);
    destruct (Nat.eqb (length (nodup Req_dec_T (_weight _))) 1);
    cbn [_target _weight _dim_f with_target with_weight] in H;
    match type of H with
    | (if negb (Nat.eqb ?a ?b) then _ else _) = _ =>
        destruct (Nat.eqb_spec a b) as [E1|E1]; cbn [negb] in H; [|discriminate]
    end;
    match type of H with
    | (if negb (Nat.eqb ?a ?b) then _ else _) = _ =>
        destruct (Nat.eqb_spec a b) as [E2|E2]; cbn [negb] in H; [|discriminate]
    end;
    injection H as <-; cbn; repeat split; assumption.
Qed.

(** X11.  A target and a weight that each repeat one value are accepted
    whatever their lengths, and are resized to [dim_f] entries. *)
Theorem check_dimensions_resizes_constants self (t w : R) (k j : nat) :
  k <> 0%nat -> j <> 0%nat ->
  _target self = repeat (Some t) k ->
  _weight self = repeat w j ->
  _check_dimensions self
  = Ok (with_weight (with_target self (repeat (Some t) (_dim_f self)))
          (repeat w (_dim_f self))).
Proof.
  intros Hk Hj Ht Hw. unfold _check_dimensions, unique_size. rewrite Ht.
  replace (existsb is_None (repeat (Some t) k)) with false.
  2:{ symmetry. apply not_true_is_false. intros E.
      apply existsb_exists in E. destruct E as [a [Ha E]].
      apply repeat_spec in Ha. subst a. discriminate. }
  cbn [andb bind]. rewrite nodup_repeat by exact Hk. cbn [length Nat.eqb].
  cbn [_weight with_target]. rewrite Hw, nodup_repeat by exact Hj.
  cbn [length Nat.eqb _target _weight _dim_f with_target with_weight].
  rewrite !repeat_length, Nat.eqb_refl. cbn [negb].
  destruct k; [contradiction|]. destruct j; [contradiction|]. reflexivity.
Qed.

End CheckDimensions.

(** A target of three equal entries and a single weight, for [dim_f = 2]. *)
Definition three_equal_targets : ObjectiveFuns._Objective unit :=
  ObjectiveFuns.with_dim_f (ObjectiveFuns.init [Some 1; Some 1; Some 1] [2] tt) 2.

Lemma check_dimensions_resizes_constants_witness :
  ObjectiveFuns._check_dimensions three_equal_targets
  = Ok (ObjectiveFuns.with_weight
          (ObjectiveFuns.with_target three_equal_targets [Some 1; Some 1]) [2; 2]).
Proof.
  apply (check_dimensions_resizes_constants three_equal_targets 1 2 3 1);
    try discriminate; reflexivity.
Defined.

(** One target and one weight, for [dim_f = 1]. *)
Definition single_target : ObjectiveFuns._Objective unit :=
  ObjectiveFuns.with_dim_f (ObjectiveFuns.init [Some 1] [2] tt) 1.

Lemma check_dimensions_sizes_witness :
  ObjectiveFuns._check_dimensions single_target = Ok single_target
  /\ length (ObjectiveFuns._target single_target) = 1%nat
  /\ length (ObjectiveFuns._weight single_target) = 1%nat.
Proof.
  assert (H : ObjectiveFuns._check_dimensions single_target = Ok single_target)
    by reflexivity.
  destruct (check_dimensions_sizes single_target single_target H) as [H1 [H2 _]].
  split; [exact H|]. split; [exact H1 | exact H2].
Defined.

(** ** The layout of the state vector *)

Section StateVector.
Import Np ObjectiveFuns.

(** The index array stored for a name; a missing name reads as empty. *)
Definition indices_of (d : dict (list nat)) (arg : string) : list nat :=
  match lookup d arg with
  | Some l => l
  | None => []
  end.

Lemma y_indices_layout (args : list string) (dims : dict nat) :
  forall (order : list string) (idx : nat) (d : dict (list nat)) (e : nat),
    NoDup order ->
    y_indices args dims order idx = Ok (d, e) ->
    (idx <= e)%nat
    /\ concat (map (indices_of d) order) = seq idx (e - idx)
    /\ (forall a, In a order ->
          exists l, lookup d a = Some l
                    /\ (str_in a args = false -> l = [])
                    /\ (str_in a args = true -> lookup dims a = Some (length l)))
    /\ (forall a, ~ In a order -> lookup d a = None).
Proof.
  induction order as [|arg order IH]; intros idx d e Hnd H.
  - injection H as <- <-. repeat split; try lia.
    + now rewrite Nat.sub_diag.
    + intros a [].
  - inversion Hnd as [|? ? Hnotin Hnd']. subst.
    cbn [y_indices] in H.
    assert (Hrest : forall a, In a order -> a <> arg)
      by (intros a Ha ->; contradiction).
    destruct (str_in arg args) eqn:Hin.
    + apply bind_Ok in H. destruct H as [n [Hn H]].
      apply bind_Ok in H. destruct H as [[d' e'] [Hr H]].
      injection H as <- <-. cbn [fst snd] in *.
      destruct (IH _ _ _ Hnd' Hr) as [Hle [Hcat [Hall Hnone]]].
      split; [lia|]. split; [|split].
      * cbn [map concat]. unfold indices_of at 1. rewrite lookup_setitem_eq.
        rewrite (map_ext_in (indices_of (setitem d' arg (seq idx n))) (indices_of d')).
        2:{ intros a Ha. unfold indices_of.
            now rewrite lookup_setitem_neq by (now apply Hrest). }
        rewrite Hcat.
        replace (e' - idx)%nat with (n + (e' - (idx + n)))%nat by lia.
        now rewrite seq_app.
      * intros a [<-|Ha].
        -- exists (seq idx n). rewrite lookup_setitem_eq.
           split; [reflexivity|]. split; [congruence|].
           intros _. rewrite length_seq. now apply getitem_Ok.
        -- destruct (Hall a Ha) as [l Hl]. exists l.
           now rewrite lookup_setitem_neq by (now apply Hrest).
      * intros a Ha. rewrite lookup_setitem_neq by (intros ->; apply Ha; now left).
        apply Hnone. intros Hc. apply Ha. now right.
    + apply bind_Ok in H. destruct H as [[d' e'] [Hr H]].
      injection H as <- <-. cbn [fst snd] in *.
      destruct (IH _ _ _ Hnd' Hr) as [Hle [Hcat [Hall Hnone]]].
      split; [lia|]. split; [|split].
      * cbn [map concat]. unfold indices_of at 1. rewrite lookup_setitem_eq.
        rewrite (map_ext_in (indices_of (setitem d' arg [])) (indices_of d')).
        2:{ intros a Ha. unfold indices_of.
            now rewrite lookup_setitem_neq by (now apply Hrest). }
        exact Hcat.
      * intros a [<-|Ha].
        -- exists []. rewrite lookup_setitem_eq.
           split; [reflexivity|]. split; [reflexivity | congruence].
        -- destruct (Hall a Ha) as [l Hl]. exists l.
           now rewrite lookup_setitem_neq by (now apply Hrest).
      * intros a Ha. rewrite lookup_setitem_neq by (intros ->; apply Ha; now left).
        apply Hnone. intros Hc. apply Ha. now right.
Qed.

Lemma NoDup_arg_order : NoDup arg_order.
Proof.
  unfold arg_order.
  repeat (constructor; [simpl; intuition discriminate|]). constructor.
Qed.

(** X12.  [_set_state_vector] lays the state vector out in [arg_order]: the
    index arrays of the eight names, one after the other, are exactly
    [0, 1, ..., dim_y - 1]; a name that no objective or constraint takes gets
    the empty array, and a name that one takes gets as many indices as its
    dimension. *)
Theorem state_vector_indices_tile (s s' : ObjectiveFunction) :
  _set_state_vector s = Ok s' ->
  concat (map (indices_of (_y_idx s')) arg_order) = seq 0 (_dim_y s')
  /\ (forall a, In a arg_order ->
        exists l, lookup (_y_idx s') a = Some l
                  /\ (str_in a (OF_args s') = false -> l = [])
                  /\ (str_in a (OF_args s') = true ->
                      lookup (OF_dimensions s') a = Some (length l))).
Proof.
  unfold _set_state_vector. intros H.
  apply bind_Ok in H. destruct H as [args0 [_ H]].
  apply bind_Ok in H. destruct H as [args1 [_ H]].
  apply bind_Ok in H. destruct H as [dims [_ H]].
  apply bind_Ok in H. destruct H as [[d e] [Hy H]].
  injection H as <-. cbn [_y_idx _dim_y OF_args OF_dimensions with_state_vector fst snd].
  destruct (y_indices_layout _ _ _ _ _ _ NoDup_arg_order Hy) as [_ [Hcat [Hall _]]].
  split; [|exact Hall].
  rewrite Hcat. now rewrite Nat.sub_0_r.
Qed.

End StateVector.

(** The objective on the boundary and the constraint on [Psi], after their
    own [build]: two state variables, [Zb_lmn[0]] before [Psi]. *)
Lemma state_vector_example :
  exists s',
    ObjectiveFuns._set_state_vector
      (ObjectiveFuns.OF_init [built_boundary_Z] [built_psi 7 1] true) = Ok s'
    /\ ObjectiveFuns._dim_y s' = 2%nat
    /\ lookup (ObjectiveFuns._y_idx s') "Zb_lmn" = Some [0%nat]
    /\ lookup (ObjectiveFuns._y_idx s') "Psi" = Some [1%nat].
Proof.
  eexists. split; [|split; [|split]].
  - unfold ObjectiveFuns._set_state_vector, ObjectiveFuns.OF_init. eval_arrays.
    reflexivity.
  - reflexivity.
  - reflexivity.
  - reflexivity.
Qed.

Lemma state_vector_indices_witness :
  exists s',
    ObjectiveFuns._set_state_vector
      (ObjectiveFuns.OF_init [built_boundary_Z] [built_psi 7 1] true) = Ok s'
    /\ concat (map (indices_of (ObjectiveFuns._y_idx s')) ObjectiveFuns.arg_order)
       = seq 0 (ObjectiveFuns._dim_y s').
Proof.
  destruct state_vector_example as [s' [H _]].
  exists s'. split; [exact H|].
  now destruct (state_vector_indices_tile _ s' H) as [Ht _].
Defined.

(** ** [make_feasible] *)

Section MakeFeasible.
Import Np ObjectiveFuns.

Variable s : ObjectiveFunction.
Variables (N d : nat) (W : nat -> nat -> R) (Y : nat -> R).

Hypothesis s_built : OF_built s = true.
Hypothesis s_Z : _Z s = Mat d (mat_of N d (fun j c => W c j)).
Hypothesis s_y0 : _y0 s = Vec (vec_of N Y).

(** [make_feasible] when [project] returns a 1-D array. *)
Lemma make_feasible_vec (g : nat -> R) :
  d <> 1%nat ->
  make_feasible s (Vec (vec_of N g)) None
  = Ok (Vec (vec_of N (recovered d W Y (projected N W Y g)))).
Proof.
  intros Hd. unfold make_feasible, default_y0, y0, Z, guarded, project.
  rewrite s_built. cbn [negb bind]. rewrite s_y0. cbn [bind].
  unfold default_y0, Z, guarded. rewrite s_built. cbn [bind].
  unfold sub. rewrite binop_vec_vec. cbn [bind].
  rewrite s_Z, transpose_mat_of, dot_mat_vec. cbn [bind].
  rewrite squeeze_vec by (now rewrite length_vec_of).
  rewrite dot_mat_vec. cbn [bind]. unfold add. now rewrite binop_vec_vec.
Qed.

(** [make_feasible] when [project] returns a 0-d array: the product with
    [Z] keeps the shape [(N, 1)] and the sum with [y0] has the shape
    [(N, N)]. *)
Lemma make_feasible_scalar (g : nat -> R) :
  d = 1%nat -> (2 <= N)%nat ->
  make_feasible s (Vec (vec_of N g)) None
  = Ok (Mat N (mat_of N N (fun i j => Y j + W 0%nat i * projected N W Y g 0))).
Proof.
  intros Hd HN. subst d.
  unfold make_feasible, default_y0, y0, Z, guarded, project.
  rewrite s_built. cbn [negb bind]. rewrite s_y0. cbn [bind].
  unfold default_y0, Z, guarded. rewrite s_built. cbn [bind].
  unfold sub. rewrite binop_vec_vec. cbn [bind].
  rewrite s_Z, transpose_mat_of, dot_mat_vec. cbn [bind].
  rewrite squeeze_vec_1.
  set (x := big_sum N (fun j => W 0%nat j * (g j - Y j))).
  change (projected N W Y g 0) with x.
  unfold dot, mul, binop. cbn [nrows ncols ndim].
  rewrite length_mat_of, bshape_1_r, bshape_same. cbn [Nat.max of_rows bind].
  unfold add, binop. cbn [nrows ncols ndim].
  rewrite length_vec_of, length_map, length_seq, bshape_1_l, bshape_1_r.
  cbn [Nat.max of_rows bind]. do 2 f_equal.
  unfold mat_of at 2. apply map_ext_in. intros i Hi. apply in_seq in Hi.
  apply vec_of_ext. intros j Hj.
  f_equal.
  - unfold bget. cbn [nrows ncols rows_of]. rewrite length_vec_of.
    destruct (Nat.eqb_spec N 1); [lia|]. cbn [Nat.eqb nth].
    now apply nth_vec_of.
  - unfold bget at 1. cbn [nrows ncols rows_of Nat.eqb].
    rewrite length_map, length_seq.
    destruct (Nat.eqb_spec N 1); [lia|].
    rewrite nth_map_seq by lia. cbn [seq map nth].
    f_equal.
    rewrite bget_entry
      by (cbn [nrows ncols]; rewrite ?length_mat_of, ?length_map, ?length_seq; lia).
    cbn [rows_of]. rewrite entry_mat_of by lia. reflexivity.
Qed.

End MakeFeasible.

Section FeasibleImage.
Import Np ObjectiveFuns.

(** [A @ (y0 + Z @ x) = b] for every [x], by entries. *)
Lemma product_recovered (M N : nat) (U V : nat -> nat -> R) (S : nat -> R) (tol : R)
    (B Yf P : nat -> R) (i : nat) :
  (forall k l, (k < M)%nat -> (l < M)%nat ->
     big_sum M (fun i => U i k * U i l) = delta k l) ->
  (forall k l, (k < N)%nat -> (l < N)%nat ->
     big_sum N (fun j => V k j * V l j) = delta k l) ->
  (forall k l, (k <= l)%nat -> (l < Nat.min M N)%nat -> S l <= S k) ->
  (forall k, (k < Nat.min M N)%nat -> S k <= tol -> S k = 0) ->
  0 <= tol ->
  (forall i, (i < M)%nat ->
     B i = big_sum N (fun j => product_entry M N U V S i j * Yf j)) ->
  (i < M)%nat ->
  big_sum N (fun j =>
    product_entry M N U V S i j
    * recovered (N - numerical_rank M N S tol)
        (fun c j => V (numerical_rank M N S tol + c)%nat j)
        (particular M N U V S tol B) P j)
  = B i.
Proof.
  intros HU HV Hsorted Hexact Htol Hcons Hi. unfold recovered.
  transitivity
    (big_sum N (fun j =>
       product_entry M N U V S i j * particular M N U V S tol B j
       + big_sum (N - numerical_rank M N S tol) (fun c =>
           P c * (product_entry M N U V S i j
                  * V (numerical_rank M N S tol + c)%nat j)))).
  { apply big_sum_ext. intros j _. rewrite Rmult_plus_distr_l. f_equal.
    rewrite <- big_sum_scal. apply big_sum_ext. intros c _. ring. }
  rewrite big_sum_plus, big_sum_swap.
  rewrite (product_particular M N U V S HU HV tol Hexact Htol B Yf Hcons i Hi).
  rewrite big_sum_zero; [ring|].
  intros c Hc. rewrite big_sum_scal.
  rewrite (product_null_space M N U V S HV Hsorted tol Hexact) by lia. ring.
Qed.

Variable svd : ndarray -> ndarray * list R * ndarray.

(** X13.  On an [ObjectiveFunction] built with consistent constraints, with
    no non-zero singular value at or below the tolerance and [dim_x != 1],
    [make_feasible] turns any 1-D [y] of as many entries as [A] has columns
    into a state that satisfies the constraints: [A @ make_feasible(y) == b]. *)
Theorem make_feasible_satisfies_constraints
    (s0 s : ObjectiveFunction) (eq : Equilibrium.t) (use_jit : bool) (yv yf : list R) :
  OF_build svd s0 eq use_jit = Ok s ->
  constraints s <> [] ->
  svd_ok svd s ->
  exact_rank_of svd s ->
  _dim_x s <> 1%nat ->
  dot (_A s) (Vec yf) = Ok (Vec (_b s)) ->
  length yv = ncols (_A s) ->
  exists y',
    make_feasible s (Vec yv) None = Ok y'
    /\ dot (_A s) y' = Ok (Vec (_b s)).
Proof.
  intros Hb Hc Hok Hex Hx1 Hfeas Hlen.
  destruct (OF_build_data svd _ _ _ _ Hb) as [Hbuilt Hd].
  destruct (constrained_entries svd s Hd Hc Hok) as [smax [Ha [Hl [HZ [Hy Hx]]]]].
  unfold svd_ok in Hok. unfold exact_rank_of, dropped_below in Hex.
  destruct (svd (_A s)) as [[u sv] vh]. cbn [fst snd] in *.
  destruct Hok as [H2d Hwf Hus Huw Hvs Hvw Hsl HUc HVr HVc Hfac Hsort Hnn].
  rewrite <- Hsl, <- vec_of_nth in Ha.
  assert (HA : _A s = Mat (ncols (_A s))
                        (mat_of (nrows (_A s)) (ncols (_A s))
                           (product_entry (nrows (_A s)) (ncols (_A s))
                              (coeff (rows_of u)) (coeff (rows_of vh))
                              (fun k => nth k sv 0)))).
  { rewrite (array_2d (_A s) H2d Hwf) at 1. f_equal.
    apply mat_of_ext. intros i j Hi Hj. now apply Hfac. }
  rewrite HA in Hfeas. destruct (feasible_entries _ _ _ _ _ Hfeas) as [_ Hent].
  assert (Hyv : Vec yv = Vec (vec_of (ncols (_A s)) (fun j => nth j yv 0)))
    by (rewrite <- Hlen; f_equal; apply vec_of_nth).
  rewrite Hyv. eexists. split.
  - apply (make_feasible_vec s (ncols (_A s)) _ _ _ Hbuilt HZ Hy). congruence.
  - rewrite HA at 1. rewrite dot_mat_vec. do 2 f_equal.
    transitivity (vec_of (nrows (_A s)) (fun i => nth i (_b s) 0));
      [|rewrite <- Hl; symmetry; apply vec_of_nth].
    apply vec_of_ext. intros i Hi.
    apply (product_recovered (nrows (_A s)) (ncols (_A s))
             (coeff (rows_of u)) (coeff (rows_of vh)) (fun k => nth k sv 0)
             (tolerance (nrows (_A s)) (ncols (_A s)) smax)
             (fun i => nth i (_b s) 0) (fun j => nth j yf 0)); try assumption.
    + intros k Hk. apply (Hex smax k Ha). now rewrite Hsl.
    + apply (tolerance_nonneg _ _ sv smax Ha).
      destruct sv as [|a l]; [simpl; lra|].
      apply (Hnn 0%nat). rewrite <- Hsl. simpl. lia.
Qed.

(** X14.  With [dim_x = 1] and a state vector of two or more entries,
    [make_feasible] returns a square matrix instead of a state vector: the
    0-d array that [project] returns is multiplied into [Z] entry by entry. *)
Theorem make_feasible_with_one_free_variable_is_a_matrix
    (s0 s : ObjectiveFunction) (eq : Equilibrium.t) (use_jit : bool) (yv : list R) :
  OF_build svd s0 eq use_jit = Ok s ->
  (constraints s <> [] -> svd_ok svd s) ->
  _dim_x s = 1%nat ->
  shape (_y0 s) = [length yv] ->
  (2 <= length yv)%nat ->
  exists rows,
    make_feasible s (Vec yv) None = Ok (Mat (length yv) rows)
    /\ length rows = length yv.
Proof.
  intros Hb Hsvd Hx Hshape Hlen.
  destruct (OF_build_data svd _ _ _ _ Hb) as [Hbuilt Hd].
  destruct (null_space_form svd s Hd Hsvd) as [N [d [W [Y [HZ [Hy [Hdx _]]]]]]].
  assert (Hd1 : d = 1%nat) by congruence.
  assert (HN : N = length yv).
  { rewrite Hy in Hshape. simpl in Hshape. rewrite length_vec_of in Hshape.
    now injection Hshape. }
  assert (Hyv : Vec yv = Vec (vec_of N (fun j => nth j yv 0)))
    by (rewrite HN; f_equal; apply vec_of_nth).
  rewrite Hyv, <- HN. eexists. split.
  - apply (make_feasible_scalar s N d W Y Hbuilt HZ Hy _ Hd1). lia.
  - now rewrite length_mat_of.
Qed.

End FeasibleImage.

Section FeasibleFixedPoints.
Import Np ObjectiveFuns.

Variable svd : ndarray -> ndarray * list R * ndarray.

(** On a state that satisfies the constraints, [y0 + Z @ (Z.T @ (y - y0))]
    is [y] again. *)
Lemma feasible_round_trip (s : ObjectiveFunction) (yv : list R) :
  linear_data svd s ->
  (constraints s <> [] -> svd_ok svd s) ->
  shape (_y0 s) = [length yv] ->
  (constraints s <> [] -> dot (_A s) (Vec yv) = Ok (Vec (_b s))) ->
  exists (N d : nat) (W : nat -> nat -> R) (Y : nat -> R),
    _Z s = Mat d (mat_of N d (fun j c => W c j))
    /\ _y0 s = Vec (vec_of N Y)
    /\ _dim_x s = d
    /\ length yv = N
    /\ forall j, (j < N)%nat ->
         recovered d W Y (projected N W Y (fun j => nth j yv 0)) j = nth j yv 0.
Proof.
  intros Hd Hsvd Hshape Hfeas.
  destruct (constraints s) as [|c0 cs] eqn:Hc.
  - unfold linear_data in Hd. rewrite Hc in Hd. destruct Hd as [Hy [HZ Hx]].
    unfold zeros1 in Hy. rewrite repeat_vec_of in Hy.
    assert (HN : length yv = _dim_y s).
    { rewrite Hy in Hshape. simpl in Hshape. rewrite length_vec_of in Hshape.
      now injection Hshape. }
    exists (_dim_y s), (_dim_y s), (fun c j => delta j c), (fun _ => 0).
    split; [exact HZ|]. split; [exact Hy|]. split; [exact Hx|]. split; [exact HN|].
    intros j Hj. unfold recovered, projected.
    transitivity (0 + big_sum (_dim_y s) (fun c => delta c j * (nth c yv 0 - 0))).
    { f_equal. apply big_sum_ext. intros c Hc'.
      rewrite (big_sum_delta (_dim_y s) c (fun j' => nth j' yv 0 - 0)) by exact Hc'.
      now rewrite (delta_sym j c). }
    rewrite big_sum_delta by exact Hj. ring.
  - assert (Hne : constraints s <> []) by (rewrite Hc; discriminate).
    rewrite <- Hc in *. clear Hc c0 cs.
    specialize (Hsvd Hne). specialize (Hfeas Hne).
    destruct (constrained_entries svd s Hd Hne Hsvd) as [smax [Ha [Hl [HZ [Hy Hx]]]]].
    unfold svd_ok in Hsvd.
    destruct (svd (_A s)) as [[u sv] vh]. cbn [fst snd] in *.
    destruct Hsvd as [H2d Hwf Hus Huw Hvs Hvw Hsl HUc HVr HVc Hfac Hsort Hnn].
    rewrite <- Hsl, <- vec_of_nth in Ha.
    rewrite (array_2d (_A s) H2d Hwf) in Hfeas.
    destruct (feasible_entries _ _ _ _ _ Hfeas) as [HN Hent].
    eexists (ncols (_A s)), _, _, _.
    split; [exact HZ|]. split; [exact Hy|]. split; [exact Hx|]. split; [exact HN|].
    intros j Hj.
    apply (recovered_projected_feasible (nrows (_A s)) (ncols (_A s))
             (coeff (rows_of u)) (coeff (rows_of vh)) (fun k => nth k sv 0)
             HUc HVr Hsort _
             (tolerance_nonneg _ _ sv smax Ha
                ltac:(destruct sv as [|a l];
                      [simpl; lra | apply (Hnn 0%nat); rewrite <- Hsl; simpl; lia]))
             (fun i => nth i (_b s) 0) (fun j => nth j yv 0)); [|exact HVc|exact Hj].
    intros i Hi. rewrite (Hent i Hi).
    apply big_sum_ext. intros j' Hj'. f_equal. now apply Hfac.
Qed.

(** X15.  [make_feasible] leaves a state that already satisfies the
    constraints as it is, unless [dim_x] is 1. *)
Theorem make_feasible_keeps_feasible_states
    (s0 s : ObjectiveFunction) (eq : Equilibrium.t) (use_jit : bool) (yv : list R) :
  OF_build svd s0 eq use_jit = Ok s ->
  (constraints s <> [] -> svd_ok svd s) ->
  _dim_x s <> 1%nat ->
  shape (_y0 s) = [length yv] ->
  (constraints s <> [] -> dot (_A s) (Vec yv) = Ok (Vec (_b s))) ->
  make_feasible s (Vec yv) None = Ok (Vec yv).
Proof.
  intros Hb Hsvd Hx1 Hshape Hfeas.
  destruct (OF_build_data svd _ _ _ _ Hb) as [Hbuilt Hd].
  destruct (feasible_round_trip s yv Hd Hsvd Hshape Hfeas)
    as [N [d [W [Y [HZ [Hy [Hx [HN Hid]]]]]]]].
  assert (Hyv : Vec yv = Vec (vec_of N (fun j => nth j yv 0)))
    by (rewrite <- HN; f_equal; apply vec_of_nth).
  rewrite Hyv at 1.
  rewrite (make_feasible_vec s N d W Y Hbuilt HZ Hy) by congruence.
  rewrite Hyv. do 2 f_equal. now apply vec_of_ext.
Qed.

End FeasibleFixedPoints.

Section FeasibleCases.
Import Np ObjectiveFuns.

(** Three state variables and two free ones, with the constraint
    [Psi = 7]: the state [[5, 6, 9]] is made feasible as [[5, 6, 7]], and the
    feasible state [[5, 6, 7]] is kept. *)
Lemma make_feasible_satisfies_constraints_witness :
  exists s y',
    OF_build svd_0_0_1 (OF_init [fixed_first_mode] [fixed_psi 7 1] true)
      example_eq true = Ok s
    /\ _dim_x s = 2%nat
    /\ make_feasible s (Vec [5; 6; 9]) None = Ok (Vec [5; 6; 7])
    /\ make_feasible s (Vec [5; 6; 9]) None = Ok y'
    /\ dot (_A s) y' = Ok (Vec (_b s)).
Proof.
  destruct (two_free_variables 7)
    as [s [Hb [Hbuilt [Hc [HA [Hbv [Hy [HZ [Hx Hdy]]]]]]]]].
  assert (Hfeas : dot (_A s) (Vec [5; 6; 7]) = Ok (Vec (_b s))).
  { rewrite HA, Hbv. cbn [dot length Nat.eqb map dotv]. do 2 f_equal.
    repeat (f_equal; try ring). }
  destruct (make_feasible_satisfies_constraints svd_0_0_1 _ s example_eq true
              [5; 6; 9] [5; 6; 7] Hb)
    as [y' [H1 H2]].
  - rewrite Hc. discriminate.
  - unfold svd_ok. rewrite HA. exact svd_0_0_1_contract.
  - now apply exact_rank_0_0_1.
  - rewrite Hx. discriminate.
  - exact Hfeas.
  - rewrite HA. reflexivity.
  - exists s, y'. split; [exact Hb|]. split; [exact Hx|].
    split; [|split; [exact H1 | exact H2]].
    unfold make_feasible, project, default_y0, y0, Z, guarded.
    rewrite Hbuilt, Hy, HZ. eval_arrays. do 2 f_equal; repeat (f_equal; try ring).
Defined.

Lemma make_feasible_keeps_feasible_states_witness :
  exists s,
    OF_build svd_0_0_1 (OF_init [fixed_first_mode] [fixed_psi 7 1] true)
      example_eq true = Ok s
    /\ _dim_x s = 2%nat
    /\ dot (_A s) (Vec [5; 6; 7]) = Ok (Vec (_b s))
    /\ make_feasible s (Vec [5; 6; 7]) None = Ok (Vec [5; 6; 7]).
Proof.
  destruct (two_free_variables 7)
    as [s [Hb [Hbuilt [Hc [HA [Hbv [Hy [HZ [Hx Hdy]]]]]]]]].
  assert (Hfeas : dot (_A s) (Vec [5; 6; 7]) = Ok (Vec (_b s))).
  { rewrite HA, Hbv. cbn [dot length Nat.eqb map dotv]. do 2 f_equal.
    repeat (f_equal; try ring). }
  exists s. split; [exact Hb|]. split; [exact Hx|]. split; [exact Hfeas|].
  apply (make_feasible_keeps_feasible_states svd_0_0_1 _ s example_eq true
           [5; 6; 7] Hb).
  - intros _. unfold svd_ok. rewrite HA. exact svd_0_0_1_contract.
  - rewrite Hx. discriminate.
  - rewrite Hy. reflexivity.
  - intros _. exact Hfeas.
Defined.

(** One free variable and two state variables: the feasible state [[5, 7]]
    comes back as a [2 x 2] matrix. *)
Lemma make_feasible_one_free_variable_witness :
  exists s rows,
    OF_build svd_0_1 (OF_init [fixed_boundary_Z] [fixed_psi 7 1] true)
      one_mode_eq true = Ok s
    /\ make_feasible s (Vec [5; 7]) None = Ok (Mat 2 rows)
    /\ length rows = 2%nat.
Proof.
  destruct (one_free_variable 7) as [s [Hb [Hbuilt [Hc [HA [Hbv [Hy [HZ [Hx Hdy]]]]]]]]].
  destruct (make_feasible_with_one_free_variable_is_a_matrix svd_0_1 _ s one_mode_eq
              true [5; 7] Hb) as [rows [H1 H2]].
  - intros _. unfold svd_ok. rewrite HA. exact svd_0_1_contract.
  - exact Hx.
  - rewrite Hy. reflexivity.
  - simpl. lia.
  - exists s, rows. split; [exact Hb|]. split; [exact H1 | exact H2].
Defined.

End FeasibleCases.

(** ** Calls that are refused *)

Section Refused.
Import Np ObjectiveFuns.

(** X16.  Before [build], the properties [y0], [Z], [A], [b], [dim_x] and
    [dim_y] and the methods [project], [recover], [make_feasible],
    [unpack_state], [compute] and [compute_scalar] all raise
    [RuntimeError], whatever their arguments. *)
Theorem unbuilt_objective_function_refuses
    (s : ObjectiveFunction) (v : ndarray) (y0' : option ndarray) :
  OF_built s = false ->
  y0 s = Raise RuntimeError
  /\ Z s = Raise RuntimeError
  /\ A s = Raise RuntimeError
  /\ b s = Raise RuntimeError
  /\ dim_x s = Raise RuntimeError
  /\ dim_y s = Raise RuntimeError
  /\ project s v y0' = Raise RuntimeError
  /\ recover s v y0' = Raise RuntimeError
  /\ make_feasible s v y0' = Raise RuntimeError
  /\ unpack_state s v y0' = Raise RuntimeError
  /\ OF_compute s v y0' = Raise RuntimeError
  /\ OF_compute_scalar s v y0' = Raise RuntimeError.
Proof.
  intros H.
  unfold OF_compute_scalar, OF_compute, unpack_state, make_feasible, recover, project,
    default_y0, y0, Z, A, b, dim_x, dim_y, guarded.
  rewrite H. cbn [negb bind].
  repeat split; try reflexivity.
  destruct y0' as [w|]; reflexivity.
Qed.

Lemma unbuilt_objective_function_witness :
  project (OF_init [] [] true) (Vec [1]) None = Raise RuntimeError
  /\ make_feasible (OF_init [] [] true) (Vec [1]) (Some (Vec [0])) = Raise RuntimeError.
Proof.
  destruct (unbuilt_objective_function_refuses (OF_init [] [] true) (Vec [1]) None
              eq_refl) as [_ [_ [_ [_ [_ [_ [H _]]]]]]].
  destruct (unbuilt_objective_function_refuses (OF_init [] [] true) (Vec [1])
              (Some (Vec [0])) eq_refl) as [_ [_ [_ [_ [_ [_ [_ [_ [H' _]]]]]]]]].
  split; [exact H | exact H'].
Defined.

Variable svd : ndarray -> ndarray * list R * ndarray.

Lemma build_all_stops_at_nonlinear (eq : Equilibrium.t) (use_jit : bool)
    (c : object) (post : list object) :
  linear (cls c) = false ->
  forall (pre : list object) (acc : list object * nat),
    (forall o, In o pre ->
       linear (cls o) = true /\ exists o', obj_build o eq use_jit = Ok o') ->
    foldM (fun acc o =>
             if true && negb (linear (cls o)) then Raise NotImplementedError
             else
               o' <- obj_build o eq use_jit ;;
               Ok (fst acc ++ [o'], (snd acc + obj_dim_f o')%nat))
          (pre ++ c :: post) acc
    = Raise NotImplementedError.
Proof.
  intros Hc. induction pre as [|o pre IH]; intros acc Hpre.
  - cbn [app foldM]. rewrite Hc. reflexivity.
  - cbn [app foldM].
    destruct (Hpre o (or_introl eq_refl)) as [Hl [o' Ho]].
    rewrite Hl, Ho. cbn [andb negb bind].
    apply IH. intros o2 Ho2. apply Hpre. now right.
Qed.

(** X17.  [build] raises [NotImplementedError] at the first constraint that
    is not linear, when the constraints before it are linear and build; the
    objectives are not reached. *)
Theorem build_refuses_nonlinear_constraints
    (s : ObjectiveFunction) (eq : Equilibrium.t) (use_jit : bool)
    (pre post : list object) (c : object) :
  constraints s = pre ++ c :: post ->
  linear (cls c) = false ->
  (forall o, In o pre ->
     linear (cls o) = true /\ exists o', obj_build o eq use_jit = Ok o') ->
  OF_build svd s eq use_jit = Raise NotImplementedError.
Proof.
  intros Hcs Hc Hpre. unfold OF_build, build_all. rewrite Hcs.
  now rewrite (build_all_stops_at_nonlinear eq use_jit c post Hc pre ([], O) Hpre).
Qed.

End Refused.

(** A class like [FixedPsi] that declares itself nonlinear. *)
Definition nonlinear_class : ObjectiveFuns.Class unit :=
  ObjectiveFuns.mkClass unit (LinearObjectives.FixedPsi.build affine_engine)
    LinearObjectives.FixedPsi.compute LinearObjectives.FixedPsi.params
    false true "nonlinear" "" (LinearObjectives.FixedPsi.update_target).

Lemma build_refuses_nonlinear_constraints_witness :
  ObjectiveFuns.OF_build svd_0_1
    (ObjectiveFuns.OF_init [fixed_boundary_Z]
       [fixed_psi 7 1; ObjectiveFuns.mkObject unit nonlinear_class (psi_self 0 1)] true)
    one_mode_eq true
  = Raise NotImplementedError.
Proof.
  apply (build_refuses_nonlinear_constraints svd_0_1 _ one_mode_eq true
           [fixed_psi 7 1] []
           (ObjectiveFuns.mkObject unit nonlinear_class (psi_self 0 1))).
  - reflexivity.
  - reflexivity.
  - intros o [<-|[]]. split; [reflexivity|].
    exists (built_psi 7 1). apply build_fixed_psi.
Defined.

(** ** A state vector of a single entry *)

Section SingleEntry.
Import Np ObjectiveFuns.

Lemma mapM_first_raises {T U : Type} (f : T -> result U) (a : T) (l : list T) (e : exn) :
  f a = Raise e -> mapM f (a :: l) = Raise e.
Proof. intros H. cbn [mapM]. now rewrite H. Qed.

Variable svd : ndarray -> ndarray * list R * ndarray.

(** X18.  On a built [ObjectiveFunction] whose state vector has a single
    entry and that takes at least one argument, [unpack_state] and [compute]
    raise for every 1-D [x] of [dim_x] entries: [recover] squeezes the state
    to a 0-d array, and indexing it raises [IndexError] (or the look-up of
    the first argument's indices raises [KeyError]). *)
Theorem single_entry_state_cannot_be_unpacked
    (s0 s : ObjectiveFunction) (eq : Equilibrium.t) (use_jit : bool) (xv : list R) :
  OF_build svd s0 eq use_jit = Ok s ->
  (constraints s <> [] -> svd_ok svd s) ->
  shape (_y0 s) = [1%nat] ->
  length xv = _dim_x s ->
  OF_args s <> [] ->
  exists e,
    (e = IndexError \/ e = KeyError)
    /\ unpack_state s (Vec xv) None = Raise e
    /\ OF_compute s (Vec xv) None = Raise e.
Proof.
  intros Hb Hsvd Hshape Hlen Hargs.
  destruct (OF_build_data svd _ _ _ _ Hb) as [Hbuilt Hd].
  destruct (null_space_form svd s Hd Hsvd) as [N [d [W [Y [HZ [Hy [Hdx _]]]]]]].
  assert (HN : N = 1%nat).
  { rewrite Hy in Hshape. simpl in Hshape. rewrite length_vec_of in Hshape.
    now injection Hshape. }
  subst N.
  assert (Hrec : recover s (Vec xv) None
                 = Ok (Scalar (recovered d W Y (fun c => nth c xv 0) 0))).
  { rewrite (vec_of_nth xv) at 1. rewrite Hlen, Hdx.
    rewrite (recover_vec s 1 d W Y Hbuilt HZ Hy). now rewrite squeeze_vec_1. }
  destruct (OF_args s) as [|a rest] eqn:Ha; [contradiction|].
  assert (Hun : exists e, (e = IndexError \/ e = KeyError)
                          /\ unpack_state s (Vec xv) None = Raise e).
  { unfold unpack_state. rewrite Hbuilt. cbn [negb atleast_1d].
    unfold size. cbn [nrows ncols]. rewrite Nat.mul_1_l, Hlen, Nat.eqb_refl.
    rewrite Hrec. cbn [bind]. rewrite Ha.
    destruct (getitem (_y_idx s) a) as [idx|e] eqn:Hg.
    - exists IndexError. split; [now left|].
      apply mapM_first_raises. rewrite Hg. reflexivity.
    - exists e. split.
      + unfold getitem in Hg. destruct (lookup (_y_idx s) a); [discriminate|].
        injection Hg as <-. now right.
      + apply mapM_first_raises. rewrite Hg. reflexivity. }
  destruct Hun as [e [He Hun]]. exists e. split; [exact He|]. split; [exact Hun|].
  unfold OF_compute. now rewrite Hun.
Qed.

End SingleEntry.

(** The constraints [3 Psi = 3] and [4 Psi = 4] on the single state variable
    [Psi]. *)
Lemma two_constraints_on_Psi_state (t1 t2 : R) :
  exists s,
    ObjectiveFuns.OF_build svd_3_4
      (ObjectiveFuns.OF_init [fixed_psi 0 1] [fixed_psi t1 3; fixed_psi t2 4] true)
      one_mode_eq true = Ok s
    /\ ObjectiveFuns.constraints s = [built_psi t1 3; built_psi t2 4]
    /\ ObjectiveFuns._A s = Np.Mat 1 [[3]; [4]]
    /\ Np.shape (ObjectiveFuns._y0 s) = [1%nat]
    /\ ObjectiveFuns._dim_x s = 0%nat
    /\ ObjectiveFuns.OF_args s = ["Psi"%string].
Proof.
  unfold ObjectiveFuns.OF_build, ObjectiveFuns.build_all, ObjectiveFuns.OF_init.
  cbn [ObjectiveFuns.constraints ObjectiveFuns.objectives ObjectiveFuns.foldM].
  cbn [ObjectiveFuns.linear ObjectiveFuns.cls fixed_psi
       LinearObjectives.FixedPsi.class andb negb].
  fold (fixed_psi t1 3). fold (fixed_psi t2 4). fold (fixed_psi 0 1).
  rewrite !build_fixed_psi. cbn [bind fst snd app].
  eval_arrays. unfold ObjectiveFuns._build_linear_constraints. eval_arrays.
  unfold ObjectiveFuns.eliminate. eval_arrays.
  rewrite (first_is_large 5 2) by (lra || lia). eval_arrays.
  eexists. split; [reflexivity|].
  cbn [ObjectiveFuns.constraints ObjectiveFuns._A ObjectiveFuns._b ObjectiveFuns._y0
       ObjectiveFuns._Z ObjectiveFuns._dim_x ObjectiveFuns.OF_built
       ObjectiveFuns.OF_args Np.shape length
       ObjectiveFuns.with_linear ObjectiveFuns.with_state_vector].
  repeat split.
  do 2 f_equal; [|f_equal]; f_equal; ring.
Qed.

Lemma single_entry_state_witness :
  exists s e,
    ObjectiveFuns.OF_build svd_3_4
      (ObjectiveFuns.OF_init [fixed_psi 0 1] [fixed_psi 3 3; fixed_psi 4 4] true)
      one_mode_eq true = Ok s
    /\ ObjectiveFuns.unpack_state s (Np.Vec []) None = Raise e
    /\ ObjectiveFuns.OF_compute s (Np.Vec []) None = Raise e.
Proof.
  destruct (two_constraints_on_Psi_state 3 4) as [s [Hb [Hc [HA [Hy [Hx Hargs]]]]]].
  destruct (single_entry_state_cannot_be_unpacked svd_3_4 _ s one_mode_eq true [] Hb)
    as [e [_ [H1 H2]]].
  - intros _. unfold svd_ok. rewrite HA. exact svd_3_4_contract.
  - exact Hy.
  - now rewrite Hx.
  - rewrite Hargs. discriminate.
  - exists s, e. split; [exact Hb|]. split; [exact H1 | exact H2].
Defined.

(** ** Targets taken from an equilibrium *)

Section Targets.
Import Np ObjectiveFuns.

Lemma nodup_single {T : Type} (dec : forall a b : T, {a = b} + {a <> b}) (d : T)
    (l : list T) :
  length (nodup dec l) = 1%nat -> l = repeat (hd d l) (length l).
Proof.
  induction l as [|a l IH]; [discriminate|].
  cbn [nodup]. destruct (in_dec dec a l) as [Hin|Hn].
  - intros H. specialize (IH H). cbn [hd length repeat]. f_equal.
    rewrite IH in Hin. apply repeat_spec in Hin. rewrite <- Hin in IH. exact IH.
  - cbn [length]. intros H.
    assert (Hnil : nodup dec l = []) by (apply length_zero_iff_nil; lia).
    destruct l as [|b l]; [reflexivity|].
    assert (Hb : In b (nodup dec (b :: l))) by (apply nodup_In; now left).
    rewrite Hnil in Hb. contradiction.
Qed.

Lemma existsb_is_None_floats (r : list R) : existsb is_None (map Some r) = false.
Proof. induction r as [|a r IH]; [reflexivity | exact IH]. Qed.

Lemma floats_of_floats (r : list R) : floats (map Some r) = Ok r.
Proof.
  unfold floats. induction r as [|a r IH]; [reflexivity|].
  cbn [map mapM bind]. now rewrite IH.
Qed.

Context {Ext : Type}.
Implicit Types self : _Objective Ext.

(** What the [target] setter stores for an array of [dim_f] floats. *)
Lemma set_target_of_floats self (self' : _Objective Ext) (r : list R) :
  length r = _dim_f self ->
  set_target self (map Some r) = Ok self' ->
  _target self' = map Some r
  /\ length (_weight self') = _dim_f self
  /\ _dim_f self' = _dim_f self
  /\ ext self' = ext self.
Proof.
  intros Hr. unfold set_target, _check_dimensions, unique_size.
  cbn [_target with_target]. rewrite existsb_is_None_floats. cbn [andb bind].
  intros H.
  assert (Ht : (if Nat.eqb (length (nodup option_R_eq_dec (map Some r))) 1
                then repeat (hd None (map Some r)) (_dim_f self)
                else map Some r) = map Some r).
  { destruct (Nat.eqb_spec (length (nodup option_R_eq_dec (map Some r))) 1) as [E|E];
      [|reflexivity].
    rewrite (nodup_single option_R_eq_dec None _ E) at 2.
    now rewrite length_map, Hr. }
  destruct (Nat.eqb (length (nodup option_R_eq_dec (map Some r))) 1);
    destruct (Nat.eqb (length (nodup Req_dec_T (_weight _))) 1);
    cbn [_target _weight _dim_f with_target with_weight] in H;
    match type of H with
    | (if negb (Nat.eqb ?a ?b) then _ else _) = _ =>
        destruct (Nat.eqb_spec a b) as [E1|E1]; cbn [negb] in H; [|discriminate]
    end;
    match type of H with
    | (if negb (Nat.eqb ?a ?b) then _ else _) = _ =>
        destruct (Nat.eqb_spec a b) as [E2|E2]; cbn [negb] in H; [|discriminate]
    end;
    injection H as <-; cbn; repeat split; assumption.
Qed.

(** [(v - v) * w], entry by entry, for arrays of the same length. *)
Lemma zero_residual (v w : list R) :
  length w = length v ->
  (d <- sub (Vec v) (Vec v) ;; mul d (Vec w)) = Ok (Vec (repeat 0 (length v))).
Proof.
  intros Hw. rewrite (vec_of_nth v) at 1 2. unfold sub. rewrite binop_vec_vec.
  cbn [bind]. rewrite (vec_of_nth w), Hw. unfold mul. rewrite binop_vec_vec.
  rewrite repeat_vec_of. do 2 f_equal. apply vec_of_ext. intros j _. ring.
Qed.

End Targets.

Section FixedPsiTarget.
Import Np ObjectiveFuns LinearObjectives LinearObjectives.FixedPsi.

(** X19.  After [FixedPsi.update_target(eq)] on an objective with
    [dim_f = 1], the residual at [eq.Psi] is zero, whatever the weight. *)
Theorem fixed_psi_update_target_zeroes_residual
    (self self' : FixedPsi.t) (eq : Equilibrium.t) :
  _dim_f self = 1%nat ->
  update_target eq self = Ok self' ->
  compute self' [("Psi"%string, Vec [Equilibrium.Psi eq])] = Ok (Vec [0]).
Proof.
  intros Hdim Hup. unfold update_target in Hup.
  destruct (set_target_of_floats self self' [Equilibrium.Psi eq]
              ltac:(now rewrite Hdim) Hup) as [Ht [Hw _]].
  unfold compute, _compute. cbn [lookup String.eqb Ascii.eqb Bool.eqb].
  rewrite Ht. change [Some (Equilibrium.Psi eq)] with (map Some [Equilibrium.Psi eq]).
  rewrite floats_of_floats. cbn [bind].
  apply (zero_residual [Equilibrium.Psi eq] (_weight self')).
  now rewrite Hw, Hdim.
Qed.

Variable Derivative_compute : Derivative -> list ndarray -> result ndarray.

Lemma set_derivatives_keeps_target {Ext : Type}
    (cmp : _Objective Ext -> kwargs -> result ndarray) (ps : list string)
    (lin jit : bool) (self self' : _Objective Ext) :
  _set_derivatives Derivative_compute cmp ps lin jit self = Ok self' ->
  _target self' = _target self /\ _weight self' = _weight self
  /\ _dim_f self' = _dim_f self /\ ext self' = ext self.
Proof.
  unfold _set_derivatives. intros H.
  apply bind_Ok in H. destruct H as [kw [_ H]].
  apply bind_Ok in H. destruct H as [args [_ H]].
  apply bind_Ok in H. destruct H as [acc [_ H]].
  injection H as <-. repeat split.
Qed.

(** X20.  Built with [target=None], a [FixedPsi] objective takes its target
    from the equilibrium: the target is [eq.Psi] and the residual at
    [eq.Psi] is zero. *)
Theorem fixed_psi_built_without_target
    (eq : Equilibrium.t) (use_jit : bool) (w : R) (self' : FixedPsi.t) :
  build Derivative_compute eq use_jit (init [None] [w]) = Ok self' ->
  _target self' = [Some (Equilibrium.Psi eq)]
  /\ compute self' [("Psi"%string, Vec [Equilibrium.Psi eq])] = Ok (Vec [0]).
Proof.
  unfold build. cbn [existsb is_None _target with_dim_f init ObjectiveFuns.init orb].
  intros H.
  apply bind_Ok in H. destruct H as [s1 [H1 H]].
  apply bind_Ok in H. destruct H as [s2 [H2 H]].
  apply bind_Ok in H. destruct H as [s3 [H3 H]].
  injection H as <-.
  destruct (set_target_of_floats (with_dim_f (init [None] [w]) 1) s1
              [Equilibrium.Psi eq] eq_refl H1)
    as [Ht1 [Hw1 [Hd1 _]]].
  cbn [_dim_f] in Hw1, Hd1.
  assert (Hs2 : _target s2 = [Some (Equilibrium.Psi eq)] /\ length (_weight s2) = 1%nat).
  { assert (Hs1 : s1 = with_target s1 (map Some [Equilibrium.Psi eq])).
    { destruct s1. cbn in Ht1 |- *. now rewrite Ht1. }
    rewrite Hs1 in H2.
    destruct (set_target_of_floats s1 s2 [Equilibrium.Psi eq]
                ltac:(now rewrite Hd1) H2) as [Ht2 [Hw2 _]].
    split; [exact Ht2 | now rewrite Hw2, Hd1]. }
  destruct Hs2 as [Ht2 Hw2].
  destruct (set_derivatives_keeps_target _ _ _ _ _ _ H3) as [Ht3 [Hw3 _]].
  cbn [_target _weight _set_dimensions with_dimensions] in Ht3, Hw3.
  assert (Ht : _target (with_built s3 true) = [Some (Equilibrium.Psi eq)])
    by (cbn; now rewrite Ht3).
  split; [exact Ht|].
  unfold compute, _compute. cbn [lookup String.eqb Ascii.eqb Bool.eqb].
  rewrite Ht. change [Some (Equilibrium.Psi eq)] with (map Some [Equilibrium.Psi eq]).
  rewrite floats_of_floats. cbn [bind].
  apply (zero_residual [Equilibrium.Psi eq]).
  cbn [_weight with_built]. now rewrite Hw3, Hw2.
Qed.

End FixedPsiTarget.

Section FixedBoundaryTarget.
Import Np ObjectiveFuns LinearObjectives LinearObjectives.FixedBoundaryZ.

Lemma length_take {T : Type} (v : list T) (idx : list nat) (r : list T) :
  take v idx = Ok r -> length r = length idx.
Proof.
  unfold take. revert r. induction idx as [|i idx IH]; intros r H.
  - now injection H as <-.
  - cbn [mapM] in H. apply bind_Ok in H. destruct H as [a [_ H]].
    apply bind_Ok in H. destruct H as [r' [Hr H]]. injection H as <-.
    cbn [length]. f_equal. now apply IH.
Qed.

(** X21.  After [FixedBoundaryZ.update_target(eq)] on an objective whose
    [dim_f] is the number of fixed modes, the residual at the boundary
    coefficients [eq.surface.Z_lmn] is zero: the target is read from
    [Z_lmn] at the fixed indices. *)
Theorem fixed_boundary_Z_update_target_zeroes_residual
    (self self' : FixedBoundaryZ.t) (eq : Equilibrium.t) :
  _dim_f self = length (_idx (ext self)) ->
  update_target eq self = Ok self' ->
  compute self' [("Zb_lmn"%string, Vec (Surface.Z_lmn (Equilibrium.surface eq)))]
  = Ok (Vec (repeat 0 (_dim_f self))).
Proof.
  intros Hdim Hup. unfold update_target in Hup.
  apply bind_Ok in Hup. destruct Hup as [r [Hr Hup]].
  pose proof (length_take _ _ _ Hr) as Hlen.
  destruct (set_target_of_floats self self' r ltac:(now rewrite Hlen, Hdim) Hup)
    as [Ht [Hw [_ He]]].
  unfold compute, _compute. cbn [lookup String.eqb Ascii.eqb Bool.eqb].
  unfold index. rewrite He, Hr. cbn [bind].
  rewrite Ht, floats_of_floats. cbn [bind].
  rewrite Hdim, <- Hlen.
  apply (zero_residual r (_weight self')).
  now rewrite Hw, Hdim, Hlen.
Qed.

End FixedBoundaryTarget.

Section TargetCases.
Import Np ObjectiveFuns LinearObjectives.

Ltac evaluate :=
  lazy -[Rplus Rminus Rmult Rdiv Rinv Ropp IZR INR Rmax Rabs pow sqrt
         Req_dec_T Rlt_dec].

(** A built [FixedPsi] objective with target 3 and weight 2, updated from an
    equilibrium with [Psi = 1]. *)
Lemma fixed_psi_update_example :
  exists self', FixedPsi.update_target one_mode_eq (built_psi_self 3 2) = Ok self'.
Proof. eexists. evaluate. reflexivity. Qed.

Lemma fixed_psi_update_target_witness :
  exists self',
    FixedPsi.update_target one_mode_eq (built_psi_self 3 2) = Ok self'
    /\ FixedPsi.compute self' [("Psi"%string, Vec [1])] = Ok (Vec [0]).
Proof.
  destruct fixed_psi_update_example as [self' H].
  exists self'. split; [exact H|].
  apply (fixed_psi_update_target_zeroes_residual (built_psi_self 3 2) self'
           one_mode_eq eq_refl H).
Defined.

Lemma fixed_psi_build_example :
  exists self',
    FixedPsi.build affine_engine one_mode_eq true (FixedPsi.init [None] [2]) = Ok self'.
Proof. eexists. evaluate. reflexivity. Qed.

Lemma fixed_psi_built_without_target_witness :
  exists self',
    FixedPsi.build affine_engine one_mode_eq true (FixedPsi.init [None] [2]) = Ok self'
    /\ _target self' = [Some 1]
    /\ FixedPsi.compute self' [("Psi"%string, Vec [1])] = Ok (Vec [0]).
Proof.
  destruct fixed_psi_build_example as [self' H].
  exists self'. split; [exact H|].
  apply (fixed_psi_built_without_target affine_engine one_mode_eq true 2 self' H).
Defined.

(** The built [FixedBoundaryZ] objective on one mode, updated from the
    equilibrium with [Z_lmn = [2]]. *)
Lemma fixed_boundary_Z_update_example :
  exists self',
    FixedBoundaryZ.update_target one_mode_eq built_boundary_Z_self = Ok self'.
Proof. eexists. evaluate. reflexivity. Qed.

Lemma fixed_boundary_Z_update_target_witness :
  exists self',
    FixedBoundaryZ.update_target one_mode_eq built_boundary_Z_self = Ok self'
    /\ FixedBoundaryZ.compute self' [("Zb_lmn"%string, Vec [2])] = Ok (Vec [0]).
Proof.
  destruct fixed_boundary_Z_update_example as [self' H].
  exists self'. split; [exact H|].
  apply (fixed_boundary_Z_update_target_zeroes_residual built_boundary_Z_self self'
           one_mode_eq eq_refl H).
Defined.

End TargetCases.

(** ** Targets given to a fixed-boundary objective *)

Section GivenTargets.
Import Np ObjectiveFuns LinearObjectives LinearObjectives.FixedBoundaryZ.

Lemma take_all {T : Type} (v : list T) : take v (seq 0 (length v)) = Ok v.
Proof.
  assert (G : forall pre, take (pre ++ v) (seq (length pre) (length v)) = Ok v).
  { induction v as [|a v IH]; intros pre; [reflexivity|].
    cbn [length seq]. unfold take. cbn [mapM].
    rewrite nth_error_app2 by lia. rewrite Nat.sub_diag. cbn [nth_error bind].
    specialize (IH (pre ++ [a])). rewrite <- app_assoc, length_app in IH.
    cbn [length app] in IH. rewrite Nat.add_1_r in IH.
    unfold take in IH. now rewrite IH. }
  exact (G []).
Qed.

Lemma check_dimensions_of_floats {Ext : Type} (self self' : _Objective Ext)
    (r : list R) :
  _target self = map Some r ->
  length r = _dim_f self ->
  _check_dimensions self = Ok self' ->
  _target self' = map Some r
  /\ length (_weight self') = _dim_f self
  /\ _dim_f self' = _dim_f self
  /\ ext self' = ext self.
Proof.
  intros Ht Hr H. apply (set_target_of_floats self self' r Hr).
  unfold set_target. rewrite <- Ht.
  replace (with_target self (_target self)) with self by (now destruct self).
  exact H.
Qed.

Variable Derivative_compute : Derivative -> list ndarray -> result ndarray.

(** X23.  With [modes=True] on a surface of two or more boundary modes, a
    target array with one entry per mode together with a weight of a single
    entry makes [FixedBoundaryZ.build] raise [IndexError]: the first test of
    [build] reads the weight array at every mode index. *)
Theorem fixed_boundary_Z_given_target_needs_weights
    (eq : Equilibrium.t) (use_jit : bool) (self : FixedBoundaryZ.t) (w : R) (n : nat) :
  modes (ext self) = ModesTrue ->
  length (Basis.modes (Surface.Z_basis (chosen_surface self eq))) = n ->
  Basis.num_modes (Surface.Z_basis (chosen_surface self eq)) = n ->
  (2 <= n)%nat ->
  length (_target self) = n ->
  _weight self = [w] ->
  build Derivative_compute eq use_jit self = Raise IndexError.
Proof.
  intros Hm Hlen Hnum Hn Ht Hw. unfold build, fixed_modes. rewrite Hm, Hlen, Hnum.
  unfold settle_target. cbn [_target _weight with_ext with_dim_f].
  rewrite Ht, Nat.eqb_refl, Hw.
  destruct n as [|[|n]]; [lia | lia |]. reflexivity.
Qed.

(** X24.  With [modes=True], when the target and the weight both have one
    entry per boundary mode, a [FixedBoundaryZ.build] that returns has
    replaced the target by the weights. *)
Theorem fixed_boundary_Z_given_target_becomes_weights
    (eq : Equilibrium.t) (use_jit : bool) (self self' : FixedBoundaryZ.t) (n : nat) :
  modes (ext self) = ModesTrue ->
  length (Basis.modes (Surface.Z_basis (chosen_surface self eq))) = n ->
  Basis.num_modes (Surface.Z_basis (chosen_surface self eq)) = n ->
  length (_target self) = n ->
  length (_weight self) = n ->
  build Derivative_compute eq use_jit self = Ok self' ->
  _target self' = map Some (_weight self).
Proof.
  intros Hm Hlen Hnum Ht Hw. unfold build, fixed_modes. rewrite Hm, Hlen, Hnum.
  set (s0 := with_dim_f _ _).
  assert (Hd0 : _dim_f s0 = n) by (subst s0; cbn; apply length_seq).
  assert (Hw0 : _weight s0 = _weight self) by (subst s0; now destruct self).
  assert (Ht0 : length (_target s0) = n) by (subst s0; now destruct self).
  intros H. apply bind_Ok in H. destruct H as [s3 [Hs H]].
  apply bind_Ok in H. destruct H as [s4 [Hc H]].
  apply bind_Ok in H. destruct H as [s5 [Hder H]]. injection H as <-.
  cbn [_target with_built].
  destruct (set_derivatives_keeps_target _ _ _ _ _ _ _ Hder) as [-> _].
  replace (_target (_set_dimensions s4 eq)) with (_target s4) by (now destruct s4).
  unfold settle_target in Hs. rewrite Ht0, Nat.eqb_refl in Hs.
  rewrite Hw0, <- Hw, take_all in Hs. cbn [bind] in Hs.
  apply bind_Ok in Hs. destruct Hs as [s1 [H1 Hs]].
  destruct (set_target_of_floats s0 s1 (_weight self) ltac:(lia) H1)
    as [Ht1 [Hw1 [Hd1 _]]].
  apply bind_Ok in Hs. destruct Hs as [s2 [H2 Hs]].
  assert (Hs2 : _target s2 = map Some (_weight self) /\ _dim_f s2 = _dim_f s0).
  { assert (Hl1 : length (_weight s1) = n) by lia.
    rewrite Hl1, Hw, Nat.eqb_refl in H2. rewrite <- Hl1 in H2.
    rewrite take_all in H2. cbn [bind] in H2. unfold set_weight in H2.
    destruct (check_dimensions_of_floats (with_weight s1 (_weight s1)) s2
                (_weight self)) as [A [_ [B _]]].
    - now destruct s1.
    - replace (_dim_f (with_weight s1 (_weight s1))) with (_dim_f s1)
        by (now destruct s1).
      lia.
    - exact H2.
    - split; [exact A|]. rewrite B, <- Hd1. now destruct s1. }
  destruct Hs2 as [Ht2 Hd2].
  rewrite Ht2, existsb_is_None_floats, length_map, Hd2, Hd0, Hw, Nat.eqb_refl in Hs.
  cbn [negb orb] in Hs. injection Hs as <-.
  destruct (check_dimensions_of_floats s2 s4 (_weight self) Ht2 ltac:(lia) Hc)
    as [A _].
  exact A.
Qed.

End GivenTargets.

Lemma fixed_boundary_Z_given_target_needs_weights_witness :
  LinearObjectives.FixedBoundaryZ.build affine_engine example_eq true
    (LinearObjectives.FixedBoundaryZ.init [Some 5; Some 6] [1] None
       LinearObjectives.ModesTrue)
  = Raise IndexError.
Proof.
  apply (fixed_boundary_Z_given_target_needs_weights affine_engine example_eq true
           _ 1 2); solve [reflexivity | lia].
Defined.

Lemma fixed_boundary_Z_given_target_example :
  exists self',
    LinearObjectives.FixedBoundaryZ.build affine_engine one_mode_eq true
      (LinearObjectives.FixedBoundaryZ.init [Some 5] [3] None
         LinearObjectives.ModesTrue) = Ok self'.
Proof.
  eexists.
  lazy -[Rplus Rminus Rmult Rdiv Rinv Ropp IZR INR Rmax Rabs pow sqrt
         Req_dec_T Rlt_dec].
  reflexivity.
Qed.

Lemma fixed_boundary_Z_given_target_becomes_weights_witness :
  exists self',
    LinearObjectives.FixedBoundaryZ.build affine_engine one_mode_eq true
      (LinearObjectives.FixedBoundaryZ.init [Some 5] [3] None
         LinearObjectives.ModesTrue) = Ok self'
    /\ ObjectiveFuns._target self' = [Some 3].
Proof.
  destruct fixed_boundary_Z_given_target_example as [self' H].
  exists self'. split; [exact H|].
  apply (fixed_boundary_Z_given_target_becomes_weights affine_engine one_mode_eq true
           (LinearObjectives.FixedBoundaryZ.init [Some 5] [3] None
              LinearObjectives.ModesTrue)
           self' 1 eq_refl eq_refl eq_refl eq_refl eq_refl H).
Defined.

(** ** class FixedBoundaryR (desc/objectives/linear_objectives.py) *)

Module FixedBoundaryR.
Import Np ObjectiveFuns LinearObjectives.

Record extra : Type := mkExt {
  surface : option Surface.t;
  modes : modes_arg;
  _idx : list nat
}.

Definition t : Type := _Objective extra.

(** [__init__(self, eq=None, target=None, weight=1, surface=None, modes=True)]
    with [eq=None]. *)
Definition init (target : list (option R)) (weight : list R)
    (surface : option Surface.t) (modes : modes_arg) : t :=
  ObjectiveFuns.init target weight (mkExt surface modes []).

(** [_compute(self, Rb_lmn)] *)
Definition _compute (self : t) (Rb_lmn : ndarray) : result ndarray :=
  Rb <- index Rb_lmn (_idx (ext self)) ;;
  target <- floats (_target self) ;;
  sub Rb (Vec target).

(** [compute(self, Rb_lmn, **kwargs)] *)
Definition compute (self : t) (kw : kwargs) : result ndarray :=
  match lookup kw "Rb_lmn" with
  | None => Raise TypeError
  | Some Rb_lmn =>
      Rb <- _compute self Rb_lmn ;;
      mul Rb (Vec (_weight self))
  end.

Definition params : list string := ["Rb_lmn"%string].

(** The surface [build] keeps in [self.surface]. *)
Definition chosen_surface (self : t) (eq : Equilibrium.t) : Surface.t :=
  match surface (ext self) with
  | None => Equilibrium.surface eq
  | Some sf =>
      if negb (same_resolution sf (Equilibrium.surface eq))
      then Equilibrium.surface eq
      else sf
  end.

(** The branch on [self.modes]: [(modes.shape[0], self._idx, idx)]. *)
Definition fixed_modes (m : modes_arg) (sf : Surface.t) : nat * list nat * list nat :=
  match m with
  | ModesFalse | ModesNone => (1%nat, [], [])
  | ModesTrue =>
      let idx := seq 0 (Basis.num_modes (Surface.R_basis sf)) in
      (length (Basis.modes (Surface.R_basis sf)), idx, idx)
  | ModesArray ms =>
      let '(i1, i2) := intersect1d (Basis.modes (Surface.R_basis sf)) ms in
      (Nat.max 1 (length ms), i1, i2)
  end.

(** The three tests of [build] that settle [self.target] and [self.weight],
    after [self._dim_f] is set. *)
Definition settle_target (self : t) (sf : Surface.t) (nmodes : nat) (idx : list nat)
    : result t :=
  self <- (if Nat.eqb (length (_target self)) nmodes
           then w <- take (_weight self) idx ;; set_target self (map Some w)
           else Ok self) ;;
  self <- (if Nat.eqb (length (_weight self)) nmodes
           then w <- take (_weight self) idx ;; set_weight self w
           else Ok self) ;;
  if existsb is_None (_target self)
     || negb (Nat.eqb (length (_target self)) (_dim_f self))
  then r <- take (Surface.R_lmn sf) (_idx (ext self)) ;; set_target self (map Some r)
  else Ok self.

Section Engine.

Variable Derivative_compute : Derivative -> list ndarray -> result ndarray.

(** [build(self, eq, use_jit=True, verbose=1)] *)
Definition build (eq : Equilibrium.t) (use_jit : bool) (self : t) : result t :=
  let sf := chosen_surface self eq in
  let '(nmodes, i1, idx) := fixed_modes (modes (ext self)) sf in
  let self := with_ext self (mkExt (Some sf) (modes (ext self)) i1) in
  let self := with_dim_f self (length i1) in
  self <- settle_target self sf nmodes idx ;;
  self <- _check_dimensions self ;;
  let self := _set_dimensions self eq in
  self <- _set_derivatives Derivative_compute compute params true use_jit self ;;
  Ok (with_built self true).

(** [update_target(self, eq)] *)
Definition update_target (eq : Equilibrium.t) (self : t) : result t :=
  r <- take (Surface.R_lmn (Equilibrium.surface eq)) (_idx (ext self)) ;;
  set_target self (map Some r).

Definition class : Class extra :=
  mkClass extra build compute params true false "fixed-boundary R" "" update_target.

End Engine.

End FixedBoundaryR.

Section FixedBoundaryRTarget.
Import Np ObjectiveFuns LinearObjectives FixedBoundaryR.

Variable Derivative_compute : Derivative -> list ndarray -> result ndarray.

(** X25.  Built with [target=None], [modes=True] and a single weight on a
    surface of two or more boundary modes, a [FixedBoundaryR] objective
    takes its target from the surface's R coefficients at the fixed modes,
    and its residual at [surface.R_lmn] is zero. *)
Theorem fixed_boundary_R_built_without_target
    (eq : Equilibrium.t) (use_jit : bool) (self self' : FixedBoundaryR.t)
    (w : R) (n : nat) :
  modes (ext self) = ModesTrue ->
  length (Basis.modes (Surface.R_basis (chosen_surface self eq))) = n ->
  Basis.num_modes (Surface.R_basis (chosen_surface self eq)) = n ->
  (2 <= n)%nat ->
  _target self = [None] ->
  _weight self = [w] ->
  build Derivative_compute eq use_jit self = Ok self' ->
  exists r,
    take (Surface.R_lmn (chosen_surface self eq)) (seq 0 n) = Ok r
    /\ _target self' = map Some r
    /\ compute self' [("Rb_lmn"%string, Vec (Surface.R_lmn (chosen_surface self eq)))]
       = Ok (Vec (repeat 0 n)).
Proof.
  intros Hm Hlen Hnum Hn Ht Hw. unfold build, fixed_modes. rewrite Hm, Hlen, Hnum.
  set (s0 := with_dim_f _ _).
  assert (Hd0 : _dim_f s0 = n) by (subst s0; cbn; apply length_seq).
  assert (Hw0 : _weight s0 = [w]) by (subst s0; rewrite <- Hw; now destruct self).
  assert (Ht0 : _target s0 = [None]) by (subst s0; rewrite <- Ht; now destruct self).
  assert (He0 : _idx (ext s0) = seq 0 n) by (subst s0; now destruct self).
  intros H. apply bind_Ok in H. destruct H as [s3 [Hs H]].
  apply bind_Ok in H. destruct H as [s4 [Hc H]].
  apply bind_Ok in H. destruct H as [s5 [Hder H]]. injection H as <-.
  destruct (set_derivatives_keeps_target _ _ _ _ _ _ _ Hder) as [Et [Ew [_ Ee]]].
  unfold settle_target in Hs. rewrite Ht0, Hw0 in Hs. cbn [length] in Hs.
  destruct (Nat.eqb_spec 1 n) as [E|_]; [lia|]. cbn [bind] in Hs.
  rewrite Hw0 in Hs. cbn [length] in Hs.
  destruct (Nat.eqb_spec 1 n) as [E|_]; [lia|]. cbn [bind] in Hs.
  rewrite Ht0 in Hs. cbn [existsb is_None orb] in Hs. rewrite He0 in Hs.
  apply bind_Ok in Hs. destruct Hs as [r [Hr Hs]].
  pose proof (length_take _ _ _ Hr) as Hlr. rewrite length_seq in Hlr.
  destruct (set_target_of_floats s0 s3 r ltac:(lia) Hs) as [Ht3 [Hw3 [Hd3 He3]]].
  destruct (check_dimensions_of_floats s3 s4 r Ht3 ltac:(lia) Hc)
    as [Ht4 [Hw4 [Hd4 He4]]].
  assert (Ht5 : _target s5 = map Some r)
    by (rewrite Et, <- Ht4; now destruct s4).
  assert (Hw5 : length (_weight s5) = n)
    by (rewrite Ew; replace (_weight (_set_dimensions s4 eq)) with (_weight s4)
          by (now destruct s4); lia).
  assert (He5 : _idx (ext s5) = seq 0 n)
    by (rewrite Ee; replace (ext (_set_dimensions s4 eq)) with (ext s4)
          by (now destruct s4); now rewrite He4, He3).
  exists r. split; [exact Hr|]. split; [exact Ht5|].
  unfold compute, _compute. cbn [lookup String.eqb Ascii.eqb Bool.eqb].
  cbn [_target _weight ext with_built]. unfold index. rewrite He5, Hr. cbn [bind].
  rewrite Ht5, floats_of_floats. cbn [bind]. rewrite <- Hlr.
  apply (zero_residual r (_weight s5)). lia.
Qed.

End FixedBoundaryRTarget.

Lemma fixed_boundary_R_build_example :
  exists self',
    FixedBoundaryR.build affine_engine example_eq true
      (FixedBoundaryR.init [None] [1] None LinearObjectives.ModesTrue) = Ok self'.
Proof.
  unfold FixedBoundaryR.build.
  cbn -[ObjectiveFuns._set_derivatives ObjectiveFuns._check_dimensions
        Rplus Rminus Rmult].
  unfold ObjectiveFuns.set_target, ObjectiveFuns._check_dimensions.
  cbn -[ObjectiveFuns._set_derivatives Rplus Rminus Rmult]. decide_floats.
  cbn -[ObjectiveFuns._set_derivatives Rplus Rminus Rmult]. decide_floats.
  cbn -[ObjectiveFuns._set_derivatives Rplus Rminus Rmult]. decide_floats.
  eexists.
  lazy -[Rplus Rminus Rmult Rdiv Rinv Ropp IZR INR Rmax Rabs pow sqrt
         Req_dec_T Rlt_dec].
  reflexivity.
Qed.

Lemma fixed_boundary_R_built_without_target_witness :
  exists self' r,
    FixedBoundaryR.build affine_engine example_eq true
      (FixedBoundaryR.init [None] [1] None LinearObjectives.ModesTrue) = Ok self'
    /\ Np.take [10; 1] [0; 1]%nat = Ok r
    /\ ObjectiveFuns._target self' = map Some r
    /\ FixedBoundaryR.compute self' [("Rb_lmn"%string, Np.Vec [10; 1])]
       = Ok (Np.Vec [0; 0]).
Proof.
  destruct fixed_boundary_R_build_example as [self' H].
  destruct (fixed_boundary_R_built_without_target affine_engine example_eq true
              (FixedBoundaryR.init [None] [1] None LinearObjectives.ModesTrue)
              self' 1 2 eq_refl eq_refl eq_refl (le_n 2) eq_refl eq_refl H)
    as [r Hr].
  exists self', r. split; [exact H | exact Hr].
Defined.
